(** * chron: a job supervisor (startup jobs, cron-scheduled jobs, HTTP control plane)

    Shallow embedding of the TypeScript sources
    [chron-service.ts], [chron-server.ts], [chronfile.ts], [mailbox.ts],
    [util.ts] and the entry point, and the properties of the system
    description that are checked against them.

    Asynchronous functions are embedded as resumable activations: the code
    between two [await]s is one atomic segment, a program point records
    where an activation is suspended, and a labelled step function runs
    one segment of one activation at a time, so that every interleaving the
    event loop allows is a list of labels.  What the runtime decides (the
    clock, fresh identifiers, process ids, exit codes, file contents) comes
    with the label. *)

From Stdlib Require Import ZArith Ascii List Bool Lia DecimalString Sorted.
From stdpp Require Import base option list strings.
Import ListNotations.

Set Default Proof Using "Type".
Local Open Scope Z_scope.

(** ** Strings and numbers as template literals render them *)

Module Js.

(** [`${n}`] for an integral number. *)
Definition show (n : Z) : string := NilZero.string_of_int (Z.to_int n).

Definition newline : string := String (ascii_of_nat 10) EmptyString.

(** ["-".repeat(n)] *)
Fixpoint repeat (s : string) (n : nat) : string :=
  match n with
  | O => EmptyString
  | S k => s +:+ repeat s k
  end.

(** Leading white space skipped by [parseInt]. *)
Definition is_space (c : ascii) : bool :=
  let n := nat_of_ascii c in
  (n =? 32)%nat || ((9 <=? n)%nat && (n <=? 13)%nat).

Definition digit_of (c : ascii) : option Z :=
  let n := nat_of_ascii c in
  if ((48 <=? n)%nat && (n <=? 57)%nat)%bool then Some (Z.of_nat n - 48) else None.

Fixpoint skip_spaces (s : string) : string :=
  match s with
  | String c r => if is_space c then skip_spaces r else s
  | EmptyString => s
  end.

(** The longest prefix of decimal digits, read as a number; [None] when
    there is no digit at all. *)
Fixpoint digits (acc : option Z) (s : string) : option Z :=
  match s with
  | String c r =>
      match digit_of c with
      | Some d => digits (Some (10 * default 0 acc + d)) r
      | None => acc
      end
  | EmptyString => acc
  end.

(** [parseInt(s, 10)]; [None] is [NaN]. *)
Definition parseInt (s : string) : option Z :=
  match skip_spaces s with
  | String "-" r => Z.opp <$> digits None r
  | String "+" r => digits None r
  | r => digits None r
  end.

End Js.

(** ** Regular expressions, as far as the job-name pattern needs them *)

Module Regex.

Inductive regex : Type :=
| Void
| Eps
| Class (p : ascii -> bool)
| Cat (r1 r2 : regex)
| Alt (r1 r2 : regex)
| Star (r : regex).

(** [r+] *)
Definition Plus (r : regex) : regex := Cat r (Star r).

Fixpoint nullable (r : regex) : bool :=
  match r with
  | Void => false
  | Eps => true
  | Class _ => false
  | Cat r1 r2 => nullable r1 && nullable r2
  | Alt r1 r2 => nullable r1 || nullable r2
  | Star _ => true
  end.

Fixpoint deriv (c : ascii) (r : regex) : regex :=
  match r with
  | Void => Void
  | Eps => Void
  | Class p => if p c then Eps else Void
  | Cat r1 r2 =>
      if nullable r1
      then Alt (Cat (deriv c r1) r2) (deriv c r2)
      else Cat (deriv c r1) r2
  | Alt r1 r2 => Alt (deriv c r1) (deriv c r2)
  | Star r1 => Cat (deriv c r1) (Star r1)
  end.

(** [/^r$/.test(s)]: the whole string is matched. *)
Fixpoint test (r : regex) (s : string) : bool :=
  match s with
  | EmptyString => nullable r
  | String c s' => test (deriv c r) s'
  end.

(** The language of a regular expression, to check [test] against. *)
Inductive lang : regex -> string -> Prop :=
| LEps : lang Eps EmptyString
| LClass p c : p c = true -> lang (Class p) (String c EmptyString)
| LCat r1 r2 s1 s2 : lang r1 s1 -> lang r2 s2 -> lang (Cat r1 r2) (s1 +:+ s2)
| LAltL r1 r2 s : lang r1 s -> lang (Alt r1 r2) s
| LAltR r1 r2 s : lang r2 s -> lang (Alt r1 r2) s
| LStar0 r : lang (Star r) EmptyString
| LStarS r s1 s2 : lang r s1 -> lang (Star r) s2 -> lang (Star r) (s1 +:+ s2).

Definition in_range (lo hi : ascii) (c : ascii) : bool :=
  ((nat_of_ascii lo <=? nat_of_ascii c)%nat
   && (nat_of_ascii c <=? nat_of_ascii hi)%nat)%bool.

(** [[a-zA-Z0-9]] *)
Definition alnum (c : ascii) : bool :=
  in_range "a" "z" c || in_range "A" "Z" c || in_range "0" "9" c.

Definition is_dash (c : ascii) : bool := Ascii.eqb c "-".

(** [/^[a-zA-Z0-9]+(-[a-zA-Z0-9]+)*$/] *)
Definition kebab : regex :=
  Cat (Plus (Class alnum)) (Star (Cat (Class is_dash) (Plus (Class alnum)))).

End Regex.

(** ** AloeDB collections

  The document database is an external dependency; a collection is the
  list of its documents in insertion order and a query is the predicate
  the query object stands for.  Each operation changes the documents held
  in memory at the call, before the promise it returns settles. *)

Module Database.
Section Collection.
Context {Doc : Type}.

Definition findMany (q : Doc -> bool) (docs : list Doc) : list Doc :=
  List.filter q docs.

Definition insertOne (d : Doc) (docs : list Doc) : list Doc := docs ++ [d].

(** Returns the deleted documents and the documents kept. *)
Definition deleteMany (q : Doc -> bool) (docs : list Doc) : list Doc * list Doc :=
  (List.filter q docs, List.filter (fun d => negb (q d)) docs).

(** Patches the first document that matches. *)
Fixpoint updateOne (q : Doc -> bool) (upd : Doc -> Doc) (docs : list Doc) : list Doc :=
  match docs with
  | [] => []
  | d :: rest => if q d then upd d :: rest else d :: updateOne q upd rest
  end.
End Collection.
End Database.

(** ** mailbox.ts *)

Record Message := mkMessage {
  source : string;
  timestamp : string;
  message : string
}.

Module Mailbox.

(** The mailbox is its [#db]. *)
Definition t := list Message.

Definition by_source (s : string) (m : Message) : bool := String.eqb (source m) s.
Definition any (m : Message) : bool := true.

Definition getAllMessages (mb : t) : list Message := Database.findMany any mb.

Definition getMessages (s : string) (mb : t) : list Message :=
  Database.findMany (by_source s) mb.

(** [date] is [new Date().toString()]. *)
Definition addMessage (s : string) (date : string) (text : string) (mb : t) : Message * t :=
  let m := mkMessage s date text in (m, Database.insertOne m mb).

Definition clearAllMessages (mb : t) : list Message * t := Database.deleteMany any mb.

Definition clearMessages (s : string) (mb : t) : list Message * t :=
  Database.deleteMany (by_source s) mb.

End Mailbox.

(** ** chron-service.ts: data *)

(** A parsed cron expression ([Cron] of cron-schedule) with the two
    capabilities the service uses, on epoch milliseconds. *)
Record Cron := mkCron {
  getNextDate : Z -> Z;    (* the next firing after a date *)
  matchDate : Z -> bool    (* does the schedule fire at this date *)
}.

(** A parsed TOML document, tables with their entries in the order
    [Object.entries] lists them; numbers are the integral ones. *)
#[warnings="-register-all"] Inductive Toml : Type :=
| TString (s : string)
| TNumber (n : Z)
| TBoolean (b : bool)
| TTable (entries : list (string * Toml))
| TArray (items : list Toml).

(** Functions of the runtime and of the libraries that the sources call and
    whose code is not part of the repository. *)
Record Runtime := mkRuntime {
  parseCronExpression : string -> option Cron;   (* [None]: it throws *)
  toISOString : Z -> string;                     (* [Date.prototype.toISOString] *)
  toDateString : Z -> string;                    (* [Date.prototype.toString] *)
  parseToml : string -> option Toml              (* [None]: it throws *)
}.

Inductive Error : Type :=
| InvalidName
| DuplicateName
| InvalidCron
| ReadFailure (what : string)
| ConfigParseError
| SchemaError (issue : string).

Definition error_message (e : Error) : string :=
  match e with
  | InvalidName => "Invalid job name"
  | DuplicateName => "A job with this name already exists"
  | InvalidCron => "Invalid cron expression"
  | ReadFailure what => what
  | ConfigParseError => "Invalid chronfile"
  | SchemaError issue => issue
  end.

Inductive Outcome (A : Type) : Type :=
| Returns (a : A)
| Throws (e : Error).
Arguments Returns {A} a.
Arguments Throws {A} e.

Record StartupOptions := mkStartupOptions { keepAlive : bool }.

Inductive MissedRuns : Type :=
| All                 (* the string "all" *)
| Runs (n : Z).       (* a number, taken to be integral *)

Record ScheduleOptions := mkScheduleOptions {
  allowConcurrentRuns : bool;
  makeUpMissedRuns : MissedRuns
}.

Record RunStatusEntry := mkRun {
  run_id : string;
  run_name : string;
  run_timestamp : Z;
  run_statusCode : option Z     (* undefined while the command is running *)
}.

(** Objects live in stores and are referred to by their index, so that a
    closure or an activation that holds a job keeps seeing its mutations. *)
Definition JobRef := nat.
Definition Process := nat.     (* a child process, by its pid *)

Inductive JobType : Type :=
| Startup
| Scheduled (schedule : Cron) (schedulerTaskId : nat).

Record Job := mkJob {
  job_name : string;
  job_command : string;
  job_logFile : string;
  job_process : option Process;
  job_abortSignal : nat;         (* the signal, by its index in the store *)
  job_type : JobType
}.

(** An [AbortSignal]: the flag and the ["abort"] listeners; a listener is
    the [onAbort] closure of an execution and kills that execution's
    process. *)
Record AbortSignal := mkSignal {
  aborted : bool;
  listeners : list (nat * Process)
}.

(** A task of the [IntervalBasedCronScheduler]: the schedule and what the
    callback closure captured. *)
Record Task := mkTask {
  task_id : nat;
  task_cron : Cron;
  task_job : JobRef;
  task_name : string;
  task_options : ScheduleOptions
}.

Record Scheduler := mkScheduler {
  tasks : list Task;
  nextTaskId : nat
}.

(** ** Activations of the asynchronous functions *)

(** Who performs an action. *)
Inductive Actor : Type :=
| AService                   (* [reset] *)
| AListener (i : nat)        (* the [onAbort] listener of execution [i] *)
| AExecute (i : nat)         (* activation [i] of [#executeJob] *)
| ASchedule (s : nat)        (* activation [s] of [schedule] *)
| AStartup (t : nat)         (* activation [t] of [startup] *)
| ATask (id : nat)           (* the scheduler callback of task [id] *)
| ALoad (l : nat)            (* activation [l] of [load] *)
| AServer.                   (* the HTTP request handler *)

(** What is observable of the run, in the order in which it is issued. *)
Inductive Action : Type :=
| ActStderr (text : string)
| ActInsertOne (e : RunStatusEntry)
| ActUpdateOne (id : string) (code : Z)
| ActEnsureDir (dir : string)
| ActOpen (path : string)
| ActWrite (text : string)
| ActRun (cmd : list string) (env : option (list (string * string))) (p : Process)
| ActSetProcess (j : JobRef) (p : option Process)
| ActAddListener (signal : nat)
| ActRemoveListener (signal : nat)
| ActStatus (p : Process) (code : Z)
| ActAddMessage (src text : string)
| ActClose
| ActKill (p : Process)
| ActExecuteJob (i : nat) (j : JobRef)
| ActReset
| ActCallStartup (name command : string) (options : StartupOptions)
| ActCallSchedule (name schedule command : string) (options : ScheduleOptions)
| ActCallLoad (path : string)
| ActReadTextFile (path : string)
| ActSleep (seconds : Z)
| ActServeFile (path : string)
| ActRemove (path : string)
| ActThrow (e : Error)
| ActReturn.

Definition Event : Type := Actor * Action.

(** Where an activation of [#executeJob] is suspended, with the locals in
    scope; a finished activation keeps the locals it ended with. *)
Inductive ExecutePc : Type :=
| Aborted
| AwaitLog (startTime : Z)
| AwaitInsert (startTime : Z) (id : string)
| AwaitEnsureDir (startTime : Z) (id : string)
| AwaitOpen (startTime : Z) (id : string)
| AwaitHeader (startTime : Z) (id : string)
| AwaitStatus (startTime : Z) (id : string) (p : Process)
| AwaitUpdate (startTime : Z) (id : string) (p : Process) (code : Z)
| AwaitFooter (startTime : Z) (id : string) (p : Process) (code : Z)
| Done (startTime : Z) (id : string) (p : Process) (code : Z).

Record Execution := mkExecution {
  exec_job : JobRef;
  exec_pc : ExecutePc
}.

Definition finished (e : Execution) : bool :=
  match exec_pc e with
  | Aborted | Done _ _ _ _ => true
  | _ => false
  end.

(** The locals of [schedule] once the missed runs are counted. *)
Record CatchUp := mkCatchUp {
  cu_job : JobRef;
  cu_cron : Cron;
  cu_lastRunTime : option Z;
  cu_now : Z;
  cu_missedRuns : Z;
  cu_makeUpRuns : Z
}.

Inductive SchedulePc : Type :=
| SRejected (e : Error)
| SAwaitLastRuns (j : JobRef) (cron : Cron) (runs : list RunStatusEntry)
| SAwaitStderr (c : CatchUp)
| SAwaitExecute (c : CatchUp) (run : Z) (i : nat)
| SReturned (c : CatchUp).

Record ScheduleCall := mkScheduleCall {
  sc_name : string;
  sc_schedule : string;
  sc_command : string;
  sc_options : ScheduleOptions;
  sc_pc : SchedulePc
}.

Inductive StartupPc : Type :=
| URejected (e : Error)
| UAwaitExecute (i : nat)
| UAwaitSleep
| UReturned.

Record StartupCall := mkStartupCall {
  su_name : string;
  su_options : StartupOptions;
  su_job : JobRef;
  su_pc : StartupPc
}.

Inductive LoadPc : Type :=
| LAwaitRead
| LRejected (e : Error)
| LReturned.

Record LoadCall := mkLoadCall {
  ld_path : string;
  ld_pc : LoadPc
}.

(** The service object, the objects it shares with closures, the
    activations in flight and the events so far. *)
Record World := mkWorld {
  logDir : string;
  port : Z;
  statusDb : list RunStatusEntry;
  jobs : list (string * JobRef);      (* the [Map], in insertion order *)
  abortController : nat;
  scheduler : Scheduler;
  mailbox : Mailbox.t;
  jobObjs : list Job;
  signals : list AbortSignal;
  executions : list Execution;
  scheduleCalls : list ScheduleCall;
  startupCalls : list StartupCall;
  loadCalls : list LoadCall;
  trace : list Event
}.

Definition set_statusDb (v : list RunStatusEntry) (w : World) : World :=
  mkWorld (logDir w) (port w) v (jobs w) (abortController w) (scheduler w) (mailbox w)
    (jobObjs w) (signals w) (executions w) (scheduleCalls w) (startupCalls w) (loadCalls w) (trace w).
Definition set_jobs (v : list (string * JobRef)) (w : World) : World :=
  mkWorld (logDir w) (port w) (statusDb w) v (abortController w) (scheduler w) (mailbox w)
    (jobObjs w) (signals w) (executions w) (scheduleCalls w) (startupCalls w) (loadCalls w) (trace w).
Definition set_abortController (v : nat) (w : World) : World :=
  mkWorld (logDir w) (port w) (statusDb w) (jobs w) v (scheduler w) (mailbox w)
    (jobObjs w) (signals w) (executions w) (scheduleCalls w) (startupCalls w) (loadCalls w) (trace w).
Definition set_scheduler (v : Scheduler) (w : World) : World :=
  mkWorld (logDir w) (port w) (statusDb w) (jobs w) (abortController w) v (mailbox w)
    (jobObjs w) (signals w) (executions w) (scheduleCalls w) (startupCalls w) (loadCalls w) (trace w).
Definition set_mailbox (v : Mailbox.t) (w : World) : World :=
  mkWorld (logDir w) (port w) (statusDb w) (jobs w) (abortController w) (scheduler w) v
    (jobObjs w) (signals w) (executions w) (scheduleCalls w) (startupCalls w) (loadCalls w) (trace w).
Definition set_jobObjs (v : list Job) (w : World) : World :=
  mkWorld (logDir w) (port w) (statusDb w) (jobs w) (abortController w) (scheduler w) (mailbox w)
    v (signals w) (executions w) (scheduleCalls w) (startupCalls w) (loadCalls w) (trace w).
Definition set_signals (v : list AbortSignal) (w : World) : World :=
  mkWorld (logDir w) (port w) (statusDb w) (jobs w) (abortController w) (scheduler w) (mailbox w)
    (jobObjs w) v (executions w) (scheduleCalls w) (startupCalls w) (loadCalls w) (trace w).
Definition set_executions (v : list Execution) (w : World) : World :=
  mkWorld (logDir w) (port w) (statusDb w) (jobs w) (abortController w) (scheduler w) (mailbox w)
    (jobObjs w) (signals w) v (scheduleCalls w) (startupCalls w) (loadCalls w) (trace w).
Definition set_scheduleCalls (v : list ScheduleCall) (w : World) : World :=
  mkWorld (logDir w) (port w) (statusDb w) (jobs w) (abortController w) (scheduler w) (mailbox w)
    (jobObjs w) (signals w) (executions w) v (startupCalls w) (loadCalls w) (trace w).
Definition set_startupCalls (v : list StartupCall) (w : World) : World :=
  mkWorld (logDir w) (port w) (statusDb w) (jobs w) (abortController w) (scheduler w) (mailbox w)
    (jobObjs w) (signals w) (executions w) (scheduleCalls w) v (loadCalls w) (trace w).
Definition set_loadCalls (v : list LoadCall) (w : World) : World :=
  mkWorld (logDir w) (port w) (statusDb w) (jobs w) (abortController w) (scheduler w) (mailbox w)
    (jobObjs w) (signals w) (executions w) (scheduleCalls w) (startupCalls w) v (trace w).
Definition set_trace (v : list Event) (w : World) : World :=
  mkWorld (logDir w) (port w) (statusDb w) (jobs w) (abortController w) (scheduler w) (mailbox w)
    (jobObjs w) (signals w) (executions w) (scheduleCalls w) (startupCalls w) (loadCalls w) v.

(** ** The [Map] of jobs *)

Module JsMap.
Section Map.
Context {V : Type}.

Definition get (k : string) (m : list (string * V)) : option V :=
  snd <$> List.find (fun kv => String.eqb (fst kv) k) m.

Definition has (k : string) (m : list (string * V)) : bool :=
  match get k m with Some _ => true | None => false end.

Fixpoint set (k : string) (v : V) (m : list (string * V)) : list (string * V) :=
  match m with
  | [] => [(k, v)]
  | kv :: rest => if String.eqb (fst kv) k then (k, v) :: rest else kv :: set k v rest
  end.

Definition values (m : list (string * V)) : list V := map snd m.
End Map.
End JsMap.

(** ** chron-service.ts: operations *)

(** An object or [undefined] where a condition is expected. *)
Definition truthy {A : Type} (o : option A) : bool :=
  match o with Some _ => true | None => false end.

(** [join(dir, file)] of std/path, for a directory without trailing slash. *)
Definition join (dir file : string) : string := dir +:+ "/" +:+ file.

(** What the runtime supplies when a segment runs. *)
Record Env := mkEnv {
  now : Z;              (* the clock *)
  uuid : string;        (* [crypto.randomUUID()] *)
  child : Process;      (* the process [Deno.run] creates *)
  exitCode : Z          (* the code [process.status()] resolves with *)
}.

Definition emit (a : Actor) (act : Action) (w : World) : World :=
  set_trace (trace w ++ [(a, act)]) w.

(** [logStderr] of util.ts *)
Definition logStderr (a : Actor) (content : string) (w : World) : World :=
  emit a (ActStderr content) w.

(** [writeAllString(logFile, content)] of util.ts *)
Definition writeAllString (a : Actor) (content : string) (w : World) : World :=
  emit a (ActWrite content) w.

Definition signal_aborted (w : World) (sig : nat) : bool :=
  match signals w !! sig with
  | Some s => aborted s
  | None => false
  end.

Definition at_pc (pc : ExecutePc) (e : Execution) : Execution :=
  mkExecution (exec_job e) pc.

Definition set_pc (i : nat) (pc : ExecutePc) (w : World) : World :=
  set_executions (alter (at_pc pc) i (executions w)) w.

(** [job.process = p] *)
Definition with_process (p : option Process) (job : Job) : Job :=
  mkJob (job_name job) (job_command job) (job_logFile job) p
    (job_abortSignal job) (job_type job).

Definition set_process (a : Actor) (j : JobRef) (p : option Process) (w : World) : World :=
  let w := emit a (ActSetProcess j p) w in
  set_jobObjs (alter (with_process p) j (jobObjs w)) w.

Definition add_listener (i : nat) (p : Process) (s : AbortSignal) : AbortSignal :=
  mkSignal (aborted s) (listeners s ++ [(i, p)]).

Definition remove_listener (i : nat) (s : AbortSignal) : AbortSignal :=
  mkSignal (aborted s) (List.filter (fun l => negb (fst l =? i)%nat) (listeners s)).

(** [job.abortSignal.addEventListener("abort", onAbort)], [onAbort] being
    the closure of execution [i] that kills [p]. *)
Definition addEventListener (a : Actor) (sig i : nat) (p : Process) (w : World) : World :=
  let w := emit a (ActAddListener sig) w in
  set_signals (alter (add_listener i p) sig (signals w)) w.

Definition removeEventListener (a : Actor) (sig i : nat) (w : World) : World :=
  let w := emit a (ActRemoveListener sig) w in
  set_signals (alter (remove_listener i) sig (signals w)) w.

(** [abortController.abort()]: the flag goes up and the listeners run. *)
Definition abort (sig : nat) (w : World) : World :=
  match signals w !! sig with
  | Some s =>
      if aborted s then w
      else
        let w := set_signals (<[sig := mkSignal true (listeners s)]> (signals w)) w in
        fold_left (fun w l => emit (AListener (fst l)) (ActKill (snd l)) w) (listeners s) w
  | None => w
  end.

Definition unregisterTask (id : nat) (w : World) : World :=
  set_scheduler
    (mkScheduler (List.filter (fun t => negb (task_id t =? id)%nat) (tasks (scheduler w)))
       (nextTaskId (scheduler w))) w.

Definition registerTask (cron : Cron) (j : JobRef) (name : string)
    (options : ScheduleOptions) (w : World) : nat * World :=
  let id := nextTaskId (scheduler w) in
  (id, set_scheduler
         (mkScheduler (tasks (scheduler w) ++ [mkTask id cron j name options]) (S id)) w).

Definition by_name (name : string) (r : RunStatusEntry) : bool := String.eqb (run_name r) name.
Definition by_id (id : string) (r : RunStatusEntry) : bool := String.eqb (run_id r) id.

(** [runs.sort((r1, r2) => r2.timestamp - r1.timestamp)]: stable, newest first. *)
Fixpoint insert_run (r : RunStatusEntry) (sorted : list RunStatusEntry) : list RunStatusEntry :=
  match sorted with
  | [] => [r]
  | r' :: rest =>
      if run_timestamp r' <=? run_timestamp r then r :: sorted
      else r' :: insert_run r rest
  end.

Definition sort_runs (runs : list RunStatusEntry) : list RunStatusEntry :=
  fold_right insert_run [] runs.

Definition getLastRuns (job : string) (w : World) : list RunStatusEntry :=
  sort_runs (Database.findMany (by_name job) (statusDb w)).

(** The loop over [cronSchedule.getNextDatesIterator(new Date(lastRunTime))]:
    the iterator yields [getNextDate] of the date it yielded before.  The
    fuel bounds the number of turns; [missed_runs] gives it one turn per
    millisecond between the two dates. *)
Fixpoint count_runs (fuel : nat) (cron : Cron) (from now' : Z) : Z :=
  match fuel with
  | O => 0
  | S fuel' =>
      let nextRun := getNextDate cron from in
      if now' <? nextRun then 0 else 1 + count_runs fuel' cron nextRun now'
  end.

Definition missed_runs (cron : Cron) (lastRunTime now' : Z) : Z :=
  count_runs (Z.to_nat (now' - lastRunTime)) cron lastRunTime now'.

Definition make_up_runs (options : ScheduleOptions) (missedRuns : Z) : Z :=
  match makeUpMissedRuns options with
  | All => missedRuns
  | Runs n => Z.min missedRuns n
  end.

Definition making_up_message (makeUpRuns missedRuns : Z) (name : string) : string :=
  "Making up " +:+ Js.show makeUpRuns +:+ " of " +:+ Js.show missedRuns
    +:+ " missed runs for " +:+ name +:+ Js.newline.

Definition skipping_message (name : string) : string :=
  "Skipping " +:+ name +:+ " because it is still running" +:+ Js.newline.

Definition failed_message (name : string) (code : Z) : string :=
  name +:+ " failed with status code " +:+ Js.show code.

Definition divider : string := Js.repeat "-" 80.

(** The text in front of and behind the output of one run in the log file,
    and the line on stderr that announces a run. *)
Definition header (rt : Runtime) (startTime : Z) : string :=
  toDateString rt startTime +:+ Js.newline +:+ divider +:+ Js.newline.

Definition footer (code : Z) : string :=
  divider +:+ Js.newline +:+ "Status: " +:+ Js.show code +:+ Js.newline +:+ Js.newline.

Definition running_message (rt : Runtime) (startTime : Z) (job : Job) : string :=
  toISOString rt startTime +:+ " Running " +:+ job_name job +:+ ": "
    +:+ job_command job +:+ Js.newline.

Definition mailbox_env (w : World) (job : Job) : option (list (string * string)) :=
  if port w =? 0 then None
  else Some [("CHRON_MAILBOX_URL",
              "http://0.0.0.0:" +:+ Js.show (port w) +:+ "/mailbox/" +:+ job_name job)].

Definition name_ok (name : string) : bool :=
  negb ((String.length name =? 0)%nat || negb (Regex.test Regex.kebab name)).

(** [#validateName] *)
Definition validateName (name : string) (w : World) : Outcome unit :=
  if (String.length name =? 0)%nat || negb (Regex.test Regex.kebab name)
  then Throws InvalidName
  else if JsMap.has name (jobs w) then Throws DuplicateName
  else Returns tt.

Section Service.
Variable rt : Runtime.

(** A call of [#executeJob]: the code up to the first [await]. *)
Definition executeJob (caller : Actor) (j : JobRef) (x : Env) (w : World) : World :=
  match jobObjs w !! j with
  | None => w
  | Some job =>
      let i := length (executions w) in
      let w := emit caller (ActExecuteJob i j) w in
      if signal_aborted w (job_abortSignal job) then
        set_executions (executions w ++ [mkExecution j Aborted]) w
      else
        let startTime := now x in
        let w := set_executions (executions w ++ [mkExecution j (AwaitLog startTime)]) w in
        logStderr (AExecute i) (running_message rt startTime job) w
  end.

(** [#executeJob] resumed: from the [await] it is suspended at to the next. *)
Definition executeJob_resume (i : nat) (x : Env) (w : World) : option World :=
  e ← executions w !! i;
  job ← jobObjs w !! exec_job e;
  let me := AExecute i in
  match exec_pc e with
  | Aborted => None
  | AwaitLog startTime =>
      let id := uuid x in
      let entry := mkRun id (job_name job) startTime None in
      let w := emit me (ActInsertOne entry) w in
      let w := set_statusDb (Database.insertOne entry (statusDb w)) w in
      Some (set_pc i (AwaitInsert startTime id) w)
  | AwaitInsert startTime id =>
      Some (set_pc i (AwaitEnsureDir startTime id) (emit me (ActEnsureDir (logDir w)) w))
  | AwaitEnsureDir startTime id =>
      Some (set_pc i (AwaitOpen startTime id) (emit me (ActOpen (job_logFile job)) w))
  | AwaitOpen startTime id =>
      Some (set_pc i (AwaitHeader startTime id) (writeAllString me (header rt startTime) w))
  | AwaitHeader startTime id =>
      let env := mailbox_env w job in
      let p := child x in
      let w := emit me (ActRun ["sh"; "-c"; job_command job] env p) w in
      let w := set_process me (exec_job e) (Some p) w in
      let w := addEventListener me (job_abortSignal job) i p w in
      Some (set_pc i (AwaitStatus startTime id p) w)
  | AwaitStatus startTime id p =>
      let code := exitCode x in
      let w := emit me (ActStatus p code) w in
      let w := removeEventListener me (job_abortSignal job) i w in
      let w := set_process me (exec_job e) None w in
      let w := emit me (ActUpdateOne id code) w in
      let w := set_statusDb
                 (Database.updateOne (by_id id)
                    (fun r => mkRun (run_id r) (run_name r) (run_timestamp r) (Some code))
                    (statusDb w)) w in
      Some (set_pc i (AwaitUpdate startTime id p code) w)
  | AwaitUpdate startTime id p code =>
      let w :=
        if negb (code =? 0) then
          let text := failed_message (job_name job) code in
          let w := emit me (ActAddMessage "@errors" text) w in
          set_mailbox (snd (Mailbox.addMessage "@errors" (toDateString rt (now x)) text (mailbox w))) w
        else w in
      let w := writeAllString me (footer code) w in
      Some (set_pc i (AwaitFooter startTime id p code) w)
  | AwaitFooter startTime id p code =>
      Some (set_pc i (Done startTime id p code) (emit me ActClose w))
  | Done _ _ _ _ => None
  end.

(** The body of the [forEach] of [reset]. *)
Definition unregister_job (w : World) (j : JobRef) : World :=
  match jobObjs w !! j with
  | Some job =>
      match job_type job with
      | Scheduled _ id => unregisterTask id w
      | Startup => w
      end
  | None => w
  end.

(** [reset] *)
Definition reset (w : World) : World :=
  let w := emit AService ActReset w in
  let w := abort (abortController w) w in
  let w := fold_left unregister_job (JsMap.values (jobs w)) w in
  let w := set_jobs [] w in
  let w := set_signals (signals w ++ [mkSignal false []]) w in
  set_abortController (length (signals w) - 1)%nat w.

Definition set_startup_pc (t : nat) (pc : StartupPc) (w : World) : World :=
  set_startupCalls
    (alter (fun c => mkStartupCall (su_name c) (su_options c) (su_job c) pc) t (startupCalls w)) w.

(** One turn of the [while (true)] of [startup], from its head to the next
    [await]. *)
Definition startup_loop (t : nat) (j : JobRef) (x : Env) (w : World) : World :=
  match jobObjs w !! j with
  | None => w
  | Some job =>
      if signal_aborted w (job_abortSignal job) then
        set_startup_pc t UReturned (emit (AStartup t) ActReturn w)
      else
        let i := length (executions w) in
        set_startup_pc t (UAwaitExecute i) (executeJob (AStartup t) j x w)
  end.

(** A call of [startup], up to its first [await]. *)
Definition startup (name command : string) (options : StartupOptions) (x : Env)
    (w : World) : World :=
  let t := length (startupCalls w) in
  let me := AStartup t in
  let w := emit me (ActCallStartup name command options) w in
  match validateName name w with
  | Throws e =>
      let w := emit me (ActThrow e) w in
      set_startupCalls (startupCalls w ++ [mkStartupCall name options 0%nat (URejected e)]) w
  | Returns _ =>
      let abortController' := abortController w in
      let j := length (jobObjs w) in
      let job := mkJob name command (join (logDir w) (name +:+ ".log")) None
                   abortController' Startup in
      let w := set_jobObjs (jobObjs w ++ [job]) w in
      let w := set_jobs (JsMap.set name j (jobs w)) w in
      let w := set_startupCalls
                 (startupCalls w ++ [mkStartupCall name options j UAwaitSleep]) w in
      startup_loop t j x w
  end.

Definition startup_resume (t : nat) (x : Env) (w : World) : option World :=
  c ← startupCalls w !! t;
  match su_pc c with
  | UAwaitExecute i =>
      e ← executions w !! i;
      if finished e then
        if negb (keepAlive (su_options c)) then
          Some (set_startup_pc t UReturned (emit (AStartup t) ActReturn w))
        else
          Some (set_startup_pc t UAwaitSleep (emit (AStartup t) (ActSleep 5) w))
      else None
  | UAwaitSleep => Some (startup_loop t (su_job c) x w)
  | URejected _ | UReturned => None
  end.

Definition set_schedule_pc (s : nat) (pc : SchedulePc) (w : World) : World :=
  set_scheduleCalls
    (alter (fun c => mkScheduleCall (sc_name c) (sc_schedule c) (sc_command c) (sc_options c) pc)
       s (scheduleCalls w)) w.

(** The [for] loop of [schedule] from its test to the next [await]. *)
Definition catch_up (s : nat) (c : CatchUp) (run : Z) (x : Env) (w : World) : World :=
  if run <? cu_makeUpRuns c then
    let i := length (executions w) in
    set_schedule_pc s (SAwaitExecute c run i) (executeJob (ASchedule s) (cu_job c) x w)
  else
    set_schedule_pc s (SReturned c) (emit (ASchedule s) ActReturn w).

(** A call of [schedule], up to its first [await]. *)
Definition schedule (name schedule' command : string) (options : ScheduleOptions)
    (w : World) : World :=
  let s := length (scheduleCalls w) in
  let me := ASchedule s in
  let w := emit me (ActCallSchedule name schedule' command options) w in
  let reject e w :=
    let w := emit me (ActThrow e) w in
    set_scheduleCalls
      (scheduleCalls w ++ [mkScheduleCall name schedule' command options (SRejected e)]) w in
  match validateName name w with
  | Throws e => reject e w
  | Returns _ =>
      let abortController' := abortController w in
      match parseCronExpression rt schedule' with
      | None => reject InvalidCron w
      | Some cronSchedule =>
          let j := length (jobObjs w) in
          let registered := registerTask cronSchedule j name options w in
          let schedulerTaskId := fst registered in
          let w := snd registered in
          let job := mkJob name command (join (logDir w) (name +:+ ".log")) None
                       abortController' (Scheduled cronSchedule schedulerTaskId) in
          let w := set_jobObjs (jobObjs w ++ [job]) w in
          let w := set_jobs (JsMap.set name j (jobs w)) w in
          let runs := getLastRuns name w in
          set_scheduleCalls
            (scheduleCalls w
               ++ [mkScheduleCall name schedule' command options
                     (SAwaitLastRuns j cronSchedule runs)]) w
      end
  end.

Definition schedule_resume (s : nat) (x : Env) (w : World) : option World :=
  c ← scheduleCalls w !! s;
  match sc_pc c with
  | SAwaitLastRuns j cronSchedule runs =>
      let lastRunTime := run_timestamp <$> head runs in
      let missedRuns :=
        match lastRunTime with
        | Some t => missed_runs cronSchedule t (now x)
        | None => 0
        end in
      let makeUpRuns := make_up_runs (sc_options c) missedRuns in
      let cu := mkCatchUp j cronSchedule lastRunTime (now x) missedRuns makeUpRuns in
      if 0 <? makeUpRuns then
        Some (set_schedule_pc s (SAwaitStderr cu)
                (logStderr (ASchedule s)
                   (making_up_message makeUpRuns missedRuns (sc_name c)) w))
      else Some (catch_up s cu 0 x w)
  | SAwaitStderr cu => Some (catch_up s cu 0 x w)
  | SAwaitExecute cu run i =>
      e ← executions w !! i;
      if finished e then Some (catch_up s cu (run + 1) x w) else None
  | SRejected _ | SReturned _ => None
  end.

(** The callback [schedule] registers with the scheduler, run when task
    [id] is due. *)
Definition callback (id : nat) (x : Env) (w : World) : option World :=
  task ← List.find (fun t => (task_id t =? id)%nat) (tasks (scheduler w));
  job ← jobObjs w !! task_job task;
  if truthy (job_process job) && negb (allowConcurrentRuns (task_options task)) then
    Some (logStderr (ATask id) (skipping_message (task_name task)) w)
  else
    Some (executeJob (ATask id) (task_job task) x w).

End Service.

(** ** chronfile.ts *)

Record StartupEntry := mkStartupEntry {
  se_command : string;
  se_options : StartupOptions
}.

Record ScheduleEntry := mkScheduleEntry {
  sch_schedule : string;
  sch_command : string;
  sch_options : ScheduleOptions
}.

Record Chronfile := mkChronfile {
  cf_startup : list (string * StartupEntry);
  cf_schedule : list (string * ScheduleEntry)
}.

(** The zod schema, combinator by combinator. *)
Module Schema.

Definition invalid {A : Type} (issue : string) : Outcome A := Throws (SchemaError issue).

(** [z.string()] on a required key *)
Definition string_field (key : string) (o : list (string * Toml)) : Outcome string :=
  match JsMap.get key o with
  | Some (TString s) => Returns s
  | _ => invalid "invalid_type"
  end.

(** [z.boolean().default(d)] *)
Definition boolean_field (key : string) (d : bool) (o : list (string * Toml)) : Outcome bool :=
  match JsMap.get key o with
  | None => Returns d
  | Some (TBoolean b) => Returns b
  | Some _ => invalid "invalid_type"
  end.

(** [z.union([z.number().min(0), z.literal("all")]).default(0)] *)
Definition missed_runs_field (key : string) (o : list (string * Toml)) : Outcome MissedRuns :=
  match JsMap.get key o with
  | None => Returns (Runs 0)
  | Some (TNumber n) => if 0 <=? n then Returns (Runs n) else invalid "invalid_union"
  | Some (TString s) => if String.eqb s "all" then Returns All else invalid "invalid_union"
  | Some _ => invalid "invalid_union"
  end.

(** [.strict()]: a key outside the shape is an issue. *)
Definition strict (shape : list string) (o : list (string * Toml)) : bool :=
  forallb (fun kv => existsb (String.eqb (fst kv)) shape) o.

Definition bind {A B : Type} (m : Outcome A) (f : A -> Outcome B) : Outcome B :=
  match m with
  | Returns a => f a
  | Throws e => Throws e
  end.

Definition startup_entry (v : Toml) : Outcome StartupEntry :=
  match v with
  | TTable o =>
      bind (string_field "command" o) (fun command =>
      bind (boolean_field "keepAlive" true o) (fun keepAlive' =>
      if strict ["command"; "keepAlive"] o
      then Returns (mkStartupEntry command (mkStartupOptions keepAlive'))
      else invalid "unrecognized_keys"))
  | _ => invalid "invalid_type"
  end.

Definition schedule_entry (v : Toml) : Outcome ScheduleEntry :=
  match v with
  | TTable o =>
      bind (string_field "schedule" o) (fun schedule' =>
      bind (string_field "command" o) (fun command =>
      bind (boolean_field "allowConcurrentRuns" false o) (fun allow =>
      bind (missed_runs_field "makeUpMissedRuns" o) (fun makeUp =>
      if strict ["schedule"; "command"; "allowConcurrentRuns"; "makeUpMissedRuns"] o
      then Returns (mkScheduleEntry schedule' command (mkScheduleOptions allow makeUp))
      else invalid "unrecognized_keys"))))
  | _ => invalid "invalid_type"
  end.

(** [z.record(entry)] *)
Fixpoint record {A : Type} (entry : Toml -> Outcome A) (o : list (string * Toml))
    : Outcome (list (string * A)) :=
  match o with
  | [] => Returns []
  | (k, v) :: rest =>
      bind (entry v) (fun a => bind (record entry rest) (fun r => Returns ((k, a) :: r)))
  end.

(** [z.record(entry).default({})] on a key of the document *)
Definition record_field {A : Type} (entry : Toml -> Outcome A) (key : string)
    (o : list (string * Toml)) : Outcome (list (string * A)) :=
  match JsMap.get key o with
  | None => Returns []
  | Some (TTable t) => record entry t
  | Some _ => invalid "invalid_type"
  end.

(** [schema.parse] *)
Definition parse (doc : Toml) : Outcome Chronfile :=
  match doc with
  | TTable o =>
      bind (record_field startup_entry "startup" o) (fun startup' =>
      bind (record_field schedule_entry "schedule" o) (fun schedule' =>
      Returns (mkChronfile startup' schedule')))
  | _ => invalid "invalid_type"
  end.

End Schema.

Section Chronfile.
Variable rt : Runtime.

Definition set_load_pc (l : nat) (pc : LoadPc) (w : World) : World :=
  set_loadCalls (alter (fun c => mkLoadCall (ld_path c) pc) l (loadCalls w)) w.

(** A call of [load], up to the [await] of [Deno.readTextFile]. *)
Definition load (path : string) (w : World) : World :=
  let l := length (loadCalls w) in
  let w := emit (ALoad l) (ActCallLoad path) w in
  let w := reset w in
  let w := emit (ALoad l) (ActReadTextFile path) w in
  set_loadCalls (loadCalls w ++ [mkLoadCall path LAwaitRead]) w.

Definition start_all (x : Env) (entries : list (string * StartupEntry)) (w : World) : World :=
  fold_left
    (fun w e => startup rt (fst e) (se_command (snd e)) (se_options (snd e)) x w)
    entries w.

Definition schedule_all (entries : list (string * ScheduleEntry)) (w : World) : World :=
  fold_left
    (fun w e =>
       schedule rt (fst e) (sch_schedule (snd e)) (sch_command (snd e)) (sch_options (snd e)) w)
    entries w.

(** [load] resumed with what reading the file gave. *)
Definition load_resume (l : nat) (file : Outcome string) (x : Env) (w : World) : option World :=
  c ← loadCalls w !! l;
  let reject e := Some (set_load_pc l (LRejected e) (emit (ALoad l) (ActThrow e) w)) in
  match ld_pc c with
  | LAwaitRead =>
      match file with
      | Throws e => reject e
      | Returns text =>
          match parseToml rt text with
          | None => reject ConfigParseError
          | Some doc =>
              match Schema.parse doc with
              | Throws e => reject e
              | Returns chronfile =>
                  let w := start_all x (cf_startup chronfile) w in
                  let w := schedule_all (cf_schedule chronfile) w in
                  Some (set_load_pc l LReturned (emit (ALoad l) ActReturn w))
              end
          end
      end
  | LRejected _ | LReturned => None
  end.

End Chronfile.

(** ** The [ChronService] constructor and the entry point *)

(** [jobStatus] and [messages] are the documents the two databases find in
    their files. *)
Definition new_ChronService (port' : Z) (chronDir : option string)
    (jobStatus : list RunStatusEntry) (messages : list Message) : World :=
  let chronDir := default "." chronDir in
  mkWorld (join chronDir "logs") port' jobStatus [] 0%nat (mkScheduler [] 1%nat) messages
    [] [mkSignal false []] [] [] [] [] [].

Inductive Started : Type :=
| Exit (code : Z)
| Serving (w : World).

(** The entry point up to the first [load]; [PORT] and [HOME] are the
    environment variables, [args] is [Deno.args]. *)
Definition main (PORT HOME : option string) (args : list string)
    (jobStatus : list RunStatusEntry) (messages : list Message) : Started :=
  let rawPort := default "" PORT in
  match Js.parseInt rawPort with
  | None => Exit 1
  | Some port' =>
      let chron :=
        new_ChronService port' (Some (default "undefined" HOME +:+ "/.local/share/chron"))
          jobStatus messages in
      match head args with
      | None => Exit 1
      | Some chronfilePath =>
          if (String.length chronfilePath =? 0)%nat then Exit 1
          else Serving (load chronfilePath chron)
      end
  end.

(** ** chron-server.ts *)

Record Request := mkRequest {
  method : string;
  pathname : string;      (* [new URL(req.url).pathname] *)
  text : string           (* the body *)
}.

Inductive Json : Type :=
| JJobs (l : list (string * bool))
| JStatus (name type : string) (runs : list (string * option Z))
    (nextRun : option string) (pid : option Process)
| JMessages (l : list Message)
| JMessage (m : Message)
| JCount (n : nat).

Inductive Body : Type :=
| Text (s : string)
| JsonBody (j : Json)
| FileBody (path : string).

Record Response := mkResponse {
  status : Z;
  body : Body
}.

(** What a rejected file operation rejects with. *)
Inductive Thrown : Type :=
| NotFound                        (* an instance of [Deno.errors.NotFound] *)
| OtherError (rendered : string)  (* another [Error], with its [toString()] *)
| NotAnError.

(** What the runtime supplies while a request is handled. *)
Record HttpEnv := mkHttpEnv {
  fs_error : option Thrown;   (* how the file operation of the route fails, if it does *)
  date : string;              (* [new Date().toString()] *)
  clock : Z
}.

(** [handleFsError] of util.ts *)
Definition handleFsError (err : Thrown) : Response :=
  match err with
  | NotFound => mkResponse 404 (Text "Not Found")
  | OtherError rendered => mkResponse 500 (Text rendered)
  | NotAnError => mkResponse 500 (Text "Unknown error")
  end.

(** The segments of a path between its slashes. *)
Fixpoint segments (s : string) : list string :=
  match s with
  | EmptyString => [EmptyString]
  | String c r =>
      if Ascii.eqb c "/" then EmptyString :: segments r
      else
        match segments r with
        | seg :: rest => String c seg :: rest
        | [] => [String c EmptyString]
        end
  end.

Definition nonempty (s : string) : bool := negb (String.length s =? 0)%nat.

(** [new URLPattern({ pathname: "/job/:job/:command" }).exec(req.url)]: a
    named group is one segment that is not empty. *)
Definition jobPattern (path : string) : option (string * string) :=
  match segments path with
  | [root; fixed; job; command] =>
      if (String.eqb root "" && String.eqb fixed "job" && nonempty job && nonempty command)%bool
      then Some (job, command) else None
  | _ => None
  end.

(** [new URLPattern({ pathname: "/mailbox/:command" }).exec(req.url)] *)
Definition mailboxPattern (path : string) : option string :=
  match segments path with
  | [root; fixed; command] =>
      if (String.eqb root "" && String.eqb fixed "mailbox" && nonempty command)%bool
      then Some command else None
  | _ => None
  end.

Definition type_name (t : JobType) : string :=
  match t with
  | Startup => "startup"
  | Scheduled _ _ => "scheduled"
  end.

Section Server.
Variable rt : Runtime.

Definition invalid_method : Response := mkResponse 405 (Text "Invalid Method").
Definition not_found : Response := mkResponse 404 (Text "Not Found").
Definition ok (b : Body) : Response := mkResponse 200 b.

(** [#jobHandler] *)
Definition jobHandler (req : Request) (jobName command : string) (h : HttpEnv)
    (w : World) : Response * World :=
  match JsMap.get jobName (jobs w) ≫= fun j => jobObjs w !! j with
  | None => (not_found, w)
  | Some job =>
      if String.eqb command "status" then
        if String.eqb (method req) "GET" then
          let recentRuns :=
            map (fun r => (toISOString rt (run_timestamp r), run_statusCode r))
              (firstn 3 (getLastRuns (job_name job) w)) in
          let nextRun :=
            match job_type job with
            | Scheduled cron _ => Some (toISOString rt (getNextDate cron (clock h)))
            | Startup => None
            end in
          (ok (JsonBody (JStatus (job_name job) (type_name (job_type job)) recentRuns
                           nextRun (job_process job))), w)
        else (invalid_method, w)
      else if String.eqb command "logs" then
        if String.eqb (method req) "GET" then
          let w := emit AServer (ActServeFile (job_logFile job)) w in
          match fs_error h with
          | None => (ok (FileBody (job_logFile job)), w)
          | Some err => (handleFsError err, w)
          end
        else if String.eqb (method req) "DELETE" then
          let w := emit AServer (ActRemove (job_logFile job)) w in
          match fs_error h with
          | None => (ok (Text "Deleted log file"), w)
          | Some err => (handleFsError err, w)
          end
        else (invalid_method, w)
      else if String.eqb command "mailbox" then
        if String.eqb (method req) "GET" then
          (ok (JsonBody (JMessages (Mailbox.getMessages (job_name job) (mailbox w)))), w)
        else if String.eqb (method req) "POST" then
          let '(m, mb) := Mailbox.addMessage (job_name job) (date h) (text req) (mailbox w) in
          (ok (JsonBody (JMessage m)), set_mailbox mb w)
        else if String.eqb (method req) "DELETE" then
          let '(removed, mb) := Mailbox.clearMessages (job_name job) (mailbox w) in
          (ok (JsonBody (JMessages removed)), set_mailbox mb w)
        else (invalid_method, w)
      else if String.eqb command "terminate" then
        if String.eqb (method req) "POST" then
          match job_process job with
          | Some p => (ok (Text "Terminated job"), emit AServer (ActKill p) w)
          | None => (ok (Text "Job not running"), w)
          end
        else (invalid_method, w)
      else (not_found, w)
  end.

(** [#mailboxHandler] *)
Definition mailboxHandler (req : Request) (command : string) (w : World) : Response * World :=
  if String.eqb command "messages" then
    if String.eqb (method req) "GET" then
      (ok (JsonBody (JMessages (Mailbox.getAllMessages (mailbox w)))), w)
    else if String.eqb (method req) "DELETE" then
      let '(removed, mb) := Mailbox.clearAllMessages (mailbox w) in
      (ok (JsonBody (JMessages removed)), set_mailbox mb w)
    else (invalid_method, w)
  else if String.eqb command "count" then
    (ok (JsonBody (JCount (length (Mailbox.getAllMessages (mailbox w))))), w)
  else (invalid_method, w).

(** [#httpHandler] *)
Definition httpHandler (req : Request) (h : HttpEnv) (w : World) : Response * World :=
  if (String.eqb (method req) "GET" && String.eqb (pathname req) "/")%bool then
    (ok (JsonBody (JJobs
           (omap (fun j => (fun job => (job_name job, truthy (job_process job))) <$> jobObjs w !! j)
              (JsMap.values (jobs w))))), w)
  else
    match jobPattern (pathname req) with
    | Some (job, command) => jobHandler req job command h w
    | None =>
        match mailboxPattern (pathname req) with
        | Some command => mailboxHandler req command w
        | None => (mkResponse 400 (Text "Bad Request"), w)
        end
    end.

End Server.

(** ** The event loop *)

Inductive Label : Type :=
| CallStartup (name command : string) (options : StartupOptions) (x : Env)
| CallSchedule (name schedule command : string) (options : ScheduleOptions)
| CallReset
| CallLoad (path : string)
| Fire (task : nat) (x : Env)
| ResumeExecute (i : nat) (x : Env)
| ResumeSchedule (s : nat) (x : Env)
| ResumeStartup (t : nat) (x : Env)
| ResumeLoad (l : nat) (file : Outcome string) (x : Env)
| Serve (req : Request) (h : HttpEnv).

Section Loop.
Variable rt : Runtime.

(** One turn: a call from outside, a task of the scheduler that is due, or
    an activation whose awaited promise has settled.  [None]: nothing of the
    kind is pending. *)
Definition step (l : Label) (w : World) : option World :=
  match l with
  | CallStartup name command options x => Some (startup rt name command options x w)
  | CallSchedule name schedule' command options =>
      Some (schedule rt name schedule' command options w)
  | CallReset => Some (reset w)
  | CallLoad path => Some (load path w)
  | Fire task x => callback rt task x w
  | ResumeExecute i x => executeJob_resume rt i x w
  | ResumeSchedule s x => schedule_resume rt s x w
  | ResumeStartup t x => startup_resume rt t x w
  | ResumeLoad l file x => load_resume rt l file x w
  | Serve req h => Some (snd (httpHandler rt req h w))
  end.

Fixpoint run (ls : list Label) (w : World) : option World :=
  match ls with
  | [] => Some w
  | l :: rest => w' ← step l w; run rest w'
  end.

End Loop.

(** ** What one activation has performed *)

Definition actor_eqb (a b : Actor) : bool :=
  match a, b with
  | AService, AService => true
  | AListener i, AListener j => (i =? j)%nat
  | AExecute i, AExecute j => (i =? j)%nat
  | ASchedule i, ASchedule j => (i =? j)%nat
  | AStartup i, AStartup j => (i =? j)%nat
  | ATask i, ATask j => (i =? j)%nat
  | ALoad i, ALoad j => (i =? j)%nat
  | AServer, AServer => true
  | _, _ => false
  end.

(** The actions of one actor, in the order of the trace. *)
Definition by_actor (a : Actor) (tr : list Event) : list Action :=
  map snd (List.filter (fun ev => actor_eqb (fst ev) a) tr).

Definition is_execute (a : Actor) : bool :=
  match a with AExecute _ => true | _ => false end.

Definition is_run (act : Action) : bool :=
  match act with ActRun _ _ _ => true | _ => false end.

Section Performed.
Variable rt : Runtime.
Variable w : World.
Variable job : Job.
Variable j : JobRef.

(** The actions of an execution of [job] that is suspended at a program
    point, from the code of [#executeJob] up to that point. *)
Definition upto_log (startTime : Z) : list Action :=
  [ActStderr (running_message rt startTime job)].

Definition upto_insert (startTime : Z) (id : string) : list Action :=
  upto_log startTime ++ [ActInsertOne (mkRun id (job_name job) startTime None)].

Definition upto_ensureDir (startTime : Z) (id : string) : list Action :=
  upto_insert startTime id ++ [ActEnsureDir (logDir w)].

Definition upto_open (startTime : Z) (id : string) : list Action :=
  upto_ensureDir startTime id ++ [ActOpen (job_logFile job)].

Definition upto_header (startTime : Z) (id : string) : list Action :=
  upto_open startTime id ++ [ActWrite (header rt startTime)].

Definition upto_status (startTime : Z) (id : string) (p : Process) : list Action :=
  upto_header startTime id
    ++ [ActRun ["sh"; "-c"; job_command job] (mailbox_env w job) p;
        ActSetProcess j (Some p);
        ActAddListener (job_abortSignal job)].

Definition upto_update (startTime : Z) (id : string) (p : Process) (code : Z) : list Action :=
  upto_status startTime id p
    ++ [ActStatus p code;
        ActRemoveListener (job_abortSignal job);
        ActSetProcess j None;
        ActUpdateOne id code].

Definition upto_footer (startTime : Z) (id : string) (p : Process) (code : Z) : list Action :=
  upto_update startTime id p code
    ++ (if negb (code =? 0)
        then [ActAddMessage "@errors" (failed_message (job_name job) code)] else [])
    ++ [ActWrite (footer code)].

Definition upto_done (startTime : Z) (id : string) (p : Process) (code : Z) : list Action :=
  upto_footer startTime id p code ++ [ActClose].

Definition performed (pc : ExecutePc) : list Action :=
  match pc with
  | Aborted => []
  | AwaitLog startTime => upto_log startTime
  | AwaitInsert startTime id => upto_insert startTime id
  | AwaitEnsureDir startTime id => upto_ensureDir startTime id
  | AwaitOpen startTime id => upto_open startTime id
  | AwaitHeader startTime id => upto_header startTime id
  | AwaitStatus startTime id p => upto_status startTime id p
  | AwaitUpdate startTime id p code => upto_update startTime id p code
  | AwaitFooter startTime id p code => upto_footer startTime id p code
  | Done startTime id p code => upto_done startTime id p code
  end.

End Performed.

(** * The properties *)

(** ** Their vocabulary *)

(** What holds in every world the loop reaches. *)
Record consistent (rt : Runtime) (w : World) : Prop := mkConsistent {
  inv_controller : (abortController w < length (signals w))%nat;
  inv_current : signal_aborted w (abortController w) = false;
  inv_old : forall k, (k < length (signals w))%nat -> k <> abortController w ->
            signal_aborted w k = true;
  inv_job_signal : forall j job, jobObjs w !! j = Some job ->
            (job_abortSignal job < length (signals w))%nat;
  inv_registry : forall name j, In (name, j) (jobs w) ->
            exists job, jobObjs w !! j = Some job /\ job_name job = name
              /\ job_abortSignal job = abortController w /\ name_ok name = true;
  inv_performed : forall i e, executions w !! i = Some e ->
            exists job, jobObjs w !! exec_job e = Some job
              /\ by_actor (AExecute i) (trace w) = performed rt w job (exec_job e) (exec_pc e);
  inv_actor : forall a act, In (a, act) (trace w) ->
            (forall i, a = AExecute i -> (i < length (executions w))%nat)
            /\ (is_run act = true -> is_execute a = true);
  inv_listener : forall i e st id p, executions w !! i = Some e ->
            exec_pc e = AwaitStatus st id p ->
            exists job s, jobObjs w !! exec_job e = Some job
              /\ signals w !! job_abortSignal job = Some s /\ In (i, p) (listeners s)
}.

(** Two worlds that differ at most in the databases, the scheduler and the
    activations of [startup], [schedule] and [load]. *)
Definition core_eq (w' w : World) : Prop :=
  logDir w' = logDir w /\ port w' = port w /\ jobs w' = jobs w
  /\ abortController w' = abortController w /\ jobObjs w' = jobObjs w
  /\ signals w' = signals w /\ executions w' = executions w /\ trace w' = trace w.

(** Two states of a job object: all but [process] is equal. *)
Definition static_eq (a b : Job) : Prop :=
  job_name a = job_name b /\ job_command a = job_command b
  /\ job_logFile a = job_logFile b /\ job_abortSignal a = job_abortSignal b.

(** The events of the listeners of a signal that is aborted. *)
Definition kills (ls : list (nat * Process)) : list Event :=
  map (fun l => (AListener (fst l), ActKill (snd l))) ls.

(** The activations that have been entered. *)
Definition existing (w : World) (a : Actor) : Prop :=
  match a with
  | AExecute i => (i < length (executions w))%nat
  | ASchedule s => (s < length (scheduleCalls w))%nat
  | AStartup t => (t < length (startupCalls w))%nat
  | ALoad l => (l < length (loadCalls w))%nat
  | _ => False
  end.

(** [extends A w w']: [w'] comes after [w], and only the activations in [A]
    and activations that did not exist in [w] have run in between. *)
Record extends (A : Actor -> Prop) (w w' : World) : Prop := mkExtends {
  ext_port : port w' = port w;
  ext_logDir : logDir w' = logDir w;
  ext_existing : forall a, existing w a -> existing w' a;
  ext_trace : exists evs, trace w' = trace w ++ evs
      /\ forall a, existing w a -> ~ A a -> by_actor a evs = [];
  ext_jobObjs : forall j job, jobObjs w !! j = Some job ->
      exists job', jobObjs w' !! j = Some job' /\ static_eq job' job;
  ext_aborted : forall k, signal_aborted w k = true -> signal_aborted w' k = true;
  ext_executions : forall i e, executions w !! i = Some e ->
      exists e', executions w' !! i = Some e' /\ exec_job e' = exec_job e
        /\ (finished e = true \/ ~ A (AExecute i) -> e' = e);
  ext_new : forall i e job, executions w !! i = None -> executions w' !! i = Some e ->
      jobObjs w !! exec_job e = Some job ->
      signal_aborted w (job_abortSignal job) = true -> exec_pc e = Aborted;
  ext_scheduleCalls : forall s c, scheduleCalls w !! s = Some c -> ~ A (ASchedule s) ->
      scheduleCalls w' !! s = Some c
}.

(** Changes outside of the fields [extends] speaks about. *)
Definition ext_eq (w' w : World) : Prop :=
  logDir w' = logDir w /\ port w' = port w /\ jobObjs w' = jobObjs w
  /\ signals w' = signals w /\ executions w' = executions w /\ trace w' = trace w
  /\ scheduleCalls w' = scheduleCalls w
  /\ (length (startupCalls w) <= length (startupCalls w'))%nat
  /\ (length (loadCalls w) <= length (loadCalls w'))%nat.

(** The activation a label resumes. *)
Definition resumed (l : Label) (a : Actor) : Prop :=
  match l with
  | ResumeExecute i _ => a = AExecute i
  | ResumeSchedule s _ => a = ASchedule s
  | ResumeStartup t _ => a = AStartup t
  | ResumeLoad l _ _ => a = ALoad l
  | _ => False
  end.

(** The worlds the event loop can reach from a service that was just
    constructed. *)
Definition reachable (rt : Runtime) (w : World) : Prop :=
  exists port' dir db mb ls, run rt ls (new_ChronService port' dir db mb) = Some w.

(** Everything one run of a job performs, in order. *)
Definition invocation (rt : Runtime) (w : World) (job : Job) (j : JobRef)
    (startTime : Z) (id : string) (p : Process) (code : Z) : list Action :=
  [ ActStderr (running_message rt startTime job);
    ActInsertOne (mkRun id (job_name job) startTime None);
    ActEnsureDir (logDir w);
    ActOpen (job_logFile job);
    ActWrite (header rt startTime);
    ActRun ["sh"; "-c"; job_command job] (mailbox_env w job) p;
    ActSetProcess j (Some p);
    ActAddListener (job_abortSignal job);
    ActStatus p code;
    ActRemoveListener (job_abortSignal job);
    ActSetProcess j None;
    ActUpdateOne id code ]
  ++ (if code =? 0 then []
      else [ActAddMessage "@errors" (job_name job +:+ " failed with status code " +:+ Js.show code)])
  ++ [ ActWrite (footer code); ActClose ].

(** Kinds of actions. *)
Definition is_kill (act : Action) : bool :=
  match act with ActKill _ => true | _ => false end.

Definition is_add_message (act : Action) : bool :=
  match act with ActAddMessage _ _ => true | _ => false end.

(** What a segment of [#executeJob] appends to the mailbox. *)
Definition posted (rt : Runtime) (job : Job) (x : Env) (pc : ExecutePc) : list Message :=
  match pc with
  | AwaitUpdate _ _ _ code =>
      if code =? 0 then []
      else [mkMessage "@errors" (toDateString rt (now x))
              (job_name job +:+ " failed with status code " +:+ Js.show code)]
  | _ => []
  end.

(** The calls [load] makes, among the events of a trace. *)
Definition is_call (act : Action) : bool :=
  match act with
  | ActReset | ActReadTextFile _ | ActCallStartup _ _ _ | ActCallSchedule _ _ _ _ => true
  | _ => false
  end.

Definition calls (tr : list Event) : list Action := List.filter is_call (map snd tr).

(** [w'] comes from [w] by events among which there is no call of [load],
    and no activation of [load] has changed. *)
Definition quiet (w w' : World) : Prop :=
  (exists evs, trace w' = trace w ++ evs /\ calls evs = [])
  /\ loadCalls w' = loadCalls w.

Definition startup_call (e : string * StartupEntry) : Action :=
  ActCallStartup (fst e) (se_command (snd e)) (se_options (snd e)).

Definition schedule_call (e : string * ScheduleEntry) : Action :=
  ActCallSchedule (fst e) (sch_schedule (snd e)) (sch_command (snd e)) (sch_options (snd e)).

(** What [load] does once the file is read, in terms of the calls made so
    far. *)
Definition load_outcome (rt : Runtime) (path : string) (file : Outcome string)
    (before : list Action) (l : nat) (evs : list Event) (w' : World) : Prop :=
  match file with
  | Throws e =>
      calls evs = before /\ loadCalls w' !! l = Some (mkLoadCall path (LRejected e))
  | Returns text =>
      match parseToml rt text with
      | None =>
          calls evs = before
          /\ loadCalls w' !! l = Some (mkLoadCall path (LRejected ConfigParseError))
      | Some doc =>
          match Schema.parse doc with
          | Throws e =>
              calls evs = before
              /\ loadCalls w' !! l = Some (mkLoadCall path (LRejected e))
          | Returns chronfile =>
              calls evs
              = before ++ map startup_call (cf_startup chronfile)
                  ++ map schedule_call (cf_schedule chronfile)
              /\ loadCalls w' !! l = Some (mkLoadCall path LReturned)
          end
      end
  end.

(** The occurrences of [cron] after [t] and not after [now']. *)
Definition occurrences (cron : Cron) (t now' : Z) : Z :=
  Z.of_nat (length (List.filter (matchDate cron) (seqZ (t + 1) (now' - t)))).

(** What the library promises of [getNextDate]: the first occurrence after
    the date it is given. *)
Definition next_occurrence (cron : Cron) : Prop :=
  forall t, t < getNextDate cron t
    /\ matchDate cron (getNextDate cron t) = true
    /\ forall u, t < u < getNextDate cron t -> matchDate cron u = false.

(** [t] is the time of the most recent run of [name] on record. *)
Definition last_run (name : string) (db : list RunStatusEntry) (t : Z) : Prop :=
  (exists r, In r db /\ run_name r = name /\ run_timestamp r = t)
  /\ forall r, In r db -> run_name r = name -> run_timestamp r <= t.

(** No run of [name] is on record. *)
Definition never_run (name : string) (db : list RunStatusEntry) : Prop :=
  forall r, In r db -> run_name r <> name.

(** [M] runs of [name] were missed up to [now']. *)
Definition missed (name : string) (cron : Cron) (db : list RunStatusEntry) (now' M : Z) : Prop :=
  (exists t, last_run name db t /\ M = occurrences cron t now')
  \/ (never_run name db /\ M = 0).

(** The line [schedule] writes before it makes up runs. *)
Definition announcement (name : string) (M C : Z) : list Action :=
  if 0 <? C
  then [ActStderr ("Making up " +:+ Js.show C +:+ " of " +:+ Js.show M
                     +:+ " missed runs for " +:+ name +:+ Js.newline)]
  else [].

(** The invocations [ids] of [#executeJob] have returned. *)
Definition all_finished (w : World) (ids : list nat) : Prop :=
  forall i, In i ids -> exists e, executions w !! i = Some e /\ finished e = true.

(** The calls of [#executeJob] on job [j] that entered the invocations
    [ids]. *)
Definition invocations (j : JobRef) (ids : list nat) : list Action :=
  map (fun i => ActExecuteJob i j) ids.

(** The locals [cu] of a call of [schedule] are what the code computes from
    the runs [getLastRuns] gave. *)
Definition counted (options : ScheduleOptions) (j : JobRef) (cron : Cron)
    (runs : list RunStatusEntry) (cu : CatchUp) : Prop :=
  cu_job cu = j
  /\ cu_missedRuns cu
     = match head runs with
       | Some r => missed_runs cron (run_timestamp r) (cu_now cu)
       | None => 0
       end
  /\ cu_makeUpRuns cu = make_up_runs options (cu_missedRuns cu).

(** What a call of [schedule] suspended at [pc] has done ([did]), by the
    point it is suspended at. *)
Definition catching_up (call : Action) (name : string) (options : ScheduleOptions)
    (j : JobRef) (cron : Cron) (runs : list RunStatusEntry)
    (did : list Action) (w : World) (pc : SchedulePc) : Prop :=
  match pc with
  | SRejected _ => False
  | SAwaitLastRuns j' cron' runs' => j' = j /\ cron' = cron /\ runs' = runs /\ did = [call]
  | SAwaitStderr cu =>
      counted options j cron runs cu /\ 0 < cu_makeUpRuns cu
      /\ did = call :: announcement name (cu_missedRuns cu) (cu_makeUpRuns cu)
  | SAwaitExecute cu run i =>
      counted options j cron runs cu /\ 0 <= run < cu_makeUpRuns cu
      /\ (i < length (executions w))%nat
      /\ exists ids, length ids = Z.to_nat run /\ all_finished w ids
           /\ did = call :: announcement name (cu_missedRuns cu) (cu_makeUpRuns cu)
                      ++ invocations j (ids ++ [i])
  | SReturned cu =>
      counted options j cron runs cu
      /\ exists ids, length ids = Z.to_nat (cu_makeUpRuns cu) /\ all_finished w ids
           /\ did = call :: announcement name (cu_missedRuns cu) (cu_makeUpRuns cu)
                      ++ invocations j ids ++ [ActReturn]
  end.

(** The state of call [s] of [schedule], made in world [w0], in a later
    world [w]. *)
Definition catch_up_state (s : nat) (call : Action) (name : string)
    (options : ScheduleOptions) (j : JobRef) (cron : Cron) (runs : list RunStatusEntry)
    (w0 w : World) : Prop :=
  is_Some (jobObjs w !! j)
  /\ exists evs c,
       trace w = trace w0 ++ evs /\ scheduleCalls w !! s = Some c
       /\ sc_name c = name /\ sc_options c = options
       /\ catching_up call name options j cron runs (by_actor (ASchedule s) evs) w (sc_pc c).

(** The value of an option that is known to hold one. *)
Definition or_else {A : Type} (d : A) (o : option A) : A := default d o.

(** ** The vocabulary of the further properties *)

(** [r1] is at least as recent as [r2]. *)
Definition not_older (r1 r2 : RunStatusEntry) : Prop := run_timestamp r2 <= run_timestamp r1.

(** The table under [key] of a document, when there is one. *)
Definition table_of (key : string) (o : list (string * Toml)) : option (list (string * Toml)) :=
  match JsMap.get key o with
  | None => Some []
  | Some (TTable t) => Some t
  | Some _ => None
  end.

(** The entry [e] is what the schema [entry] makes of the value of [kv],
    under the same name. *)
Definition parsed_as {A : Type} (entry : Toml -> Outcome A)
    (kv : string * Toml) (e : string * A) : Prop :=
  fst kv = fst e /\ entry (snd kv) = Returns (snd e).

(** A path segment: not empty and without a slash. *)
Fixpoint no_slash (s : string) : bool :=
  match s with
  | EmptyString => true
  | String c r => negb (Ascii.eqb c "/") && no_slash r
  end.

Definition segment (s : string) : Prop := s <> "" /\ no_slash s = true.

(** The segments joined by slashes. *)
Fixpoint unsegments (l : list string) : string :=
  match l with
  | [] => ""
  | [s] => s
  | s :: rest => s +:+ "/" +:+ unsegments rest
  end.

(** The path of a route of a job. *)
Definition job_path (name command : string) : string :=
  "/job/" +:+ name +:+ "/" +:+ command.

(** What [GET /] says of a job. *)
Definition listed (job : Job) : string * bool := (job_name job, truthy (job_process job)).

(** What the status route shows of a run. *)
Definition shown (rt : Runtime) (r : RunStatusEntry) : string * option Z :=
  (toISOString rt (run_timestamp r), run_statusCode r).

(** Every character class of [r] lies within [P]. *)
Fixpoint classes_within (P : ascii -> bool) (r : Regex.regex) : Prop :=
  match r with
  | Regex.Class p => forall c, p c = true -> P c = true
  | Regex.Cat r1 r2 | Regex.Alt r1 r2 => classes_within P r1 /\ classes_within P r2
  | Regex.Star r1 => classes_within P r1
  | Regex.Void | Regex.Eps => True
  end.

Fixpoint string_forall (P : ascii -> bool) (s : string) : bool :=
  match s with
  | EmptyString => true
  | String c r => P c && string_forall P r
  end.

(** The two databases of the service. *)
Definition stores (w : World) : list RunStatusEntry * Mailbox.t := (statusDb w, mailbox w).

(** What identifies a run on record; its status code comes later. *)
Definition run_key (r : RunStatusEntry) : string * string * Z :=
  (run_id r, run_name r, run_timestamp r).

(** The registry, the scheduler and the kinds of the job objects. *)
Definition registry (w : World) : list (string * JobRef) * Scheduler * list JobType :=
  (jobs w, scheduler w, job_type <$> jobObjs w).

(** The task belongs to a registered job, scheduled under the id of the task. *)
Definition task_registered (w : World) (task : Task) : Prop :=
  In (task_name task, task_job task) (jobs w)
  /\ (job_type <$> jobObjs w) !! task_job task
     = Some (Scheduled (task_cron task) (task_id task)).

(** The file cannot be read, or parsed, or is rejected by the schema. *)
Definition unloadable (rt : Runtime) (file : Outcome string) : Prop :=
  match file with
  | Throws _ => True
  | Returns text =>
      match parseToml rt text with
      | None => True
      | Some doc => match Schema.parse doc with Throws _ => True | Returns _ => False end
      end
  end.

(** What the [forEach] of [reset] leaves of the tasks. *)
Definition unregistered (types : list JobType) (js : list JobRef) (task : Task) : bool :=
  existsb
    (fun j => match types !! j with
              | Some (Scheduled _ id) => (task_id task =? id)%nat
              | _ => false
              end) js.

(** The turns of the loop of [startup] that are over: a run and the sleep
    after it, for each of the invocations [ids]. *)
Definition rounds (j : JobRef) (ids : list nat) : list Action :=
  flat_map (fun i => [ActExecuteJob i j; ActSleep 5]) ids.

(** What a call of [startup] suspended at [pc] has done ([did]); [sig] is the
    abort signal of its job. *)
Definition starting_up (call : Action) (options : StartupOptions) (j : JobRef) (sig : nat)
    (did : list Action) (w : World) (pc : StartupPc) : Prop :=
  match pc with
  | URejected _ => False
  | UAwaitExecute i =>
      (i < length (executions w))%nat
      /\ exists ids, all_finished w ids
           /\ (keepAlive options = false -> ids = [])
           /\ did = call :: rounds j ids ++ [ActExecuteJob i j]
  | UAwaitSleep =>
      keepAlive options = true
      /\ exists ids, all_finished w ids /\ ids <> [] /\ did = call :: rounds j ids
  | UReturned =>
      (keepAlive options = false
       /\ exists i, all_finished w [i] /\ did = [call; ActExecuteJob i j; ActReturn])
      \/ (keepAlive options = true /\ signal_aborted w sig = true
          /\ exists ids, all_finished w ids /\ ids <> []
               /\ did = call :: rounds j ids ++ [ActReturn])
  end.

(** The state of call [t] of [startup], made in world [w0], in a later world
    [w]. *)
Definition startup_state (t : nat) (call : Action) (options : StartupOptions) (j : JobRef)
    (sig : nat) (w0 w : World) : Prop :=
  (exists job, jobObjs w !! j = Some job /\ job_abortSignal job = sig)
  /\ exists evs c,
       trace w = trace w0 ++ evs /\ startupCalls w !! t = Some c
       /\ su_options c = options /\ su_job c = j
       /\ starting_up call options j sig (by_actor (AStartup t) evs) w (su_pc c).

(** The activations of [startup] that exist in [w] are in [w'] as they are. *)
Definition keeps_startups (w w' : World) : Prop :=
  forall t c, startupCalls w !! t = Some c -> startupCalls w' !! t = Some c.

(** The label is not a call of [reset] or of [load]. *)
Definition keeps_jobs (l : Label) : bool :=
  match l with
  | CallReset | CallLoad _ => false
  | _ => true
  end.

(** The log directory, and the name and the log file of each job object. *)
Definition log_files (w : World) : string * list (string * string) :=
  (logDir w, (fun job => (job_name job, job_logFile job)) <$> jobObjs w).

(** The log of a job is the file [<name>.log] of the log directory. *)
Definition logs_to (w : World) (job : Job) : Prop :=
  job_logFile job = join (logDir w) (job_name job +:+ ".log").

(** The process of job [j], when it is set. *)
Definition process_of (w : World) (j : JobRef) : option Process :=
  jobObjs w !! j ≫= job_process.

(** [p] is the child of a run of job [j] that waits for its exit. *)
Definition child_of_run (w : World) (j : JobRef) (p : Process) : Prop :=
  exists i e st id,
    executions w !! i = Some e /\ exec_job e = j /\ exec_pc e = AwaitStatus st id p.

Definition processes_running (w : World) : Prop :=
  forall j p, process_of w j = Some p -> child_of_run w j p.

(** From [w] to [w'] no process of a job was set, and the invocations of
    [w] are as they were. *)
Definition same_children (w w' : World) : Prop :=
  (forall j p, process_of w' j = Some p -> process_of w j = Some p)
  /\ (forall i e, executions w !! i = Some e -> executions w' !! i = Some e).

(** ** A chronfile and a clock to try the claims on *)

Module Sample.

(** ["* * * * *"]: every full minute. *)
Definition every_minute : Cron :=
  mkCron (fun t => 60000 * (t / 60000 + 1)) (fun t => t mod 60000 =? 0).

Definition chronfile : Toml :=
  TTable [("startup", TTable [("web", TTable [("command", TString "serve")])]);
          ("schedule", TTable [("tick", TTable [("schedule", TString "* * * * *");
                                               ("command", TString "true");
                                               ("makeUpMissedRuns", TNumber 2)])])].

Definition rt : Runtime :=
  mkRuntime
    (fun s => if String.eqb s "* * * * *" then Some every_minute else None)
    Js.show Js.show
    (fun s => if String.eqb s "chronfile" then Some chronfile else None).

Definition x : Env := mkEnv 1000000000 "ca3f" 4711%nat 0.
Definition x' : Env := mkEnv 1000000030 "7e21" 4713%nat 0.
Definition x_fail : Env := mkEnv 1000000060 "0b1d" 4712%nat 1.

Definition fresh : World := new_ChronService 8000 None [] [].

(** A job is scheduled, its task fires, and the run is entered. *)
Definition entered : list Label :=
  [CallSchedule "a" "* * * * *" "sleep 1" (mkScheduleOptions false (Runs 0));
   ResumeSchedule 0%nat x; Fire 1%nat x].

(** The run continues up to the spawn. *)
Definition to_spawn : list Label :=
  [ResumeExecute 0%nat x; ResumeExecute 0%nat x; ResumeExecute 0%nat x;
   ResumeExecute 0%nat x; ResumeExecute 0%nat x].

(** The eight resumptions that take a run from its first [await] to its end. *)
Definition one_run (i : nat) (x : Env) : list Label := replicate 8 (ResumeExecute i x).

(** A run of [a] is at its spawned child. *)
Definition running : World := or_else fresh (run rt (entered ++ to_spawn) fresh).

(** A run of [a] has ended with exit code 1. *)
Definition failed : World := or_else fresh (run rt (entered ++ one_run 0 x_fail) fresh).

(** A run of [a] is suspended at its first [await]; it is resumed up to the
    spawn after a [reset]. *)
Definition suspended : World := or_else fresh (run rt entered fresh).
Definition spawned_after_reset : World :=
  or_else fresh (run rt to_spawn (reset suspended)).

(** The store holds one run of [tick], five minutes old. *)
Definition seeded : World :=
  new_ChronService 8000 None [mkRun "r0" "tick" 999700000 (Some 0)] [].

Definition two_at_most : ScheduleOptions := mkScheduleOptions false (Runs 2).

(** [schedule] resumed until it has made up the runs and returned. *)
Definition makes_up : list Label :=
  ResumeSchedule 0%nat x :: ResumeSchedule 0%nat x :: one_run 0 x
    ++ ResumeSchedule 0%nat x' :: one_run 1 x' ++ [ResumeSchedule 0%nat x'].

(** The service as [main] starts it with [PORT=0], and the resumptions that
    load the chronfile and take its startup job to the spawn. *)
Definition started : World :=
  load "chronfile" (new_ChronService 0 (Some "/home/u/.local/share/chron") [] []).

Definition to_first_spawn : list Label :=
  ResumeLoad 0%nat (Returns "chronfile") x :: to_spawn.

(** Placeholders for lookups that are known to succeed. *)
Definition no_execution : Execution := mkExecution 0%nat Aborted.
Definition no_task : Task :=
  mkTask 0%nat every_minute 0%nat "" (mkScheduleOptions false (Runs 0)).
Definition no_job : Job := mkJob "" "" "" None 0%nat Startup.
Definition no_call : ScheduleCall :=
  mkScheduleCall "" "" "" two_at_most (SRejected InvalidName).

(** What the server is given with a request. *)
Definition h : HttpEnv := mkHttpEnv None "Mon Nov 02 2026 10:00:00 GMT+0000" 1000000000.

(** The failing run of [a] has its exit code and is about to post it. *)
Definition exited : World :=
  or_else fresh (run rt (entered ++ replicate 6 (ResumeExecute 0%nat x_fail)) fresh).
Definition posting : World := or_else fresh (step rt (ResumeExecute 0%nat x_fail) exited).

(** [load] of a file that cannot be read, while [a] is running. *)
Definition unreadable : Outcome string := Throws (ReadFailure "No such file or directory (os error 2)").
Definition load_failed : World :=
  or_else fresh
    (load_resume rt (length (loadCalls running)) unreadable x (load "chronfile" running)).

(** A startup job that is kept alive: its first run is over, and after the
    sleep it is run again. *)
Definition second_turn : list Label :=
  one_run 0 x ++ [ResumeStartup 0%nat x; ResumeStartup 0%nat x'].
Definition kept_alive : World :=
  or_else fresh
    (run rt second_turn (startup rt "web" "serve" (mkStartupOptions true) x fresh)).

(** The run of [a] that was suspended at its first [await] is at its child. *)
Definition spawned : World := or_else fresh (run rt to_spawn suspended).

(** What the schema makes of [chronfile]. *)
Definition parsed : Chronfile :=
  mkChronfile [("web", mkStartupEntry "serve" (mkStartupOptions true))]
    [("tick", mkScheduleEntry "* * * * *" "true" (mkScheduleOptions false (Runs 2)))].

End Sample.

(** * Proofs *)

Lemma or_else_Some {A : Type} (d : A) (o : option A) :
  truthy o = true -> o = Some (or_else d o).
Proof. by destruct o. Qed.

(** ** Projections of the trace *)

Lemma actor_eqb_eq a b : actor_eqb a b = true <-> a = b.
Proof.
  destruct a, b; simpl; split; intros H; try discriminate; try reflexivity;
    try (apply Nat.eqb_eq in H; congruence);
    try (inversion H; subst; apply Nat.eqb_refl).
Qed.

Lemma actor_eqb_refl a : actor_eqb a a = true.
Proof. by apply actor_eqb_eq. Qed.

Lemma by_actor_app a tr1 tr2 : by_actor a (tr1 ++ tr2) = by_actor a tr1 ++ by_actor a tr2.
Proof. unfold by_actor. by rewrite List.filter_app, map_app. Qed.

Lemma by_actor_one a b act :
  by_actor a [(b, act)] = if actor_eqb b a then [act] else [].
Proof. unfold by_actor. simpl. by destruct (actor_eqb b a). Qed.

Lemma by_actor_In a act tr : In act (by_actor a tr) <-> In (a, act) tr.
Proof.
  unfold by_actor. rewrite in_map_iff. split.
  - intros [[b act'] [Heq Hin]]. simpl in Heq. subst act'.
    apply filter_In in Hin as [Hin Hb]. simpl in Hb. apply actor_eqb_eq in Hb. by subst.
  - intros Hin. exists (a, act). split; [done|]. apply filter_In. split; [done|].
    simpl. apply actor_eqb_refl.
Qed.

Lemma by_actor_nil a tr : (forall act, ~ In (a, act) tr) -> by_actor a tr = [].
Proof.
  intros H. destruct (by_actor a tr) as [|act l] eqn:E; [done|].
  exfalso. apply (H act). apply by_actor_In. rewrite E. by left.
Qed.

(** ** Invariants of the event loop *)

Section Invariants.
Variable rt : Runtime.

(** *** What holds in every world the loop reaches *)

Lemma performed_ext w w' job j pc :
  logDir w' = logDir w -> port w' = port w ->
  performed rt w' job j pc = performed rt w job j pc.
Proof.
  intros Hl Hp. destruct pc; simpl; try reflexivity;
  unfold upto_done, upto_footer, upto_update, upto_status, upto_header, upto_open, upto_ensureDir, mailbox_env;
  rewrite ?Hl, ?Hp; reflexivity.
Qed.

Lemma signal_aborted_ext w w' k : signals w' = signals w -> signal_aborted w' k = signal_aborted w k.
Proof. unfold signal_aborted. by intros ->. Qed.

Lemma core_set_statusDb v w : core_eq (set_statusDb v w) w.
Proof. by repeat split. Qed.
Lemma core_set_scheduler v w : core_eq (set_scheduler v w) w.
Proof. by repeat split. Qed.
Lemma core_set_mailbox v w : core_eq (set_mailbox v w) w.
Proof. by repeat split. Qed.
Lemma core_set_scheduleCalls v w : core_eq (set_scheduleCalls v w) w.
Proof. by repeat split. Qed.
Lemma core_set_startupCalls v w : core_eq (set_startupCalls v w) w.
Proof. by repeat split. Qed.
Lemma core_set_loadCalls v w : core_eq (set_loadCalls v w) w.
Proof. by repeat split. Qed.
Lemma core_set_schedule_pc s pc w : core_eq (set_schedule_pc s pc w) w.
Proof. by repeat split. Qed.
Lemma core_set_startup_pc t pc w : core_eq (set_startup_pc t pc w) w.
Proof. by repeat split. Qed.
Lemma core_set_load_pc l pc w : core_eq (set_load_pc l pc w) w.
Proof. by repeat split. Qed.

Lemma consistent_same w w' : consistent rt w -> core_eq w' w -> consistent rt w'.
Proof.
  intros [] (Hl & Hp & Hj & Ha & Ho & Hs & He & Ht).
  split; rewrite ?Hj, ?Ha, ?Ho, ?Hs, ?He, ?Ht; try done.
  - unfold signal_aborted in *. by rewrite Hs.
  - intros k. unfold signal_aborted in *. rewrite Hs. auto.
  - intros i e Hi. destruct (inv_performed0 i e Hi) as (job & ? & ?).
    exists job. by rewrite (performed_ext w w').
Qed.

Lemma consistent_emit a act w :
  consistent rt w -> is_execute a = false -> is_run act = false -> consistent rt (emit a act w).
Proof.
  intros [] Ha Hact. split; simpl; try done.
  - intros i e Hi. destruct (inv_performed0 i e Hi) as (job & ? & Hp).
    exists job. split; [done|]. rewrite by_actor_app, by_actor_one, Hp.
    destruct a; simpl in *; try discriminate; by rewrite app_nil_r.
  - intros b act' [Hin|Hin]%in_app_or.
    + by apply inv_actor0.
    + destruct Hin as [[= <- <-]|[]]. split; [|congruence].
      intros i ->. discriminate.
Qed.

Lemma consistent_executeJob caller j x w :
  consistent rt w -> is_execute caller = false -> consistent rt (executeJob rt caller j x w).
Proof.
  intros Hc Hcaller. unfold executeJob.
  destruct (jobObjs w !! j) as [job|] eqn:Hjob; [|done].
  pose proof (consistent_emit caller (ActExecuteJob (length (executions w)) j) w Hc Hcaller eq_refl) as Hc1.
  set (w1 := emit caller (ActExecuteJob (length (executions w)) j) w) in *.
  assert (Hfresh : by_actor (AExecute (length (executions w))) (trace w1) = []).
  { apply by_actor_nil. intros act Hin. apply (inv_actor _ _ Hc1) in Hin as [Hin _].
    specialize (Hin _ eq_refl). simpl in Hin. lia. }
  destruct Hc1.
  destruct (signal_aborted w1 (job_abortSignal job)) eqn:Hab.
  - split; simpl; try done.
    + intros i e [[Hlt Hi]|[-> <-]]%lookup_snoc_Some.
      * by apply inv_performed0.
      * exists job. split; [done|]. by simpl.
    + intros a act Hin. destruct (inv_actor0 a act Hin) as [H1 H2]. split; [|done].
      intros i ->. rewrite length_app. simpl. specialize (H1 _ eq_refl). simpl in H1. lia.
    + intros i e st id p [[Hlt Hi]|[-> <-]]%lookup_snoc_Some Hpc; [|discriminate].
      by eapply inv_listener0.
  - split; simpl; try done.
    + intros i e [[Hlt Hi]|[-> <-]]%lookup_snoc_Some.
      * destruct (inv_performed0 i e Hi) as (job' & ? & Hp). exists job'. split; [done|].
        simpl in Hp. rewrite by_actor_app, by_actor_one. simpl.
        replace (length (executions w) =? i)%nat with false; [by rewrite app_nil_r|].
        symmetry. apply Nat.eqb_neq. simpl in Hlt. lia.
      * exists job. split; [done|]. simpl in Hfresh.
        rewrite by_actor_app, Hfresh, by_actor_one. simpl. by rewrite Nat.eqb_refl.
    + intros a act [Hin|Hin]%in_app_or.
      * destruct (inv_actor0 a act Hin) as [H1 H2]. split; [|done].
        intros i ->. rewrite length_app. simpl. specialize (H1 _ eq_refl). simpl in H1. lia.
      * destruct Hin as [[= <- <-]|[]]. split; [|done]. intros i [= <-].
        rewrite length_app. simpl. lia.
    + intros i e st id p [[Hlt Hi]|[-> <-]]%lookup_snoc_Some Hpc; [|discriminate].
      by eapply inv_listener0.
Qed.

Lemma performed_static w job job' j pc :
  static_eq job job' -> performed rt w job j pc = performed rt w job' j pc.
Proof.
  intros (Hn & Hc & Hl & Hs).
  destruct pc; simpl; try reflexivity;
  unfold upto_done, upto_footer, upto_update, upto_status, upto_header, upto_open,
    upto_ensureDir, upto_insert, upto_log, mailbox_env, running_message;
  rewrite ?Hn, ?Hc, ?Hl, ?Hs; reflexivity.
Qed.

Lemma by_actor_map a b acts :
  by_actor a (map (pair b) acts) = if actor_eqb b a then acts else [].
Proof.
  induction acts as [|act acts IH]; simpl.
  - by destruct (actor_eqb b a).
  - change ((b, act) :: map (pair b) acts) with ([(b, act)] ++ map (pair b) acts).
    rewrite by_actor_app, by_actor_one, IH. by destruct (actor_eqb b a).
Qed.

Lemma lookup_alter_static (f : Job -> Job) (l : list Job) j j' job' :
  (forall job, static_eq (f job) job) ->
  alter f j l !! j' = Some job' ->
  exists job, l !! j' = Some job /\ static_eq job' job.
Proof.
  intros Hf. destruct (decide (j = j')) as [->|Hne].
  - rewrite list_lookup_alter_eq. destruct (l !! j') as [job|]; [|done].
    intros [= <-]. eauto.
  - rewrite list_lookup_alter_ne by done. intros ->. exists job'.
    by repeat split.
Qed.

Lemma lookup_alter_static' (f : Job -> Job) (l : list Job) j j' job :
  (forall job, static_eq (f job) job) ->
  l !! j' = Some job ->
  exists job', alter f j l !! j' = Some job' /\ static_eq job' job.
Proof.
  intros Hf Hl. destruct (decide (j = j')) as [->|Hne].
  - rewrite list_lookup_alter_eq, Hl. simpl. eauto.
  - rewrite list_lookup_alter_ne by done. exists job. by repeat split.
Qed.

Lemma consistent_advance w w' i e job pc' acts (f : Job -> Job) (g : AbortSignal -> AbortSignal) :
  consistent rt w ->
  executions w !! i = Some e -> jobObjs w !! exec_job e = Some job ->
  logDir w' = logDir w -> port w' = port w -> jobs w' = jobs w ->
  abortController w' = abortController w ->
  jobObjs w' = alter f (exec_job e) (jobObjs w) ->
  (forall job, static_eq (f job) job) ->
  signals w' = alter g (job_abortSignal job) (signals w) ->
  (forall s, aborted (g s) = aborted s) ->
  (forall s i' p', i' <> i -> In (i', p') (listeners s) -> In (i', p') (listeners (g s))) ->
  (forall s st id p, pc' = AwaitStatus st id p -> In (i, p) (listeners (g s))) ->
  executions w' = alter (at_pc pc') i (executions w) ->
  trace w' = trace w ++ map (pair (AExecute i)) acts ->
  performed rt w job (exec_job e) pc' = performed rt w job (exec_job e) (exec_pc e) ++ acts ->
  consistent rt w'.
Proof.
  intros Hc Hi Hjob Hl Hp Hj Ha Ho Hf Hs Hg1 Hg2 Hg3 He Ht Hperf.
  assert (Hab : forall k, signal_aborted w' k = signal_aborted w k).
  { intros k. unfold signal_aborted. rewrite Hs.
    destruct (decide (job_abortSignal job = k)) as [->|Hne].
    - rewrite list_lookup_alter_eq. destruct (signals w !! k); simpl; [apply Hg1|done].
    - by rewrite list_lookup_alter_ne. }
  assert (Hlen : length (signals w') = length (signals w)).
  { rewrite Hs. apply length_alter. }
  destruct Hc.
  split.
  - rewrite Ha, Hlen. done.
  - rewrite Ha, Hab. done.
  - intros k. rewrite Ha, Hlen, Hab. auto.
  - intros j0 job0. rewrite Ho, Hlen. intros Hj0.
    destruct (lookup_alter_static _ _ _ _ _ Hf Hj0) as (job1 & H1 & (_ & _ & _ & ->)).
    eauto.
  - intros name j0. rewrite Hj, Ha, Ho. intros Hin.
    destruct (inv_registry0 _ _ Hin) as (job0 & H0 & Hn & Hsig & Hok).
    destruct (lookup_alter_static' f _ (exec_job e) _ _ Hf H0) as (job1 & H1 & (Hn1 & _ & _ & Hs1)).
    exists job1. repeat split; try done; congruence.
  - intros i0 e0. rewrite He, Ho, Ht, by_actor_app, by_actor_map. simpl.
    destruct (decide (i = i0)) as [<-|Hne].
    + rewrite list_lookup_alter_eq, Hi. simpl. intros [= <-]. simpl.
      destruct (lookup_alter_static' f _ (exec_job e) _ _ Hf Hjob) as (job1 & H1 & Hst).
      exists job1. split; [done|].
      destruct (inv_performed0 _ _ Hi) as (job2 & H2 & Hp2).
      assert (job2 = job) by congruence. subst job2.
      rewrite Nat.eqb_refl, Hp2.
      rewrite (performed_ext w w') by done.
      rewrite (performed_static w job1 job) by done. by rewrite Hperf.
    + rewrite list_lookup_alter_ne by done. intros Hi0.
      destruct (inv_performed0 _ _ Hi0) as (job0 & H0 & Hp0).
      destruct (lookup_alter_static' f _ (exec_job e) _ _ Hf H0) as (job1 & H1 & Hst).
      exists job1. split; [done|].
      replace (i =? i0)%nat with false by (symmetry; by apply Nat.eqb_neq).
      rewrite app_nil_r, Hp0, (performed_ext w w') by done.
      by rewrite (performed_static w job1 job0).
  - intros a act. rewrite Ht, He, length_alter. intros [Hin|Hin]%in_app_or.
    + by apply inv_actor0.
    + apply in_map_iff in Hin as (act' & [= <- <-] & _). split; [|done].
      intros i0 [= <-]. by eapply lookup_lt_Some.
  - intros i0 e0 st id p. rewrite He, Ho, Hs.
    destruct (decide (i = i0)) as [<-|Hne].
    + rewrite list_lookup_alter_eq, Hi. simpl. intros [= <-]. simpl. intros ->.
      destruct (lookup_alter_static' f _ (exec_job e) _ _ Hf Hjob)
        as (job1 & H1 & (_ & _ & _ & Hs1)).
      pose proof (inv_job_signal0 _ _ Hjob) as Hlt.
      apply lookup_lt_is_Some_2 in Hlt as [s Hsig].
      exists job1, (g s). rewrite Hs1. split; [done|]. split.
      * by rewrite list_lookup_alter_eq, Hsig.
      * by eapply Hg3.
    + rewrite list_lookup_alter_ne by done. intros Hi0 Hpc.
      destruct (inv_listener0 _ _ _ _ _ Hi0 Hpc) as (job0 & s & H0 & Hsig & Hin).
      destruct (lookup_alter_static' f _ (exec_job e) _ _ Hf H0)
        as (job1 & H1 & (_ & _ & _ & Hs1)).
      exists job1. rewrite Hs1.
      destruct (decide (job_abortSignal job = job_abortSignal job0)) as [Heq|Hneq].
      * exists (g s). split; [done|]. split.
        -- by rewrite Heq, list_lookup_alter_eq, Hsig.
        -- apply Hg2; [congruence|done].
      * exists s. split; [done|]. split; [|done].
        by rewrite list_lookup_alter_ne.
Qed.

Lemma static_eq_refl job : static_eq job job.
Proof. by repeat split. Qed.

Lemma static_with_process p job : static_eq (with_process p job) job.
Proof. by repeat split. Qed.

Lemma alter_id_eq {A} (l : list A) i : alter (fun x => x) i l = l.
Proof. apply list_alter_id. done. Qed.

Lemma consistent_resume i x w w' :
  consistent rt w -> executeJob_resume rt i x w = Some w' -> consistent rt w'.
Proof.
  intros Hc Hstep. unfold executeJob_resume in Hstep.
  destruct (executions w !! i) as [e|] eqn:Hi; [|done]. simpl in Hstep.
  destruct (jobObjs w !! exec_job e) as [job|] eqn:Hjob; [|done]. simpl in Hstep.
  destruct (exec_pc e) eqn:Hpc; try discriminate; injection Hstep as <-.
  - eapply (consistent_advance w _ i e job _ [_] (fun x => x) (fun x => x));
      try done; simpl; rewrite ?alter_id_eq, ?Hpc; try done.
  - eapply (consistent_advance w _ i e job _ [_] (fun x => x) (fun x => x));
      try done; simpl; rewrite ?alter_id_eq, ?Hpc; try done.
  - eapply (consistent_advance w _ i e job _ [_] (fun x => x) (fun x => x));
      try done; simpl; rewrite ?alter_id_eq, ?Hpc; try done.
  - eapply (consistent_advance w _ i e job _ [_] (fun x => x) (fun x => x));
      try done; simpl; rewrite ?alter_id_eq, ?Hpc; try done.
  - eapply (consistent_advance w _ i e job _ [_; _; _] (with_process (Some (child x)))
              (add_listener i (child x)));
      try done; simpl; rewrite ?Hpc; try done.
    + intros s i' p' _ Hin. apply in_or_app. by left.
    + intros s st id' p' [= _ _ <-]. apply in_or_app. right. by left.
    + by rewrite <- !app_assoc.
  - eapply (consistent_advance w _ i e job _ [_; _; _; _] (with_process None)
              (remove_listener i));
      try done; simpl; rewrite ?Hpc; try done.
    + intros s i' p' Hne Hin. apply filter_In. split; [done|]. simpl.
      apply negb_true_iff, Nat.eqb_neq. done.
    + by rewrite <- !app_assoc.
  - destruct (negb (code =? 0)) eqn:Hcode.
    + eapply (consistent_advance w _ i e job _ [_; _] (fun x => x) (fun x => x));
        try done; simpl; rewrite ?alter_id_eq, ?Hpc; try done.
      * by rewrite <- !app_assoc.
      * unfold upto_footer. by rewrite Hcode.
    + eapply (consistent_advance w _ i e job _ [_] (fun x => x) (fun x => x));
        try done; simpl; rewrite ?alter_id_eq, ?Hpc; try done.
      unfold upto_footer. by rewrite Hcode.
  - eapply (consistent_advance w _ i e job _ [_] (fun x => x) (fun x => x));
      try done; simpl; rewrite ?alter_id_eq, ?Hpc; try done.
Qed.

Lemma set_trace_eta w : set_trace (trace w) w = w.
Proof. by destruct w. Qed.

Lemma set_scheduler_eta w : set_scheduler (scheduler w) w = w.
Proof. by destruct w. Qed.

Lemma fold_kills ls w :
  fold_left (fun w l => emit (AListener (fst l)) (ActKill (snd l)) w) ls w
  = set_trace (trace w ++ kills ls) w.
Proof.
  revert w. induction ls as [|l ls IH]; intros w; simpl.
  - by rewrite app_nil_r, set_trace_eta.
  - rewrite IH. unfold emit, set_trace. simpl. by rewrite <- app_assoc.
Qed.

Lemma fold_unregister js w :
  exists sch, fold_left unregister_job js w = set_scheduler sch w.
Proof.
  revert w. induction js as [|j js IH]; intros w; simpl.
  - exists (scheduler w). by rewrite set_scheduler_eta.
  - destruct (IH (unregister_job w j)) as [sch Hsch].
    rewrite Hsch. unfold unregister_job.
    destruct (jobObjs w !! j) as [job|]; [destruct (job_type job)|]; by eexists.
Qed.

Lemma reset_fields w s :
  signals w !! abortController w = Some s -> aborted s = false ->
  logDir (reset w) = logDir w /\ port (reset w) = port w
  /\ jobs (reset w) = []
  /\ abortController (reset w) = length (signals w)
  /\ signals (reset w)
     = <[abortController w := mkSignal true (listeners s)]> (signals w) ++ [mkSignal false []]
  /\ jobObjs (reset w) = jobObjs w
  /\ executions (reset w) = executions w
  /\ scheduleCalls (reset w) = scheduleCalls w
  /\ startupCalls (reset w) = startupCalls w
  /\ loadCalls (reset w) = loadCalls w
  /\ statusDb (reset w) = statusDb w
  /\ mailbox (reset w) = mailbox w
  /\ trace (reset w) = trace w ++ (AService, ActReset) :: kills (listeners s).
Proof.
  intros Hs Hab. unfold reset. cbv zeta.
  match goal with |- context [fold_left ?F ?js ?w1] =>
    destruct (fold_unregister js w1) as [sch Hsch] end.
  rewrite Hsch. clear Hsch. unfold abort. simpl. rewrite Hs, Hab. rewrite fold_kills. simpl.
  rewrite length_app, length_insert. simpl.
  repeat split; try done.
  - lia.
  - by rewrite <- app_assoc.
Qed.

Lemma by_actor_kills i ls : by_actor (AExecute i) (kills ls) = [].
Proof.
  apply by_actor_nil. intros act Hin. unfold kills in Hin.
  apply in_map_iff in Hin as (l & [=] & _).
Qed.

Lemma consistent_reset w : consistent rt w -> consistent rt (reset w).
Proof.
  intros Hc.
  pose proof (inv_controller _ _ Hc) as Hlt.
  pose proof (inv_current _ _ Hc) as Hcur.
  apply lookup_lt_is_Some_2 in Hlt as [s Hs].
  unfold signal_aborted in Hcur. rewrite Hs in Hcur.
  destruct (reset_fields w s Hs Hcur)
    as (Hl & Hp & Hj & Ha & Hsig & Ho & He & _ & _ & _ & _ & _ & Ht).
  destruct Hc.
  split.
  - rewrite Ha, Hsig, length_app, length_insert. simpl. lia.
  - unfold signal_aborted. rewrite Ha, Hsig.
    rewrite lookup_app_r by (rewrite length_insert; lia).
    by rewrite length_insert, Nat.sub_diag.
  - intros k. unfold signal_aborted.
    rewrite Ha, Hsig, length_app, length_insert. simpl. intros Hk Hne.
    rewrite lookup_app_l by (rewrite length_insert; lia).
    destruct (decide (abortController w = k)) as [<-|Hne'].
    + rewrite list_lookup_insert_eq by (by eapply lookup_lt_Some). done.
    + rewrite list_lookup_insert_ne by done.
      apply (inv_old0 k); [lia|done].
  - intros j job. rewrite Ho, Hsig, length_app, length_insert. simpl. intros Hj0.
    specialize (inv_job_signal0 _ _ Hj0). lia.
  - intros name j. rewrite Hj. intros [].
  - intros i e. rewrite He, Ho, Ht. intros Hi.
    destruct (inv_performed0 _ _ Hi) as (job & H0 & Hp0). exists job. split; [done|].
    rewrite by_actor_app.
    change ((AService, ActReset) :: kills (listeners s))
      with ([(AService, ActReset)] ++ kills (listeners s)).
    rewrite by_actor_app, by_actor_one, by_actor_kills. simpl. rewrite app_nil_r, Hp0.
    by rewrite (performed_ext w (reset w)).
  - intros a act. rewrite Ht, He. intros [Hin|Hin]%in_app_or.
    + by apply inv_actor0.
    + destruct Hin as [[= <- <-]|Hin].
      * split; [|done]. by intros i.
      * unfold kills in Hin. apply in_map_iff in Hin as (l & [= <- <-] & _).
        split; [|done]. by intros i.
  - intros i e st id p. rewrite He, Ho, Hsig. intros Hi Hpc.
    destruct (inv_listener0 _ _ _ _ _ Hi Hpc) as (job & s0 & H0 & Hs0 & Hin).
    exists job.
    destruct (decide (abortController w = job_abortSignal job)) as [Heq|Hne].
    + exists (mkSignal true (listeners s)). split; [done|].
      rewrite <- Heq in *. assert (s0 = s) by congruence. subst s0.
      split; [|done].
      apply lookup_app_l_Some.
      apply list_lookup_insert_eq. by eapply lookup_lt_Some.
    + exists s0. split; [done|]. split; [|done].
      apply lookup_app_l_Some. by rewrite list_lookup_insert_ne.
Qed.

Lemma JsMap_set_In {V} (k : string) (v : V) m k' v' :
  In (k', v') (JsMap.set k v m) -> (k', v') = (k, v) \/ In (k', v') m.
Proof.
  induction m as [|[k0 v0] m IH]; simpl.
  - intros [<-|[]]. by left.
  - destruct (String.eqb k0 k).
    + intros [<-|Hin]; [by left|]. right. by right.
    + intros [<-|Hin]; [right; by left|]. destruct (IH Hin); [by left|]. right. by right.
Qed.

Lemma consistent_register w w' name job :
  consistent rt w ->
  job_name job = name -> job_abortSignal job = abortController w -> name_ok name = true ->
  logDir w' = logDir w -> port w' = port w ->
  jobs w' = JsMap.set name (length (jobObjs w)) (jobs w) ->
  abortController w' = abortController w ->
  jobObjs w' = jobObjs w ++ [job] ->
  signals w' = signals w -> executions w' = executions w -> trace w' = trace w ->
  consistent rt w'.
Proof.
  intros [] Hn Hsig Hok Hl Hp Hj Ha Ho Hs He Ht.
  split; rewrite ?Hj, ?Ha, ?Ho, ?Hs, ?He, ?Ht; try done.
  - unfold signal_aborted in *. by rewrite Hs.
  - intros k. unfold signal_aborted in *. rewrite Hs. auto.
  - intros j job0 [[_ Hj0]|[-> <-]]%lookup_snoc_Some; [by eapply inv_job_signal0|].
    by rewrite Hsig.
  - intros name0 j0 [[= -> ->]|Hin]%JsMap_set_In.
    + exists job. split; [|done]. by rewrite lookup_app_r, Nat.sub_diag.
    + destruct (inv_registry0 _ _ Hin) as (job0 & H0 & ?). exists job0. split; [|done].
      by apply lookup_app_l_Some.
  - intros i e Hi. destruct (inv_performed0 i e Hi) as (job0 & ? & ?).
    exists job0. rewrite (performed_ext w w') by done. split; [|done].
    by apply lookup_app_l_Some.
  - intros i e st id p Hi Hpc.
    destruct (inv_listener0 _ _ _ _ _ Hi Hpc) as (job0 & s & ? & ? & ?).
    exists job0, s. split; [|done]. by apply lookup_app_l_Some.
Qed.

Ltac same :=
  lazymatch goal with
  | |- consistent rt (set_startup_pc _ _ ?w0) =>
      apply (consistent_same w0); [|apply core_set_startup_pc]
  | |- consistent rt (set_schedule_pc _ _ ?w0) =>
      apply (consistent_same w0); [|apply core_set_schedule_pc]
  | |- consistent rt (set_load_pc _ _ ?w0) =>
      apply (consistent_same w0); [|apply core_set_load_pc]
  | |- consistent rt (set_startupCalls _ ?w0) =>
      apply (consistent_same w0); [|apply core_set_startupCalls]
  | |- consistent rt (set_scheduleCalls _ ?w0) =>
      apply (consistent_same w0); [|apply core_set_scheduleCalls]
  | |- consistent rt (set_loadCalls _ ?w0) =>
      apply (consistent_same w0); [|apply core_set_loadCalls]
  | |- consistent rt (set_mailbox _ ?w0) =>
      apply (consistent_same w0); [|apply core_set_mailbox]
  | |- consistent rt (set_statusDb _ ?w0) =>
      apply (consistent_same w0); [|apply core_set_statusDb]
  | |- consistent rt (set_scheduler _ ?w0) =>
      apply (consistent_same w0); [|apply core_set_scheduler]
  end.

Lemma validateName_ok name w : validateName name w = Returns tt -> name_ok name = true.
Proof.
  unfold validateName, name_ok.
  destruct ((String.length name =? 0)%nat || negb (Regex.test Regex.kebab name)); [done|].
  done.
Qed.

Lemma consistent_startup_loop t j x w :
  consistent rt w -> consistent rt (startup_loop rt t j x w).
Proof.
  intros Hc. unfold startup_loop. destruct (jobObjs w !! j) as [job|]; [|done].
  destruct (signal_aborted w (job_abortSignal job)).
  - same. by apply consistent_emit.
  - same. by apply consistent_executeJob.
Qed.

Lemma consistent_startup name command options x w :
  consistent rt w -> consistent rt (startup rt name command options x w).
Proof.
  intros Hc. unfold startup. cbv zeta.
  set (w1 := emit _ _ w).
  assert (Hc1 : consistent rt w1) by (by apply consistent_emit).
  destruct (validateName name w1) as [[]|e] eqn:Hv.
  - apply consistent_startup_loop.
    eapply (consistent_register w1 _ name); [done| | | |reflexivity..]; try done.
    by eapply validateName_ok.
  - same. by apply consistent_emit.
Qed.

Lemma consistent_startup_resume t x w w' :
  consistent rt w -> startup_resume rt t x w = Some w' -> consistent rt w'.
Proof.
  intros Hc. unfold startup_resume.
  destruct (startupCalls w !! t) as [c|]; [|done]. simpl.
  destruct (su_pc c); try done.
  - destruct (executions w !! i) as [e|]; [|done]. simpl.
    destruct (finished e); [|done].
    destruct (negb (keepAlive (su_options c))); intros [= <-]; same;
      by apply consistent_emit.
  - intros [= <-]. by apply consistent_startup_loop.
Qed.

Lemma consistent_catch_up s c run x w :
  consistent rt w -> consistent rt (catch_up rt s c run x w).
Proof.
  intros Hc. unfold catch_up. destruct (run <? cu_makeUpRuns c).
  - same. by apply consistent_executeJob.
  - same. by apply consistent_emit.
Qed.

Lemma consistent_schedule name expr command options w :
  consistent rt w -> consistent rt (schedule rt name expr command options w).
Proof.
  intros Hc. unfold schedule. cbv zeta.
  set (w1 := emit _ _ w).
  assert (Hc1 : consistent rt w1) by (by apply consistent_emit).
  destruct (validateName name w1) as [[]|e] eqn:Hv.
  - destruct (parseCronExpression rt expr) as [cron|].
    + same.
      eapply (consistent_register (snd (registerTask cron (length (jobObjs w1)) name options w1))
                _ name); [| | | |reflexivity..]; try done.
      * unfold registerTask. simpl snd. by same.
      * by eapply validateName_ok.
    + same. by apply consistent_emit.
  - same. by apply consistent_emit.
Qed.

Lemma consistent_schedule_resume s x w w' :
  consistent rt w -> schedule_resume rt s x w = Some w' -> consistent rt w'.
Proof.
  intros Hc. unfold schedule_resume.
  destruct (scheduleCalls w !! s) as [c|]; [|done]. simpl.
  destruct (sc_pc c); try done.
  - match goal with |- context [if ?b then _ else _] => destruct b end; intros [= <-].
    + same. by apply consistent_emit.
    + by apply consistent_catch_up.
  - intros [= <-]. by apply consistent_catch_up.
  - destruct (executions w !! i) as [e|]; [|done]. simpl.
    destruct (finished e); [|done]. intros [= <-]. by apply consistent_catch_up.
Qed.

Lemma consistent_callback id x w w' :
  consistent rt w -> callback rt id x w = Some w' -> consistent rt w'.
Proof.
  intros Hc. unfold callback.
  destruct (List.find _ _) as [task|]; [|done]. simpl.
  destruct (jobObjs w !! task_job task) as [job|]; [|done]. simpl.
  match goal with |- context [if ?b then _ else _] => destruct b end; intros [= <-].
  - by apply consistent_emit.
  - by apply consistent_executeJob.
Qed.

Lemma consistent_load path w : consistent rt w -> consistent rt (load path w).
Proof.
  intros Hc. unfold load. cbv zeta. same. apply consistent_emit; [|done..].
  apply consistent_reset. by apply consistent_emit.
Qed.

Lemma consistent_start_all x entries w :
  consistent rt w -> consistent rt (start_all rt x entries w).
Proof.
  unfold start_all. revert w. induction entries as [|e entries IH]; intros w Hc; simpl; [done|].
  apply IH. by apply consistent_startup.
Qed.

Lemma consistent_schedule_all entries w :
  consistent rt w -> consistent rt (schedule_all rt entries w).
Proof.
  unfold schedule_all. revert w. induction entries as [|e entries IH]; intros w Hc; simpl; [done|].
  apply IH. by apply consistent_schedule.
Qed.

Lemma consistent_load_resume l file x w w' :
  consistent rt w -> load_resume rt l file x w = Some w' -> consistent rt w'.
Proof.
  intros Hc. unfold load_resume.
  destruct (loadCalls w !! l) as [c|]; [|done]. simpl.
  destruct (ld_pc c); try done.
  destruct file as [text|e].
  - destruct (parseToml rt text) as [doc|].
    + destruct (Schema.parse doc) as [cf|e]; intros [= <-].
      * same. apply consistent_emit; [|done..].
        by apply consistent_schedule_all, consistent_start_all.
      * same. by apply consistent_emit.
    + intros [= <-]. same. by apply consistent_emit.
  - intros [= <-]. same. by apply consistent_emit.
Qed.

Lemma consistent_httpHandler req h w :
  consistent rt w -> consistent rt (snd (httpHandler rt req h w)).
Proof.
  intros Hc. unfold httpHandler, jobHandler, mailboxHandler.
  repeat case_match; simpl; try done;
    try (by apply consistent_emit); try (same; done).
Qed.

Theorem consistent_step l w w' : consistent rt w -> step rt l w = Some w' -> consistent rt w'.
Proof.
  intros Hc. destruct l; simpl.
  - intros [= <-]. by apply consistent_startup.
  - intros [= <-]. by apply consistent_schedule.
  - intros [= <-]. by apply consistent_reset.
  - intros [= <-]. by apply consistent_load.
  - by apply consistent_callback.
  - by apply consistent_resume.
  - by apply consistent_schedule_resume.
  - by apply consistent_startup_resume.
  - by apply consistent_load_resume.
  - intros [= <-]. by apply consistent_httpHandler.
Qed.

Lemma consistent_run ls w w' : consistent rt w -> run rt ls w = Some w' -> consistent rt w'.
Proof.
  revert w. induction ls as [|l ls IH]; intros w Hc; simpl.
  - by intros [= <-].
  - destruct (step rt l w) as [w1|] eqn:Hstep; [|done]. simpl.
    apply IH. by eapply consistent_step.
Qed.

Lemma consistent_new port' dir db mb : consistent rt (new_ChronService port' dir db mb).
Proof.
  split; simpl; try done.
  - lia.
  - intros [|k]; simpl; [done|lia].
Qed.
(** *** What a step leaves alone *)

Lemma static_eq_trans a b c : static_eq a b -> static_eq b c -> static_eq a c.
Proof. intros (? & ? & ? & ?) (? & ? & ? & ?). repeat split; congruence. Qed.

Lemma extends_refl A w : extends A w w.
Proof.
  split; try done.
  - exists []. by rewrite app_nil_r.
  - intros j job ?. exists job. split; [done|apply static_eq_refl].
  - intros i e ?. exists e. done.
  - intros i e job H1 H2. congruence.
Qed.

Lemma extends_trans A w1 w2 w3 : extends A w1 w2 -> extends A w2 w3 -> extends A w1 w3.
Proof.
  intros H12 H23. split.
  - rewrite (ext_port _ _ _ H23). apply (ext_port _ _ _ H12).
  - rewrite (ext_logDir _ _ _ H23). apply (ext_logDir _ _ _ H12).
  - intros a Ha. by apply (ext_existing _ _ _ H23), (ext_existing _ _ _ H12).
  - destruct (ext_trace _ _ _ H12) as (ev1 & Ht1 & Hs1).
    destruct (ext_trace _ _ _ H23) as (ev2 & Ht2 & Hs2).
    exists (ev1 ++ ev2). split; [by rewrite Ht2, Ht1, <- app_assoc|].
    intros a Ha HA. rewrite by_actor_app, Hs1, Hs2; try done.
    by apply (ext_existing _ _ _ H12).
  - intros j job Hj. destruct (ext_jobObjs _ _ _ H12 _ _ Hj) as (job2 & H2 & Hs2).
    destruct (ext_jobObjs _ _ _ H23 _ _ H2) as (job3 & H3 & Hs3).
    exists job3. split; [done|]. by eapply static_eq_trans.
  - intros k Hk. by apply (ext_aborted _ _ _ H23), (ext_aborted _ _ _ H12).
  - intros i e Hi. destruct (ext_executions _ _ _ H12 _ _ Hi) as (e2 & H2 & Hj2 & Hsame2).
    destruct (ext_executions _ _ _ H23 _ _ H2) as (e3 & H3 & Hj3 & Hsame3).
    exists e3. split; [done|]. split; [congruence|].
    intros Hcond. rewrite <- (Hsame2 Hcond). apply Hsame3.
    rewrite (Hsame2 Hcond). done.
  - intros i e job Hnone H3 Hjob Hab.
    destruct (executions w2 !! i) as [e2|] eqn:H2.
    + destruct (ext_executions _ _ _ H23 _ _ H2) as (e3 & H3' & Hj3 & Hsame3).
      assert (e3 = e) by congruence. subst e3.
      assert (Hpc2 : exec_pc e2 = Aborted).
      { rewrite Hj3 in Hjob. by apply (ext_new _ _ _ H12 i e2 job). }
      rewrite Hsame3; [done|]. left. unfold finished. by rewrite Hpc2.
    + destruct (ext_jobObjs _ _ _ H12 _ _ Hjob) as (job2 & Hjob2 & (_ & _ & _ & Hs2)).
      apply (ext_new _ _ _ H23 i e job2); try done.
      rewrite Hs2. by apply (ext_aborted _ _ _ H12).
  - intros s c Hs HA. apply (ext_scheduleCalls _ _ _ H23); [|done].
    by apply (ext_scheduleCalls _ _ _ H12).
Qed.

Lemma extends_mono (A B : Actor -> Prop) w w' :
  (forall a, A a -> B a) -> extends A w w' -> extends B w w'.
Proof.
  intros HAB []. split; try done.
  - destruct ext_trace0 as (evs & Ht & Hs). exists evs. split; [done|].
    intros a Ha HB. apply Hs; [done|]. intros HA. by apply HB, HAB.
  - intros i e Hi. destruct (ext_executions0 _ _ Hi) as (e' & ? & ? & Hsame).
    exists e'. split; [done|]. split; [done|]. intros [Hf|HB]; apply Hsame; [by left|].
    right. intros HA. by apply HB, HAB.
  - intros s c Hs HB. apply ext_scheduleCalls0; [done|]. intros HA. by apply HB, HAB.
Qed.

Lemma extends_same A w w' : ext_eq w' w -> extends A w w'.
Proof.
  intros (Hl & Hp & Ho & Hs & He & Ht & Hc & Hu & Hd).
  split; rewrite ?Ho, ?He, ?Hc; try done.
  - intros []; simpl; rewrite ?He, ?Hc; try done; lia.
  - exists []. by rewrite app_nil_r.
  - intros j job ?. exists job. split; [done|apply static_eq_refl].
  - intros k. unfold signal_aborted. by rewrite Hs.
  - intros i e ?. exists e. done.
  - intros i e job H1 H2. congruence.
Qed.

Lemma ext_set_statusDb v w : ext_eq (set_statusDb v w) w.
Proof. by repeat split. Qed.
Lemma ext_set_scheduler v w : ext_eq (set_scheduler v w) w.
Proof. by repeat split. Qed.
Lemma ext_set_mailbox v w : ext_eq (set_mailbox v w) w.
Proof. by repeat split. Qed.
Lemma ext_set_jobs v w : ext_eq (set_jobs v w) w.
Proof. by repeat split. Qed.
Lemma ext_set_startup_pc t pc w : ext_eq (set_startup_pc t pc w) w.
Proof. repeat split; try done. simpl. by rewrite length_alter. Qed.
Lemma ext_set_load_pc l pc w : ext_eq (set_load_pc l pc w) w.
Proof. repeat split; try done. simpl. by rewrite length_alter. Qed.
Lemma ext_new_startup c w : ext_eq (set_startupCalls (startupCalls w ++ [c]) w) w.
Proof. repeat split; try done. simpl. rewrite length_app. lia. Qed.
Lemma ext_new_load c w : ext_eq (set_loadCalls (loadCalls w ++ [c]) w) w.
Proof. repeat split; try done. simpl. rewrite length_app. lia. Qed.

Lemma extends_emit A a act w :
  (existing w a -> A a) -> extends A w (emit a act w).
Proof.
  intros Ha. split; simpl; try done.
  - exists [(a, act)]. split; [done|]. intros b Hb HA. rewrite by_actor_one.
    destruct (actor_eqb a b) eqn:Hab; [|done].
    apply actor_eqb_eq in Hab. subst b. exfalso. by apply HA, Ha.
  - intros j job ?. exists job. split; [done|apply static_eq_refl].
  - intros i e ?. exists e. done.
  - intros i e job H1 H2. congruence.
Qed.

Lemma extends_new_schedule A c w :
  extends A w (set_scheduleCalls (scheduleCalls w ++ [c]) w).
Proof.
  split; simpl; try done.
  - intros []; simpl; try done. rewrite length_app. lia.
  - exists []. by rewrite app_nil_r.
  - intros j job ?. exists job. split; [done|apply static_eq_refl].
  - intros i e ?. exists e. done.
  - intros i e job H1 H2. congruence.
  - intros s c0 Hs _. by apply lookup_app_l_Some.
Qed.

Lemma extends_set_schedule_pc (A : Actor -> Prop) s pc w :
  A (ASchedule s) -> extends A w (set_schedule_pc s pc w).
Proof.
  intros HA. split; simpl; try done.
  - intros []; simpl; try done. by rewrite length_alter.
  - exists []. by rewrite app_nil_r.
  - intros j job ?. exists job. split; [done|apply static_eq_refl].
  - intros i e ?. exists e. done.
  - intros i e job H1 H2. congruence.
  - intros s0 c Hs Hn. rewrite list_lookup_alter_ne; [done|]. by intros ->.
Qed.

Lemma extends_new_job A job w :
  extends A w (set_jobObjs (jobObjs w ++ [job]) w).
Proof.
  split; simpl; try done.
  - exists []. by rewrite app_nil_r.
  - intros j job0 ?. exists job0. split; [by apply lookup_app_l_Some|apply static_eq_refl].
  - intros i e ?. exists e. done.
  - intros i e job0 H1 H2. congruence.
Qed.

Lemma extends_fresh (A : Actor -> Prop) w w' :
  extends (fun b => A b \/ ~ existing w b) w w' -> extends A w w'.
Proof.
  intros []. split; try done.
  - destruct ext_trace0 as (evs & Ht & Hs). exists evs. split; [done|].
    intros a Ha HA. apply Hs; [done|]. intros [?|?]; tauto.
  - intros i e Hi. destruct (ext_executions0 _ _ Hi) as (e' & ? & ? & Hsame).
    exists e'. split; [done|]. split; [done|]. intros [Hf|HA]; apply Hsame; [by left|].
    right. intros [?|Hn]; [tauto|]. apply Hn. simpl. by eapply lookup_lt_Some.
  - intros s c Hs HA. apply ext_scheduleCalls0; [done|].
    intros [?|Hn]; [tauto|]. apply Hn. simpl. by eapply lookup_lt_Some.
Qed.

Lemma extends_enter A w j st msg :
  (forall job, jobObjs w !! j = Some job -> signal_aborted w (job_abortSignal job) = false) ->
  extends A w
    (emit (AExecute (length (executions w))) (ActStderr msg)
       (set_executions (executions w ++ [mkExecution j (AwaitLog st)]) w)).
Proof.
  intros Hab. split; simpl; try done.
  - intros []; simpl; try done. rewrite length_app. lia.
  - eexists. split; [done|]. intros a Ha _. rewrite by_actor_one.
    destruct a; simpl in *; try done.
    replace (length (executions w) =? i)%nat with false; [done|].
    symmetry. apply Nat.eqb_neq. lia.
  - intros j0 job ?. exists job. split; [done|apply static_eq_refl].
  - intros i e ?. exists e. split; [by apply lookup_app_l_Some|done].
  - intros i e job Hnone [[Hlt ?]|[-> <-]]%lookup_snoc_Some; [congruence|].
    simpl. intros Hjob Htrue. by rewrite (Hab _ Hjob) in Htrue.
Qed.

Lemma extends_enter_aborted A w j :
  extends A w (set_executions (executions w ++ [mkExecution j Aborted]) w).
Proof.
  split; simpl; try done.
  - intros []; simpl; try done. rewrite length_app. lia.
  - exists []. by rewrite app_nil_r.
  - intros j0 job ?. exists job. split; [done|apply static_eq_refl].
  - intros i e ?. exists e. split; [by apply lookup_app_l_Some|done].
  - intros i e job Hnone [[Hlt ?]|[-> <-]]%lookup_snoc_Some; [congruence|done].
Qed.

Lemma extends_executeJob (A : Actor -> Prop) caller j x w :
  (existing w caller -> A caller) -> extends A w (executeJob rt caller j x w).
Proof.
  intros Hcaller. unfold executeJob.
  destruct (jobObjs w !! j) as [job|] eqn:Hjob; [|apply extends_refl].
  set (w1 := emit caller (ActExecuteJob (length (executions w)) j) w).
  assert (H1 : extends A w w1) by (by apply extends_emit).
  destruct (signal_aborted w1 (job_abortSignal job)) eqn:Hab.
  - eapply extends_trans; [exact H1|]. apply extends_enter_aborted.
  - eapply extends_trans; [exact H1|].
    apply (extends_enter A w1 j (now x)).
    intros job' Hjob'. assert (job' = job) by (simpl in Hjob'; congruence). by subst.
Qed.

Lemma extends_advance (A : Actor -> Prop) w w' i e pc' acts
    (f : Job -> Job) (g : AbortSignal -> AbortSignal) k :
  executions w !! i = Some e -> finished e = false -> A (AExecute i) ->
  logDir w' = logDir w -> port w' = port w ->
  jobObjs w' = alter f (exec_job e) (jobObjs w) ->
  (forall job, static_eq (f job) job) ->
  signals w' = alter g k (signals w) ->
  (forall s, aborted (g s) = aborted s) ->
  executions w' = alter (at_pc pc') i (executions w) ->
  trace w' = trace w ++ map (pair (AExecute i)) acts ->
  scheduleCalls w' = scheduleCalls w ->
  startupCalls w' = startupCalls w ->
  loadCalls w' = loadCalls w ->
  extends A w w'.
Proof.
  intros Hi Hfin HA Hl Hp Ho Hf Hs Hg He Ht Hc Hu Hd.
  split; try done.
  - intros []; simpl; rewrite ?He, ?Hc, ?Hu, ?Hd, ?length_alter; done.
  - eexists. split; [exact Ht|]. intros a Ha Hn. rewrite by_actor_map.
    destruct (actor_eqb (AExecute i) a) eqn:Heq; [|done].
    apply actor_eqb_eq in Heq. by subst a.
  - intros j job Hj. rewrite Ho. by apply lookup_alter_static'.
  - intros k0. unfold signal_aborted. rewrite Hs.
    destruct (decide (k = k0)) as [->|Hne].
    + rewrite list_lookup_alter_eq. destruct (signals w !! k0); simpl; [by rewrite Hg|done].
    + by rewrite list_lookup_alter_ne.
  - intros i0 e0 Hi0. rewrite He.
    destruct (decide (i = i0)) as [<-|Hne].
    + assert (e0 = e) by congruence. subst e0.
      rewrite list_lookup_alter_eq, Hi. simpl. eexists. split; [done|]. split; [done|].
      intros [Hf'|Hn]; [congruence|tauto].
    + rewrite list_lookup_alter_ne by done. exists e0. done.
  - intros i0 e0 job Hnone. rewrite He.
    rewrite list_lookup_alter_ne by (intros ->; congruence). congruence.
  - intros s c Hsc _. by rewrite Hc.
Qed.

Lemma extends_resume (A : Actor -> Prop) i x w w' :
  A (AExecute i) -> executeJob_resume rt i x w = Some w' -> extends A w w'.
Proof.
  intros HA Hstep. unfold executeJob_resume in Hstep.
  destruct (executions w !! i) as [e|] eqn:Hi; [|done]. simpl in Hstep.
  destruct (jobObjs w !! exec_job e) as [job|] eqn:Hjob; [|done]. simpl in Hstep.
  assert (Hfin : exec_pc e <> Aborted ->
                 (forall a b c d, exec_pc e <> Done a b c d) -> finished e = false).
  { unfold finished. destruct (exec_pc e); try done.
    all: try (intros _ H; by destruct (H startTime id p code)). }
  destruct (exec_pc e) eqn:Hpc; try discriminate; injection Hstep as <-.
  - eapply (extends_advance A w _ i e _ [_] (fun x => x) (fun x => x) 0%nat);
      try done; simpl; rewrite ?alter_id_eq; try done. by apply Hfin.
  - eapply (extends_advance A w _ i e _ [_] (fun x => x) (fun x => x) 0%nat);
      try done; simpl; rewrite ?alter_id_eq; try done. by apply Hfin.
  - eapply (extends_advance A w _ i e _ [_] (fun x => x) (fun x => x) 0%nat);
      try done; simpl; rewrite ?alter_id_eq; try done. by apply Hfin.
  - eapply (extends_advance A w _ i e _ [_] (fun x => x) (fun x => x) 0%nat);
      try done; simpl; rewrite ?alter_id_eq; try done. by apply Hfin.
  - eapply (extends_advance A w _ i e _ [_; _; _] (with_process (Some (child x)))
              (add_listener i (child x)) (job_abortSignal job));
      try done; simpl; try done.
    + by apply Hfin.
    + by rewrite <- !app_assoc.
  - eapply (extends_advance A w _ i e _ [_; _; _; _] (with_process None)
              (remove_listener i) (job_abortSignal job));
      try done; simpl; try done.
    + by apply Hfin.
    + by rewrite <- !app_assoc.
  - destruct (negb (code =? 0)) eqn:Hcode.
    + eapply (extends_advance A w _ i e _ [_; _] (fun x => x) (fun x => x) 0%nat);
        try done; simpl; rewrite ?alter_id_eq; try done.
      * by apply Hfin.
      * by rewrite <- !app_assoc.
    + eapply (extends_advance A w _ i e _ [_] (fun x => x) (fun x => x) 0%nat);
        try done; simpl; rewrite ?alter_id_eq; try done. by apply Hfin.
  - eapply (extends_advance A w _ i e _ [_] (fun x => x) (fun x => x) 0%nat);
      try done; simpl; rewrite ?alter_id_eq; try done. by apply Hfin.
Qed.

Ltac peel :=
  lazymatch goal with
  | |- extends _ _ (set_startup_pc _ _ _) =>
      eapply extends_trans; [|apply extends_same, ext_set_startup_pc]
  | |- extends _ _ (set_load_pc _ _ _) =>
      eapply extends_trans; [|apply extends_same, ext_set_load_pc]
  | |- extends _ _ (set_startupCalls (_ ++ [_]) _) =>
      eapply extends_trans; [|apply extends_same, ext_new_startup]
  | |- extends _ _ (set_loadCalls (_ ++ [_]) _) =>
      eapply extends_trans; [|apply extends_same, ext_new_load]
  | |- extends _ _ (set_scheduleCalls (_ ++ [_]) _) =>
      eapply extends_trans; [|apply extends_new_schedule]
  | |- extends _ _ (set_mailbox _ _) =>
      eapply extends_trans; [|apply extends_same, ext_set_mailbox]
  | |- extends _ _ (set_statusDb _ _) =>
      eapply extends_trans; [|apply extends_same, ext_set_statusDb]
  | |- extends _ _ (set_scheduler _ _) =>
      eapply extends_trans; [|apply extends_same, ext_set_scheduler]
  | |- extends _ _ (set_jobs _ _) =>
      eapply extends_trans; [|apply extends_same, ext_set_jobs]
  | |- extends _ _ (set_jobObjs (_ ++ [_]) _) =>
      eapply extends_trans; [|apply extends_new_job]
  end.

Lemma existing_by_actor_service w a tr :
  existing w a ->
  (forall b act, In (b, act) tr -> b = AService \/ (exists i, b = AListener i) \/ b = AServer) ->
  by_actor a tr = [].
Proof.
  intros Ha Htr. apply by_actor_nil. intros act Hin.
  destruct (Htr _ _ Hin) as [->|[[i ->]| ->]]; exact Ha.
Qed.

Lemma extends_reset A w : consistent rt w -> extends A w (reset w).
Proof.
  intros Hc.
  pose proof (inv_controller _ _ Hc) as Hlt.
  pose proof (inv_current _ _ Hc) as Hcur.
  apply lookup_lt_is_Some_2 in Hlt as [s Hs].
  unfold signal_aborted in Hcur. rewrite Hs in Hcur.
  destruct (reset_fields w s Hs Hcur)
    as (Hl & Hp & Hj & Ha & Hsig & Ho & He & Hsc & Hsu & Hld & _ & _ & Ht).
  split; rewrite ?Ho, ?He, ?Hsc; try done.
  - intros []; unfold existing; rewrite ?He, ?Hsc, ?Hsu, ?Hld; done.
  - eexists. split; [exact Ht|]. intros a Hex _.
    apply (existing_by_actor_service w a); [done|].
    intros b act [[= <- <-]|Hin]; [by left|]. right. left.
    unfold kills in Hin. apply in_map_iff in Hin as (l & [= <- <-] & _). eauto.
  - intros j job ?. exists job. split; [done|apply static_eq_refl].
  - intros k. unfold signal_aborted. rewrite Hsig.
    destruct (signals w !! k) as [s0|] eqn:Hk; [|done]. intros Hab.
    rewrite lookup_app_l by (rewrite length_insert; by eapply lookup_lt_Some).
    destruct (decide (abortController w = k)) as [<-|Hne].
    + rewrite list_lookup_insert_eq by (by eapply lookup_lt_Some). done.
    + rewrite list_lookup_insert_ne by done. by rewrite Hk.
  - intros i e ?. exists e. done.
  - intros i e job H1 H2. congruence.
Qed.

Lemma extends_startup_loop (A : Actor -> Prop) t j x w :
  A (AStartup t) -> extends A w (startup_loop rt t j x w).
Proof.
  intros HA. unfold startup_loop. destruct (jobObjs w !! j) as [job|]; [|apply extends_refl].
  destruct (signal_aborted w (job_abortSignal job)).
  - peel. by apply extends_emit.
  - peel. by apply extends_executeJob.
Qed.

Lemma extends_startup A name command options x w :
  extends A w (startup rt name command options x w).
Proof.
  apply extends_fresh. unfold startup. cbv zeta.
  assert (Hnew : A (AStartup (length (startupCalls w)))
                 \/ ~ existing w (AStartup (length (startupCalls w)))).
  { right. simpl. lia. }
  set (w1 := emit _ _ w).
  assert (H1 : extends (fun b => A b \/ ~ existing w b) w w1) by (by apply extends_emit).
  destruct (validateName name w1) as [[]|e].
  - eapply extends_trans; [|by apply extends_startup_loop].
    peel. peel. peel. exact H1.
  - peel. eapply extends_trans; [exact H1|]. by apply extends_emit.
Qed.

Lemma extends_startup_resume (A : Actor -> Prop) t x w w' :
  A (AStartup t) -> startup_resume rt t x w = Some w' -> extends A w w'.
Proof.
  intros HA. unfold startup_resume.
  destruct (startupCalls w !! t) as [c|]; [|done]. simpl.
  destruct (su_pc c); try done.
  - destruct (executions w !! i) as [e|]; [|done]. simpl.
    destruct (finished e); [|done].
    destruct (negb (keepAlive (su_options c))); intros [= <-]; peel;
      by apply extends_emit.
  - intros [= <-]. by apply extends_startup_loop.
Qed.

Lemma extends_catch_up (A : Actor -> Prop) s c run x w :
  A (ASchedule s) -> extends A w (catch_up rt s c run x w).
Proof.
  intros HA. unfold catch_up. destruct (run <? cu_makeUpRuns c).
  - eapply extends_trans; [|by apply extends_set_schedule_pc]. by apply extends_executeJob.
  - eapply extends_trans; [|by apply extends_set_schedule_pc]. by apply extends_emit.
Qed.

Lemma extends_schedule A name expr command options w :
  extends A w (schedule rt name expr command options w).
Proof.
  apply extends_fresh. unfold schedule. cbv zeta.
  assert (Hnew : A (ASchedule (length (scheduleCalls w)))
                 \/ ~ existing w (ASchedule (length (scheduleCalls w)))).
  { right. simpl. lia. }
  set (w1 := emit _ _ w).
  assert (H1 : extends (fun b => A b \/ ~ existing w b) w w1) by (by apply extends_emit).
  destruct (validateName name w1) as [[]|e].
  - destruct (parseCronExpression rt expr) as [cron|].
    + peel. peel. peel. unfold registerTask. simpl snd. peel. exact H1.
    + peel. eapply extends_trans; [exact H1|]. by apply extends_emit.
  - peel. eapply extends_trans; [exact H1|]. by apply extends_emit.
Qed.

Lemma extends_schedule_resume (A : Actor -> Prop) s x w w' :
  A (ASchedule s) -> schedule_resume rt s x w = Some w' -> extends A w w'.
Proof.
  intros HA. unfold schedule_resume.
  destruct (scheduleCalls w !! s) as [c|]; [|done]. simpl.
  destruct (sc_pc c); try done.
  - match goal with |- context [if ?b then _ else _] => destruct b end; intros [= <-].
    + eapply extends_trans; [|by apply extends_set_schedule_pc]. by apply extends_emit.
    + by apply extends_catch_up.
  - intros [= <-]. by apply extends_catch_up.
  - destruct (executions w !! i) as [e|]; [|done]. simpl.
    destruct (finished e); [|done]. intros [= <-]. by apply extends_catch_up.
Qed.

Lemma extends_callback A id x w w' :
  callback rt id x w = Some w' -> extends A w w'.
Proof.
  unfold callback.
  destruct (List.find _ _) as [task|]; [|done]. simpl.
  destruct (jobObjs w !! task_job task) as [job|]; [|done]. simpl.
  match goal with |- context [if ?b then _ else _] => destruct b end; intros [= <-].
  - by apply extends_emit.
  - by apply extends_executeJob.
Qed.

Lemma extends_load A path w : consistent rt w -> extends A w (load path w).
Proof.
  intros Hc. apply extends_fresh. unfold load. cbv zeta.
  assert (Hnew : A (ALoad (length (loadCalls w)))
                 \/ ~ existing w (ALoad (length (loadCalls w)))).
  { right. simpl. lia. }
  peel. eapply extends_trans; [|by apply extends_emit].
  eapply extends_trans; [|apply extends_reset; by apply consistent_emit].
  by apply extends_emit.
Qed.

Lemma extends_start_all A x entries w : extends A w (start_all rt x entries w).
Proof.
  unfold start_all. revert w. induction entries as [|e entries IH]; intros w; simpl.
  - apply extends_refl.
  - eapply extends_trans; [|apply IH]. apply extends_startup.
Qed.

Lemma extends_schedule_all A entries w : extends A w (schedule_all rt entries w).
Proof.
  unfold schedule_all. revert w. induction entries as [|e entries IH]; intros w; simpl.
  - apply extends_refl.
  - eapply extends_trans; [|apply IH]. apply extends_schedule.
Qed.

Lemma extends_load_resume (A : Actor -> Prop) l file x w w' :
  A (ALoad l) -> load_resume rt l file x w = Some w' -> extends A w w'.
Proof.
  intros HA. unfold load_resume.
  destruct (loadCalls w !! l) as [c|]; [|done]. simpl.
  destruct (ld_pc c); try done.
  destruct file as [text|e].
  - destruct (parseToml rt text) as [doc|].
    + destruct (Schema.parse doc) as [cf|e]; intros [= <-].
      * peel. eapply extends_trans; [|by apply extends_emit].
        eapply extends_trans; [|apply extends_schedule_all]. apply extends_start_all.
      * peel. by apply extends_emit.
    + intros [= <-]. peel. by apply extends_emit.
  - intros [= <-]. peel. by apply extends_emit.
Qed.

Lemma extends_httpHandler A req h w : extends A w (snd (httpHandler rt req h w)).
Proof.
  unfold httpHandler, jobHandler, mailboxHandler.
  repeat case_match; simpl; try apply extends_refl;
    try (by apply extends_emit); try (apply extends_same, ext_set_mailbox).
Qed.

Theorem step_extends l w w' :
  consistent rt w -> step rt l w = Some w' -> extends (resumed l) w w'.
Proof.
  intros Hc. destruct l; simpl.
  - intros [= <-]. apply extends_startup.
  - intros [= <-]. apply extends_schedule.
  - intros [= <-]. by apply extends_reset.
  - intros [= <-]. by apply extends_load.
  - apply extends_callback.
  - by apply extends_resume.
  - by apply extends_schedule_resume.
  - by apply extends_startup_resume.
  - by apply extends_load_resume.
  - intros [= <-]. apply extends_httpHandler.
Qed.

Lemma run_extends ls w w' :
  consistent rt w -> run rt ls w = Some w' -> extends (fun _ => True) w w'.
Proof.
  revert w. induction ls as [|l ls IH]; intros w Hc; simpl.
  - intros [= <-]. apply extends_refl.
  - destruct (step rt l w) as [w1|] eqn:Hstep; [|done]. simpl. intros Hrun.
    eapply extends_trans.
    + eapply extends_mono; [|by eapply step_extends]. done.
    + apply IH; [|done]. by eapply consistent_step.
Qed.

End Invariants.

(** ** The job-name pattern *)

Lemma append_empty (s1 s2 : string) : s1 +:+ s2 = "" -> s1 = "" /\ s2 = "".
Proof. destruct s1; simpl; [done|discriminate]. Qed.

Lemma lang_empty_nullable r s : Regex.lang r s -> s = "" -> Regex.nullable r = true.
Proof.
  induction 1 as [|p c Hp|r1 r2 s1 s2 _ IH1 _ IH2|r1 r2 s _ IH|r1 r2 s _ IH|r|r s1 s2 _ _ _ _];
    intros Hs; simpl; try done.
  - apply append_empty in Hs as [-> ->]. by rewrite IH1, IH2.
  - by rewrite IH.
  - rewrite IH by done. apply orb_true_r.
Qed.

Lemma nullable_lang r : Regex.nullable r = true <-> Regex.lang r "".
Proof.
  split; [|intros H; by eapply lang_empty_nullable].
  induction r as [| |p|r1 IH1 r2 IH2|r1 IH1 r2 IH2|r IH]; simpl; try done.
  - intros _. constructor.
  - intros [H1 H2]%andb_true_iff. apply (Regex.LCat r1 r2 "" ""); auto.
  - intros [H|H]%orb_true_iff; [apply Regex.LAltL|apply Regex.LAltR]; auto.
  - intros _. constructor.
Qed.

Lemma deriv_sound c r : forall s, Regex.lang (Regex.deriv c r) s -> Regex.lang r (String c s).
Proof.
  induction r as [| |p|r1 IH1 r2 IH2|r1 IH1 r2 IH2|r IH]; simpl; intros s H.
  - inversion H.
  - inversion H.
  - destruct (p c) eqn:Hp; inversion H; subst. by constructor.
  - assert (Hcat : forall s', Regex.lang (Regex.Cat (Regex.deriv c r1) r2) s' ->
                     Regex.lang (Regex.Cat r1 r2) (String c s')).
    { intros s' H'. inversion H' as [| |? ? s1 s2 H1 H2| | | |]; subst.
      apply (Regex.LCat r1 r2 (String c s1) s2); auto. }
    destruct (Regex.nullable r1) eqn:Hnull; [|by apply Hcat].
    inversion H; subst; [by apply Hcat|].
    apply (Regex.LCat r1 r2 "" (String c s)); [by apply nullable_lang|auto].
  - inversion H; subst; [apply Regex.LAltL|apply Regex.LAltR]; auto.
  - inversion H as [| |? ? s1 s2 H1 H2| | | |]; subst.
    apply (Regex.LStarS r (String c s1) s2); auto.
Qed.

Lemma deriv_complete c r s0 :
  Regex.lang r s0 -> forall s, s0 = String c s -> Regex.lang (Regex.deriv c r) s.
Proof.
  induction 1 as [|p c' Hp|r1 r2 s1 s2 H1 IH1 H2 IH2|r1 r2 s' _ IH|r1 r2 s' _ IH
                 |r|r s1 s2 H1 IH1 H2 IH2]; intros s Hs; simpl; try done.
  - injection Hs as -> <-. rewrite Hp. constructor.
  - destruct s1 as [|c1 s1]; simpl in Hs.
    + assert (Hnull : Regex.nullable r1 = true) by (by apply nullable_lang).
      rewrite Hnull. apply Regex.LAltR. by apply IH2.
    + injection Hs as -> <-.
      assert (Hcat : Regex.lang (Regex.Cat (Regex.deriv c r1) r2) (s1 +:+ s2)).
      { constructor; [by apply IH1|done]. }
      destruct (Regex.nullable r1); [by apply Regex.LAltL|done].
  - apply Regex.LAltL. by apply IH.
  - apply Regex.LAltR. by apply IH.
  - destruct s1 as [|c1 s1]; simpl in Hs.
    + by apply IH2.
    + injection Hs as -> <-. constructor; [by apply IH1|done].
Qed.

Lemma test_lang r s : Regex.test r s = true <-> Regex.lang r s.
Proof.
  revert r. induction s as [|c s IH]; intros r; simpl.
  - apply nullable_lang.
  - rewrite IH. split; [apply deriv_sound|]. intros H. by eapply deriv_complete.
Qed.

(** ** The claims *)

Lemma reachable_consistent rt w : reachable rt w -> consistent rt w.
Proof.
  intros (port' & dir & db & mb & ls & Hrun).
  eapply consistent_run; [|exact Hrun]. apply consistent_new.
Qed.

Lemma every_minute_next_occurrence : next_occurrence Sample.every_minute.
Proof.
  intros t. unfold Sample.every_minute. simpl. split_and!.
  - Z.div_mod_to_equations. lia.
  - apply Z.eqb_eq. rewrite Z.mul_comm. apply Z_mod_mult.
  - intros u Hu. apply Z.eqb_neq. intros Hmod.
    Z.div_mod_to_equations. lia.
Qed.

Lemma running_reachable : reachable Sample.rt Sample.running.
Proof.
  exists 8000, None, [], [], (Sample.entered ++ Sample.to_spawn).
  apply or_else_Some. vm_compute. reflexivity.
Qed.

Lemma failed_reachable : reachable Sample.rt Sample.failed.
Proof.
  exists 8000, None, [], [], (Sample.entered ++ Sample.one_run 0 Sample.x_fail).
  apply or_else_Some. vm_compute. reflexivity.
Qed.

(** *** Runs that were missed *)

Lemma filter_none {A} (f : A -> bool) (l : list A) :
  (forall a, In a l -> f a = false) -> List.filter f l = [].
Proof.
  induction l as [|a l IH]; simpl; [done|]. intros H.
  rewrite (H a) by (by left). apply IH. intros b Hb. apply H. by right.
Qed.

Section Occurrences.
Variable cron : Cron.
Hypothesis next : next_occurrence cron.

Lemma occurrences_none t now' :
  (forall u, t < u <= now' -> matchDate cron u = false) -> occurrences cron t now' = 0.
Proof.
  intros H. unfold occurrences. rewrite filter_none; [done|].
  intros u Hu%list_elem_of_In%elem_of_seqZ. apply H. lia.
Qed.

Lemma occurrences_split t u now' :
  t <= u <= now' -> occurrences cron t now' = occurrences cron t u + occurrences cron u now'.
Proof.
  intros H. unfold occurrences.
  replace (now' - t) with ((u - t) + (now' - u)) by lia.
  rewrite seqZ_app by lia. rewrite List.filter_app, length_app.
  replace (t + 1 + (u - t)) with (u + 1) by lia. lia.
Qed.

(** Between a date and the date [getNextDate] gives for it lies one
    occurrence, the latter. *)
Lemma occurrences_next t : occurrences cron t (getNextDate cron t) = 1.
Proof using next.
  destruct (next t) as (Hlt & Hm & Hnone).
  rewrite (occurrences_split t (getNextDate cron t - 1)) by lia.
  rewrite occurrences_none by (intros u ?; apply Hnone; lia).
  unfold occurrences.
  replace (getNextDate cron t - (getNextDate cron t - 1)) with 1 by lia.
  replace (getNextDate cron t - 1 + 1) with (getNextDate cron t) by lia.
  change (seqZ (getNextDate cron t) 1) with [getNextDate cron t]. simpl. by rewrite Hm.
Qed.

(** The loop of [schedule] counts the occurrences, when it is given a turn
    for every millisecond. *)
Lemma count_runs_occurrences fuel from now' :
  now' - from <= Z.of_nat fuel ->
  count_runs fuel cron from now' = occurrences cron from now'.
Proof using next.
  revert from. induction fuel as [|fuel IH]; intros from Hfuel.
  - simpl. unfold occurrences. by rewrite seqZ_nil by lia.
  - cbn [count_runs]. cbv zeta. destruct (next from) as (Hlt & Hm & Hnone).
    destruct (Z.ltb_spec now' (getNextDate cron from)) as [Hover|Hdue].
    + symmetry. apply occurrences_none. intros u ?. apply Hnone. lia.
    + rewrite IH by lia.
      rewrite (occurrences_split from (getNextDate cron from) now') by lia.
      by rewrite occurrences_next.
Qed.

Lemma missed_runs_occurrences t now' : missed_runs cron t now' = occurrences cron t now'.
Proof using next. unfold missed_runs. apply count_runs_occurrences. lia. Qed.

End Occurrences.

(** [getLastRuns] gives the most recent run first. *)
Lemma head_insert_run r sorted :
  head (insert_run r sorted)
  = match head sorted with
    | Some r' => if run_timestamp r' <=? run_timestamp r then Some r else Some r'
    | None => Some r
    end.
Proof. destruct sorted as [|r' rest]; simpl; [done|]. by destruct (_ <=? _). Qed.

Lemma head_sort_runs runs :
  match head (sort_runs runs) with
  | Some r => In r runs /\ forall r', In r' runs -> run_timestamp r' <= run_timestamp r
  | None => runs = []
  end.
Proof.
  induction runs as [|a runs IH]; simpl; [done|].
  rewrite head_insert_run. destruct (head (sort_runs runs)) as [r|].
  - destruct IH as [Hin Hmax]. destruct (Z.leb_spec (run_timestamp r) (run_timestamp a)).
    + split; [by left|]. intros r' [<-|Hr']; [lia|]. specialize (Hmax r' Hr'). lia.
    + split; [by right|]. intros r' [<-|Hr']; [lia|]. by apply Hmax.
  - subst runs. split; [by left|]. intros r' [<-|[]]. lia.
Qed.

Lemma getLastRuns_last_run name w :
  match head (getLastRuns name w) with
  | Some r => last_run name (statusDb w) (run_timestamp r)
  | None => never_run name (statusDb w)
  end.
Proof.
  unfold getLastRuns, Database.findMany.
  pose proof (head_sort_runs (List.filter (by_name name) (statusDb w))) as H.
  destruct (head _) as [r|].
  - destruct H as [Hin Hmax]. apply filter_In in Hin as [Hin Hname].
    apply String.eqb_eq in Hname. split; [by exists r|].
    intros r' Hr' Hn'. apply Hmax. apply filter_In. split; [done|]. by apply String.eqb_eq.
  - intros r Hr Hname. assert (Hin : In r (List.filter (by_name name) (statusDb w))).
    { apply filter_In. split; [done|]. by apply String.eqb_eq. }
    by rewrite H in Hin.
Qed.

Lemma announcement_message name M C :
  0 < C -> announcement name M C = [ActStderr (making_up_message C M name)].
Proof. intros H. unfold announcement. by destruct (Z.ltb_spec 0 C); [|lia]. Qed.

Lemma executeJob_call rt caller j x w job :
  jobObjs w !! j = Some job ->
  exists e evs,
    executions (executeJob rt caller j x w) = executions w ++ [e]
    /\ trace (executeJob rt caller j x w)
       = trace w ++ (caller, ActExecuteJob (length (executions w)) j) :: evs
    /\ (forall a, a <> AExecute (length (executions w)) -> by_actor a evs = [])
    /\ scheduleCalls (executeJob rt caller j x w) = scheduleCalls w
    /\ jobObjs (executeJob rt caller j x w) = jobObjs w.
Proof.
  intros Hjob. unfold executeJob. rewrite Hjob. cbv zeta.
  match goal with |- context [if ?b then _ else _] => destruct b end.
  - eexists _, []. split_and!; try done.
  - eexists _, [_]. split_and!; try done.
    + cbn [trace logStderr emit set_trace set_executions]. by rewrite <- app_assoc.
    + intros a Ha. rewrite by_actor_one.
      destruct (actor_eqb _ a) eqn:Heq; [|done]. by apply actor_eqb_eq in Heq.
Qed.

Lemma by_actor_cons_same a act tr : by_actor a ((a, act) :: tr) = act :: by_actor a tr.
Proof. unfold by_actor. simpl. by rewrite actor_eqb_refl. Qed.

Lemma lookup_set_schedule_pc s pc w c :
  scheduleCalls w !! s = Some c ->
  scheduleCalls (set_schedule_pc s pc w) !! s
  = Some (mkScheduleCall (sc_name c) (sc_schedule c) (sc_command c) (sc_options c) pc).
Proof.
  intros H. cbn [scheduleCalls set_schedule_pc set_scheduleCalls].
  by rewrite list_lookup_alter_eq, H.
Qed.

Lemma all_finished_later w w' ids :
  (forall i e, executions w !! i = Some e -> finished e = true -> executions w' !! i = Some e) ->
  all_finished w ids -> all_finished w' ids.
Proof. intros H Hall i Hi. destruct (Hall i Hi) as (e & He & Hf). exists e. auto. Qed.

(** The call itself. *)
Lemma schedule_entered rt name expr command options cron w0 :
  validateName name w0 = Returns tt -> parseCronExpression rt expr = Some cron ->
  catch_up_state (length (scheduleCalls w0)) (ActCallSchedule name expr command options)
    name options (length (jobObjs w0)) cron (getLastRuns name w0)
    w0 (schedule rt name expr command options w0).
Proof.
  intros Hname Hcron. unfold schedule. cbv zeta.
  change (validateName name (emit ?a ?act w0)) with (validateName name w0).
  rewrite Hname, Hcron. unfold registerTask. simpl fst. simpl snd. split.
  - cbn [jobObjs set_scheduleCalls set_jobs set_jobObjs set_scheduler emit set_trace].
    rewrite lookup_app_r, Nat.sub_diag by lia. by eexists.
  - eexists [_], _. split_and!.
    + done.
    + cbn [scheduleCalls set_scheduleCalls set_jobs set_jobObjs set_scheduler emit set_trace].
      by rewrite lookup_app_r, Nat.sub_diag by lia.
    + done.
    + done.
    + simpl. rewrite by_actor_one, actor_eqb_refl. done.
Qed.

Section CatchUp.
Variable rt : Runtime.
Variables (s : nat) (call : Action) (name : string) (options : ScheduleOptions).
Variables (j : JobRef) (cron : Cron) (runs : list RunStatusEntry).

Lemma catching_up_later did w w' pc :
  (forall i e, executions w !! i = Some e -> finished e = true -> executions w' !! i = Some e) ->
  (length (executions w) <= length (executions w'))%nat ->
  catching_up call name options j cron runs did w pc ->
  catching_up call name options j cron runs did w' pc.
Proof.
  intros Hex Hlen. destruct pc; simpl; try done.
  - intros (Hc & Hrun & Hi & ids & Hids & Hall & Hdid). split_and!; try done; try lia.
    exists ids. split_and!; try done. by eapply all_finished_later.
  - intros (Hc & ids & Hids & Hall & Hdid). split; [done|].
    exists ids. split_and!; try done. by eapply all_finished_later.
Qed.

(** The test of the [for] loop and what follows it, after [run] turns. *)
Lemma catch_up_next did cu run x w c job ids :
  scheduleCalls w !! s = Some c -> jobObjs w !! j = Some job ->
  counted options j cron runs cu ->
  0 <= run <= Z.max 0 (cu_makeUpRuns cu) ->
  length ids = Z.to_nat run -> all_finished w ids ->
  did = call :: announcement name (cu_missedRuns cu) (cu_makeUpRuns cu) ++ invocations j ids ->
  exists evs' c',
    trace (catch_up rt s cu run x w) = trace w ++ evs'
    /\ scheduleCalls (catch_up rt s cu run x w) !! s = Some c'
    /\ sc_name c' = sc_name c /\ sc_options c' = sc_options c
    /\ jobObjs (catch_up rt s cu run x w) !! j = Some job
    /\ catching_up call name options j cron runs (did ++ by_actor (ASchedule s) evs')
         (catch_up rt s cu run x w) (sc_pc c').
Proof.
  intros Hs Hjob Hcu Hrun Hids Hall ->. unfold catch_up.
  destruct (Z.ltb_spec run (cu_makeUpRuns cu)) as [Hlt|Hge].
  - assert (Hj : cu_job cu = j) by apply Hcu. rewrite Hj.
    destruct (executeJob_call rt (ASchedule s) j x w job Hjob)
      as (e & evs & He & Ht & Hsilent & Hsc & Hjo).
    eexists _, _. split_and!.
    + cbn [trace set_schedule_pc set_scheduleCalls]. exact Ht.
    + apply lookup_set_schedule_pc. by rewrite Hsc.
    + done.
    + done.
    + cbn [jobObjs set_schedule_pc set_scheduleCalls]. by rewrite Hjo.
    + simpl. split_and!; try done; try lia.
      * cbn [executions set_schedule_pc set_scheduleCalls]. rewrite He, length_app. simpl. lia.
      * exists ids. split_and!; [done| |].
        -- eapply all_finished_later; [|exact Hall]. intros i e' Hi _.
           cbn [executions set_schedule_pc set_scheduleCalls]. rewrite He.
           by apply lookup_app_l_Some.
        -- rewrite by_actor_cons_same, Hsilent by done.
           unfold invocations. rewrite map_app. simpl. by rewrite <- !app_assoc.
  - eexists [_], _. split_and!.
    + done.
    + by apply lookup_set_schedule_pc.
    + done.
    + done.
    + done.
    + simpl. split; [done|]. exists ids. split_and!; [lia|done|].
      rewrite by_actor_one, actor_eqb_refl. by rewrite <- !app_assoc.
Qed.

(** A step of another activation. *)
Lemma catch_up_state_frame (A : Actor -> Prop) w0 w w' :
  extends A w w' -> ~ A (ASchedule s) ->
  catch_up_state s call name options j cron runs w0 w ->
  catch_up_state s call name options j cron runs w0 w'.
Proof.
  intros Hext HA ([job Hjob] & evs & c & Ht & Hs & Hn & Ho & Hpc).
  destruct (ext_jobObjs _ _ _ Hext _ _ Hjob) as (job' & Hjob' & _).
  destruct (ext_trace _ _ _ Hext) as (evs' & Ht' & Hsilent).
  split; [by eexists|]. exists (evs ++ evs'), c. split_and!; try done.
  - by rewrite Ht', Ht, <- app_assoc.
  - by apply (ext_scheduleCalls _ _ _ Hext).
  - rewrite by_actor_app, Hsilent, app_nil_r; [|by eapply lookup_lt_Some|done].
    eapply catching_up_later; [| |exact Hpc].
    + intros i e Hi Hfin. destruct (ext_executions _ _ _ Hext _ _ Hi) as (e' & He' & _ & Hsame).
      rewrite He'. f_equal. apply Hsame. by left.
    + destruct (length (executions w)) as [|n] eqn:Hlen; [lia|].
      assert (Hex : existing w (AExecute n)) by (simpl; lia).
      apply (ext_existing _ _ _ Hext) in Hex. simpl in Hex. lia.
Qed.

(** A step of the call. *)
Lemma catch_up_state_resume w0 x w w' :
  schedule_resume rt s x w = Some w' ->
  catch_up_state s call name options j cron runs w0 w ->
  catch_up_state s call name options j cron runs w0 w'.
Proof.
  intros Hstep ([job Hjob] & evs & c & Ht & Hs & Hn & Ho & Hpc).
  unfold schedule_resume in Hstep. rewrite Hs in Hstep. simpl in Hstep.
  assert (Hnext : forall cu run ids,
    counted options j cron runs cu -> 0 <= run <= Z.max 0 (cu_makeUpRuns cu) ->
    length ids = Z.to_nat run -> all_finished w ids ->
    by_actor (ASchedule s) evs
    = call :: announcement name (cu_missedRuns cu) (cu_makeUpRuns cu) ++ invocations j ids ->
    catch_up_state s call name options j cron runs w0 (catch_up rt s cu run x w)).
  { intros cu run ids Hcu Hrun Hids Hall Hdid.
    destruct (catch_up_next _ cu run x w c job ids Hs Hjob Hcu Hrun Hids Hall Hdid)
      as (evs' & c' & Ht' & Hs' & Hn' & Ho' & Hjob' & Hpc').
    split; [by eexists|]. exists (evs ++ evs'), c'. split_and!; try congruence.
    - by rewrite Ht', Ht, <- app_assoc.
    - by rewrite by_actor_app. }
  destruct (sc_pc c) as [err|j' cron' runs'|cu|cu run i|cu] eqn:Hpceq; simpl in Hpc; try done.
  - destruct Hpc as (-> & -> & -> & Hdid).
    set (M := match run_timestamp <$> head runs with
              | Some t => missed_runs cron t (now x) | None => 0 end) in *.
    set (cu := mkCatchUp j cron (run_timestamp <$> head runs) (now x) M
                 (make_up_runs (sc_options c) M)) in *.
    assert (Hcu : counted options j cron runs cu).
    { unfold counted. split_and!; [done| |by rewrite <- Ho].
      subst cu M. simpl. by destruct (head runs). }
    destruct (Z.ltb_spec 0 (make_up_runs (sc_options c) M)) as [Hpos|Hnone];
      injection Hstep as <-.
    + split; [by eexists|]. eexists (evs ++ [_]), _. split_and!.
      * cbn [trace set_schedule_pc set_scheduleCalls logStderr emit set_trace].
        by rewrite Ht, <- app_assoc.
      * by apply lookup_set_schedule_pc.
      * done.
      * done.
      * simpl. split_and!; [done|done|].
        rewrite by_actor_app, by_actor_one, actor_eqb_refl, Hdid.
        rewrite announcement_message by done. by rewrite Hn.
    + apply (Hnext cu 0 []); [done|simpl; lia|done|by intros ? []|].
      rewrite Hdid. unfold announcement. simpl.
      by destruct (Z.ltb_spec 0 (make_up_runs (sc_options c) M)); [lia|].
  - destruct Hpc as (Hcu & Hpos & Hdid). injection Hstep as <-.
    apply (Hnext cu 0 []); [done|lia|done|by intros ? []|]. by rewrite Hdid, app_nil_r.
  - destruct Hpc as (Hcu & Hrun & Hi & ids & Hids & Hall & Hdid).
    destruct (executions w !! i) as [e|] eqn:He; [|done]. simpl in Hstep.
    destruct (finished e) eqn:Hfin; [|done]. injection Hstep as <-.
    apply (Hnext cu (run + 1) (ids ++ [i])); [done|lia| | |done].
    + rewrite length_app. simpl. lia.
    + intros i' [Hin| [<-|[]]]%in_app_or; [by apply Hall|by exists e].
Qed.

Lemma catch_up_state_step w0 l w w' :
  consistent rt w -> step rt l w = Some w' ->
  catch_up_state s call name options j cron runs w0 w ->
  catch_up_state s call name options j cron runs w0 w'.
Proof.
  intros Hc Hstep Hinv.
  assert (Hframe : ~ resumed l (ASchedule s) ->
            catch_up_state s call name options j cron runs w0 w').
  { intros Hres. eapply catch_up_state_frame; [by eapply step_extends|exact Hres|done]. }
  destruct l as [| | | | | |s' x| | |];
    try (apply Hframe; simpl; first [tauto|discriminate]).
  destruct (decide (s' = s)) as [->|Hne].
  - by eapply catch_up_state_resume.
  - apply Hframe. simpl. congruence.
Qed.

Lemma catch_up_state_run w0 ls w w' :
  consistent rt w -> run rt ls w = Some w' ->
  catch_up_state s call name options j cron runs w0 w ->
  catch_up_state s call name options j cron runs w0 w'.
Proof.
  revert w. induction ls as [|l ls IH]; intros w Hc; simpl.
  - by intros [= <-].
  - destruct (step rt l w) as [w1|] eqn:Hstep; [|done]. simpl. intros Hrun Hinv.
    apply (IH w1); [by eapply consistent_step|done|by eapply catch_up_state_step].
Qed.

End CatchUp.

Lemma counted_missed options j cron name w0 cu :
  next_occurrence cron ->
  counted options j cron (getLastRuns name w0) cu ->
  missed name cron (statusDb w0) (cu_now cu) (cu_missedRuns cu)
  /\ cu_makeUpRuns cu = make_up_runs options (cu_missedRuns cu).
Proof.
  intros Hn (_ & HM & HC). split; [|done]. rewrite HM.
  pose proof (getLastRuns_last_run name w0) as Hlast.
  destruct (head (getLastRuns name w0)) as [r|].
  - left. exists (run_timestamp r). split; [done|]. by apply missed_runs_occurrences.
  - by right.
Qed.

Lemma missed_never_run name cron db now' M :
  never_run name db -> missed name cron db now' M -> M = 0.
Proof.
  intros Hnever [(t & [(r & Hin & Hname & _) _] & _)|[_ ->]]; [|done].
  by destruct (Hnever r Hin).
Qed.

Lemma make_up_runs_none options : make_up_runs options 0 <= 0.
Proof. unfold make_up_runs. destruct (makeUpMissedRuns options); lia. Qed.



(** *** Job names *)

Lemma JsMap_has_In {V} k (m : list (string * V)) :
  JsMap.has k m = true -> exists v, In (k, v) m.
Proof.
  unfold JsMap.has, JsMap.get.
  destruct (List.find _ m) as [[k' v]|] eqn:Hfind; [|done]. intros _.
  apply find_some in Hfind as [Hin Hk]. simpl in Hk. apply String.eqb_eq in Hk. subst k'.
  by exists v.
Qed.

Lemma length_zero_empty (s : string) : (String.length s =? 0)%nat = true <-> s = "".
Proof. destruct s; simpl; split; done. Qed.

(** Claim C2.  In a world the service can reach, [#validateName] throws
    "Invalid job name" exactly when the name is empty or is not in the
    language of [^[a-zA-Z0-9]+(-[a-zA-Z0-9]+)*$], and throws "A job with this
    name already exists" exactly when the registry holds the name.  It
    rejects [""], ["Ab_c"], ["a--b"], ["-a"] and ["a-"], and accepts ["a"],
    ["job-1"] and ["Do-It-Now"] when they are not registered. *)
Theorem validateName_rejects rt w name :
  reachable rt w ->
  (validateName name w = Throws InvalidName
   <-> name = "" \/ ~ Regex.lang Regex.kebab name)
  /\ (validateName name w = Throws DuplicateName <-> JsMap.has name (jobs w) = true)
  /\ (forall bad, In bad [""; "Ab_c"; "a--b"; "-a"; "a-"] ->
      validateName bad w = Throws InvalidName)
  /\ (forall good, In good ["a"; "job-1"; "Do-It-Now"] ->
      JsMap.has good (jobs w) = false -> validateName good w = Returns tt).
Proof.
  intros Hr. apply reachable_consistent in Hr. split_and!.
  - unfold validateName.
    destruct (String.length name =? 0)%nat eqn:Hlen; simpl.
    + apply length_zero_empty in Hlen. by split; [left|].
    + destruct (Regex.test Regex.kebab name) eqn:Htest; simpl.
      * split; [by destruct (JsMap.has name (jobs w))|].
        intros [->|Hn]; [done|]. destruct Hn. by apply test_lang.
      * split; [|done]. intros _. right. rewrite <- test_lang. by rewrite Htest.
  - split.
    + unfold validateName.
      destruct ((String.length name =? 0)%nat || negb (Regex.test Regex.kebab name)); [done|].
      by destruct (JsMap.has name (jobs w)).
    + intros Hhas. destruct (JsMap_has_In _ _ Hhas) as [j Hin].
      destruct (inv_registry _ _ Hr _ _ Hin) as (job & _ & _ & _ & Hok).
      unfold validateName. unfold name_ok in Hok. apply negb_true_iff in Hok.
      by rewrite Hok, Hhas.
  - intros bad Hin. simpl in Hin.
    destruct Hin as [<-|[<-|[<-|[<-|[<-|[]]]]]]; reflexivity.
  - intros good Hin Hfree. simpl in Hin. unfold validateName.
    destruct Hin as [<-|[<-|[<-|[]]]]; rewrite Hfree; reflexivity.
Qed.

Lemma validateName_rejects_witness :
  (validateName "job-1" Sample.fresh = Throws InvalidName
   <-> "job-1" = "" \/ ~ Regex.lang Regex.kebab "job-1")
  /\ (validateName "job-1" Sample.fresh = Throws DuplicateName
      <-> JsMap.has "job-1" (jobs Sample.fresh) = true)
  /\ (forall bad, In bad [""; "Ab_c"; "a--b"; "-a"; "a-"] ->
      validateName bad Sample.fresh = Throws InvalidName)
  /\ (forall good, In good ["a"; "job-1"; "Do-It-Now"] ->
      JsMap.has good (jobs Sample.fresh) = false -> validateName good Sample.fresh = Returns tt).
Proof.
  apply (validateName_rejects Sample.rt Sample.fresh "job-1").
  exists 8000, None, [], [], []. reflexivity.
Defined.

(** *** [reset] and the runs of the jobs it removes *)

(** What [reset] does stop.  After [reset] in a reachable world [w1], an
    invocation of [#executeJob] that is entered later for a job registered
    before the [reset] returns at its first test: it is [Aborted] and has
    performed nothing, so it spawns no child.  And [reset] sends SIGTERM
    ([ActKill]) to the child of every invocation that awaits the exit of its
    child and whose job is of the generation that is reset. *)
Lemma reset_aborts_later_invocations rt w1 :
  reachable rt w1 ->
  (forall ls w2 i e,
     run rt ls (reset w1) = Some w2 ->
     executions w2 !! i = Some e ->
     (length (executions w1) <= i)%nat ->
     (exec_job e < length (jobObjs w1))%nat ->
     exec_pc e = Aborted /\ by_actor (AExecute i) (trace w2) = [])
  /\ (forall i e st id p job,
        executions w1 !! i = Some e -> exec_pc e = AwaitStatus st id p ->
        jobObjs w1 !! exec_job e = Some job ->
        job_abortSignal job = abortController w1 ->
        exists evs,
          trace (reset w1) = trace w1 ++ (AService, ActReset) :: evs
          /\ In (AListener i, ActKill p) evs).
Proof.
  intros Hr. apply reachable_consistent in Hr.
  pose proof (inv_controller _ _ Hr) as Hlt.
  pose proof (inv_current _ _ Hr) as Hcur.
  apply lookup_lt_is_Some_2 in Hlt as [s Hs].
  unfold signal_aborted in Hcur. rewrite Hs in Hcur.
  destruct (reset_fields w1 s Hs Hcur)
    as (_ & _ & _ & Ha & Hsig & Ho & He & _ & _ & _ & _ & _ & Ht).
  pose proof (consistent_reset rt w1 Hr) as Hcr.
  split.
  - intros ls w2 i e Hrun Hi Hge Hjob.
    pose proof (run_extends rt _ _ _ Hcr Hrun) as Hext.
    pose proof (consistent_run rt _ _ _ Hcr Hrun) as Hc2.
    apply lookup_lt_is_Some_2 in Hjob as [job Hjob].
    assert (Hpc : exec_pc e = Aborted).
    { apply (ext_new _ _ _ Hext i e job); try done.
      - rewrite He. apply lookup_ge_None. lia.
      - by rewrite Ho.
      - apply (inv_old _ _ Hcr).
        + rewrite Hsig, length_app, length_insert. simpl.
          pose proof (inv_job_signal _ _ Hr _ _ Hjob). lia.
        + rewrite Ha. pose proof (inv_job_signal _ _ Hr _ _ Hjob). lia. }
    split; [done|].
    destruct (inv_performed _ _ Hc2 _ _ Hi) as (job2 & _ & Hp). by rewrite Hp, Hpc.
  - intros i e st id p job Hi Hpc Hjob Hcurrent.
    exists (kills (listeners s)). split; [done|].
    destruct (inv_listener _ _ Hr _ _ _ _ _ Hi Hpc) as (job' & s' & Hjob' & Hs' & Hin).
    assert (job' = job) by congruence. subst job'.
    rewrite Hcurrent in Hs'. assert (s' = s) by congruence. subst s'.
    unfold kills. apply in_map_iff. by exists (i, p).
Qed.

Lemma no_kill (tr : list Event) :
  forallb (fun ev => negb (is_kill (snd ev))) tr = true ->
  forall a p, ~ In (a, ActKill p) tr.
Proof.
  intros H a p Hin. rewrite forallb_forall in H. by specialize (H _ Hin).
Qed.

(** Claim C3, where the code departs from it.  Job [a] is scheduled, its
    task fires, and the run is suspended at its first [await], past the test
    of the abort signal, when [reset] is called.  The signal of the job is
    aborted by the [reset]; yet the run, resumed, goes on to spawn its child
    after the [reset], and no child is ever sent SIGTERM. *)
Theorem suspended_invocation_spawns_after_reset :
  let w1 := Sample.suspended in
  let w2 := Sample.spawned_after_reset in
  reachable Sample.rt w1
  /\ JsMap.get "a" (jobs w1) = Some 0%nat
  /\ exec_job <$> executions w1 !! 0%nat = Some 0%nat
  /\ job_abortSignal <$> jobObjs w1 !! 0%nat = Some 0%nat
  /\ signal_aborted (reset w1) 0 = true
  /\ run Sample.rt Sample.to_spawn (reset w1) = Some w2
  /\ (exists evs,
        trace w2 = trace (reset w1) ++ evs
        /\ In (AExecute 0,
               ActRun ["sh"; "-c"; "sleep 1"]
                 (Some [("CHRON_MAILBOX_URL", "http://0.0.0.0:8000/mailbox/a")]) 4711%nat)
             evs)
  /\ forall a p, ~ In (a, ActKill p) (trace w2).
Proof.
  cbv zeta. split_and!.
  - exists 8000, None, [], [], Sample.entered. apply or_else_Some. vm_compute. reflexivity.
  - vm_compute. reflexivity.
  - vm_compute. reflexivity.
  - vm_compute. reflexivity.
  - vm_compute. reflexivity.
  - apply or_else_Some. vm_compute. reflexivity.
  - exists (skipn (length (trace (reset Sample.suspended))) (trace Sample.spawned_after_reset)).
    split.
    + vm_compute. reflexivity.
    + vm_compute. repeat (first [left; reflexivity | right]).
  - apply no_kill. vm_compute. reflexivity.
Qed.

(** *** One run of a job *)

Lemma invocation_done rt w job j st id p code :
  invocation rt w job j st id p code = upto_done rt w job j st id p code.
Proof.
  unfold invocation, upto_done, upto_footer, upto_update, upto_status, upto_header,
    upto_open, upto_ensureDir, upto_insert, upto_log, failed_message.
  destruct (code =? 0); simpl; reflexivity.
Qed.

Lemma performed_prefix rt w job j pc :
  exists st id p code,
    performed rt w job j pc `prefix_of` invocation rt w job j st id p code.
Proof.
  destruct pc as [|st|st id|st id|st id|st id|st id p|st id p code|st id p code|st id p code].
  1: exists 0, "", 0%nat, 0.
  2: exists st, "", 0%nat, 0.
  3-6: exists st, id, 0%nat, 0.
  7: exists st, id, p, 0.
  8-10: exists st, id, p, code.
  all: rewrite invocation_done; simpl;
    unfold upto_done, upto_footer, upto_update, upto_status, upto_header,
      upto_open, upto_ensureDir, upto_insert, upto_log;
    rewrite <- ?app_assoc; simpl.
  all: repeat (apply prefix_cons); try apply prefix_nil; try done.
  destruct (negb (code =? 0)); simpl; repeat (apply prefix_cons); apply prefix_nil.
Qed.



Lemma resume_mailbox rt i x w w' e job :
  executions w !! i = Some e -> jobObjs w !! exec_job e = Some job ->
  executeJob_resume rt i x w = Some w' ->
  mailbox w' = mailbox w ++ posted rt job x (exec_pc e).
Proof.
  intros Hi Hjob. unfold executeJob_resume. rewrite Hi. simpl. rewrite Hjob. simpl.
  destruct (exec_pc e); try done; intros [= <-]; simpl; rewrite ?app_nil_r; try done.
  destruct (code =? 0); simpl; [by rewrite app_nil_r|done].
Qed.

(** Claim C5.  An invocation that is done with exit code [code] has added
    one message to the mailbox when [code] is not zero, from [@errors] and
    with the text "<name> failed with status code <code>", and none when
    [code] is zero.  The mailbox follows these events: a step of an
    invocation appends to it what [posted] says, which is that message at
    the step after the run-status entry is updated, when the code is not
    zero, and nothing at any other step. *)
Theorem failed_run_posts_one_error rt w i e st id p code :
  reachable rt w -> executions w !! i = Some e -> exec_pc e = Done st id p code ->
  exists job,
    jobObjs w !! exec_job e = Some job
    /\ List.filter is_add_message (by_actor (AExecute i) (trace w))
       = (if code =? 0 then []
          else [ActAddMessage "@errors"
                  (job_name job +:+ " failed with status code " +:+ Js.show code)])
    /\ forall w1 e1 job1 x w1',
         executions w1 !! i = Some e1 -> jobObjs w1 !! exec_job e1 = Some job1 ->
         executeJob_resume rt i x w1 = Some w1' ->
         mailbox w1' = mailbox w1 ++ posted rt job1 x (exec_pc e1).
Proof.
  intros Hr Hi Hpc. apply reachable_consistent in Hr.
  destruct (inv_performed _ _ Hr _ _ Hi) as (job & Hjob & Hp).
  exists job. split_and!; [done| |].
  - rewrite Hp, Hpc. simpl.
    unfold upto_done, upto_footer, upto_update, upto_status, upto_header,
      upto_open, upto_ensureDir, upto_insert, upto_log, failed_message.
    rewrite !List.filter_app. simpl. destruct (code =? 0); reflexivity.
  - intros w1 e1 job1 x w1'. apply resume_mailbox.
Qed.

Lemma failed_run_posts_one_error_witness :
  let w := Sample.failed in
  let e := or_else Sample.no_execution (executions w !! 0%nat) in
  exists job,
    jobObjs w !! exec_job e = Some job
    /\ List.filter is_add_message (by_actor (AExecute 0) (trace w))
       = (if 1 =? 0 then []
          else [ActAddMessage "@errors"
                  (job_name job +:+ " failed with status code " +:+ Js.show 1)])
    /\ forall w1 e1 job1 x w1',
         executions w1 !! 0%nat = Some e1 -> jobObjs w1 !! exec_job e1 = Some job1 ->
         executeJob_resume Sample.rt 0 x w1 = Some w1' ->
         mailbox w1' = mailbox w1 ++ posted Sample.rt job1 x (exec_pc e1).
Proof.
  intros w e. apply (failed_run_posts_one_error Sample.rt w 0%nat e 1000000000 "0b1d" 4712%nat 1).
  - exact failed_reachable.
  - apply or_else_Some. vm_compute. reflexivity.
  - vm_compute. reflexivity.
Defined.

(** *** The callback of a scheduled job *)



(** *** The answers of the HTTP server *)

(** Claim C7, where the code departs from it.  A request for
    [/mailbox/count] is answered 200 with the number of messages whatever
    its method is, [POST] and [DELETE] included, where the other routes
    answer 405 to a method they do not serve. *)
Theorem mailbox_count_ignores_method rt (m text' : string) h w :
  fst (httpHandler rt (mkRequest m "/mailbox/count" text') h w)
  = mkResponse 200 (JsonBody (JCount (length (mailbox w)))).
Proof.
  unfold httpHandler. simpl.
  rewrite andb_false_r. unfold mailboxHandler. simpl.
  unfold Mailbox.getAllMessages, Database.findMany, ok.
  do 3 f_equal.
  induction (mailbox w) as [|x l IH]; simpl; [done|]. by rewrite IH.
Qed.

Lemma unmatched_path_400 rt req h w :
  (String.eqb (method req) "GET" && String.eqb (pathname req) "/")%bool = false ->
  jobPattern (pathname req) = None -> mailboxPattern (pathname req) = None ->
  fst (httpHandler rt req h w) = mkResponse 400 (Text "Bad Request").
Proof. intros H1 H2 H3. unfold httpHandler. by rewrite H1, H2, H3. Qed.

Lemma unknown_job_404 rt req job command h w :
  JsMap.get job (jobs w) = None ->
  fst (jobHandler rt req job command h w) = mkResponse 404 (Text "Not Found").
Proof. intros H. unfold jobHandler. by rewrite H. Qed.

Lemma fs_error_status err :
  status (handleFsError err) = match err with NotFound => 404 | _ => 500 end
  /\ forall rendered, err = OtherError rendered -> body (handleFsError err) = Text rendered.
Proof. destruct err; simpl; split; try done; by intros ? [= ->]. Qed.

(** *** [load] *)

Lemma calls_app tr1 tr2 : calls (tr1 ++ tr2) = calls tr1 ++ calls tr2.
Proof. unfold calls. by rewrite map_app, List.filter_app. Qed.

Lemma quiet_refl w : quiet w w.
Proof. split; [|done]. exists []. by rewrite app_nil_r. Qed.

Lemma quiet_trans w1 w2 w3 : quiet w1 w2 -> quiet w2 w3 -> quiet w1 w3.
Proof.
  intros [(e1 & H1 & Hc1) Hl1] [(e2 & H2 & Hc2) Hl2]. split; [|congruence].
  exists (e1 ++ e2). rewrite H2, H1, <- app_assoc, calls_app, Hc1, Hc2. done.
Qed.

Lemma quiet_emit a act w : is_call act = false -> quiet w (emit a act w).
Proof.
  intros H. split; [|done]. exists [(a, act)]. split; [done|].
  unfold calls. simpl. by rewrite H.
Qed.

Lemma quiet_set_statusDb v w : quiet w (set_statusDb v w).
Proof. split; [|done]. exists []. by rewrite app_nil_r. Qed.
Lemma quiet_set_jobs v w : quiet w (set_jobs v w).
Proof. split; [|done]. exists []. by rewrite app_nil_r. Qed.
Lemma quiet_set_abortController v w : quiet w (set_abortController v w).
Proof. split; [|done]. exists []. by rewrite app_nil_r. Qed.
Lemma quiet_set_scheduler v w : quiet w (set_scheduler v w).
Proof. split; [|done]. exists []. by rewrite app_nil_r. Qed.
Lemma quiet_set_mailbox v w : quiet w (set_mailbox v w).
Proof. split; [|done]. exists []. by rewrite app_nil_r. Qed.
Lemma quiet_set_jobObjs v w : quiet w (set_jobObjs v w).
Proof. split; [|done]. exists []. by rewrite app_nil_r. Qed.
Lemma quiet_set_signals v w : quiet w (set_signals v w).
Proof. split; [|done]. exists []. by rewrite app_nil_r. Qed.
Lemma quiet_set_executions v w : quiet w (set_executions v w).
Proof. split; [|done]. exists []. by rewrite app_nil_r. Qed.
Lemma quiet_set_scheduleCalls v w : quiet w (set_scheduleCalls v w).
Proof. split; [|done]. exists []. by rewrite app_nil_r. Qed.
Lemma quiet_set_startupCalls v w : quiet w (set_startupCalls v w).
Proof. split; [|done]. exists []. by rewrite app_nil_r. Qed.
Lemma quiet_set_pc i pc w : quiet w (set_pc i pc w).
Proof. split; [|done]. exists []. by rewrite app_nil_r. Qed.
Lemma quiet_set_startup_pc i pc w : quiet w (set_startup_pc i pc w).
Proof. split; [|done]. exists []. by rewrite app_nil_r. Qed.
Lemma quiet_set_schedule_pc i pc w : quiet w (set_schedule_pc i pc w).
Proof. split; [|done]. exists []. by rewrite app_nil_r. Qed.

Ltac qpeel :=
  lazymatch goal with
  | |- quiet ?w ?w => apply quiet_refl
  | |- quiet _ (emit _ _ ?W) => apply (quiet_trans _ W); [|by apply quiet_emit]
  | |- quiet _ (logStderr _ _ ?W) => apply (quiet_trans _ W); [|by apply quiet_emit]
  | |- quiet _ (set_statusDb _ ?W) => apply (quiet_trans _ W); [|apply quiet_set_statusDb]
  | |- quiet _ (set_jobs _ ?W) => apply (quiet_trans _ W); [|apply quiet_set_jobs]
  | |- quiet _ (set_abortController _ ?W) => apply (quiet_trans _ W); [|apply quiet_set_abortController]
  | |- quiet _ (set_scheduler _ ?W) => apply (quiet_trans _ W); [|apply quiet_set_scheduler]
  | |- quiet _ (set_mailbox _ ?W) => apply (quiet_trans _ W); [|apply quiet_set_mailbox]
  | |- quiet _ (set_jobObjs _ ?W) => apply (quiet_trans _ W); [|apply quiet_set_jobObjs]
  | |- quiet _ (set_signals _ ?W) => apply (quiet_trans _ W); [|apply quiet_set_signals]
  | |- quiet _ (set_executions _ ?W) => apply (quiet_trans _ W); [|apply quiet_set_executions]
  | |- quiet _ (set_scheduleCalls _ ?W) => apply (quiet_trans _ W); [|apply quiet_set_scheduleCalls]
  | |- quiet _ (set_startupCalls _ ?W) => apply (quiet_trans _ W); [|apply quiet_set_startupCalls]
  | |- quiet _ (set_pc _ _ ?W) => apply (quiet_trans _ W); [|apply quiet_set_pc]
  | |- quiet _ (set_startup_pc _ _ ?W) => apply (quiet_trans _ W); [|apply quiet_set_startup_pc]
  | |- quiet _ (set_schedule_pc _ _ ?W) => apply (quiet_trans _ W); [|apply quiet_set_schedule_pc]
  end.

Lemma quiet_executeJob rt caller j x w : quiet w (executeJob rt caller j x w).
Proof.
  unfold executeJob. destruct (jobObjs w !! j) as [job|]; [|apply quiet_refl].
  match goal with |- context [if ?b then _ else _] => destruct b end; repeat qpeel.
Qed.

Lemma quiet_startup_loop rt t j x w : quiet w (startup_loop rt t j x w).
Proof.
  unfold startup_loop. destruct (jobObjs w !! j) as [job|]; [|apply quiet_refl].
  destruct (signal_aborted w (job_abortSignal job)); qpeel; [by repeat qpeel|].
  apply quiet_executeJob.
Qed.

Lemma startup_quiet rt name command options x w :
  quiet (emit (AStartup (length (startupCalls w))) (ActCallStartup name command options) w)
    (startup rt name command options x w).
Proof.
  unfold startup. cbv zeta. set (w1 := emit _ _ w).
  destruct (validateName name w1) as [[]|e].
  - eapply quiet_trans; [|apply quiet_startup_loop]. by repeat qpeel.
  - by repeat qpeel.
Qed.

Lemma startup_calls rt name command options x w :
  exists evs,
    trace (startup rt name command options x w) = trace w ++ evs
    /\ calls evs = [ActCallStartup name command options]
    /\ loadCalls (startup rt name command options x w) = loadCalls w.
Proof.
  destruct (startup_quiet rt name command options x w) as [(evs & Ht & Hcalls) Hl].
  exists ((AStartup (length (startupCalls w)), ActCallStartup name command options) :: evs).
  split_and!; [| |exact Hl].
  - rewrite Ht. simpl. by rewrite <- app_assoc.
  - change (?a :: evs) with ([a] ++ evs). by rewrite calls_app, Hcalls.
Qed.

Lemma schedule_quiet rt name expr command options w :
  quiet (emit (ASchedule (length (scheduleCalls w)))
           (ActCallSchedule name expr command options) w)
    (schedule rt name expr command options w).
Proof.
  unfold schedule. cbv zeta. set (w1 := emit _ _ w).
  destruct (validateName name w1) as [[]|e].
  - destruct (parseCronExpression rt expr).
    + repeat qpeel. unfold registerTask. simpl snd. by repeat qpeel.
    + by repeat qpeel.
  - by repeat qpeel.
Qed.

Lemma schedule_calls rt name expr command options w :
  exists evs,
    trace (schedule rt name expr command options w) = trace w ++ evs
    /\ calls evs = [ActCallSchedule name expr command options]
    /\ loadCalls (schedule rt name expr command options w) = loadCalls w.
Proof.
  destruct (schedule_quiet rt name expr command options w) as [(evs & Ht & Hcalls) Hl].
  exists ((ASchedule (length (scheduleCalls w)), ActCallSchedule name expr command options)
            :: evs).
  split_and!; [| |exact Hl].
  - rewrite Ht. simpl. by rewrite <- app_assoc.
  - change (?a :: evs) with ([a] ++ evs). by rewrite calls_app, Hcalls.
Qed.

Lemma start_all_calls rt x entries w :
  exists evs,
    trace (start_all rt x entries w) = trace w ++ evs
    /\ calls evs = map startup_call entries
    /\ loadCalls (start_all rt x entries w) = loadCalls w.
Proof.
  unfold start_all. revert w. induction entries as [|e entries IH]; intros w; simpl.
  - exists []. by rewrite app_nil_r.
  - destruct (startup_calls rt (fst e) (se_command (snd e)) (se_options (snd e)) x w)
      as (ev1 & H1 & Hc1 & Hl1).
    destruct (IH (startup rt (fst e) (se_command (snd e)) (se_options (snd e)) x w))
      as (ev2 & H2 & Hc2 & Hl2).
    exists (ev1 ++ ev2). rewrite H2, H1, <- app_assoc, calls_app, Hc1, Hc2, Hl2, Hl1. done.
Qed.

Lemma schedule_all_calls rt entries w :
  exists evs,
    trace (schedule_all rt entries w) = trace w ++ evs
    /\ calls evs = map schedule_call entries
    /\ loadCalls (schedule_all rt entries w) = loadCalls w.
Proof.
  unfold schedule_all. revert w. induction entries as [|e entries IH]; intros w; simpl.
  - exists []. by rewrite app_nil_r.
  - destruct (schedule_calls rt (fst e) (sch_schedule (snd e)) (sch_command (snd e))
                (sch_options (snd e)) w) as (ev1 & H1 & Hc1 & Hl1).
    destruct (IH (schedule rt (fst e) (sch_schedule (snd e)) (sch_command (snd e))
                    (sch_options (snd e)) w)) as (ev2 & H2 & Hc2 & Hl2).
    exists (ev1 ++ ev2). rewrite H2, H1, <- app_assoc, calls_app, Hc1, Hc2, Hl2, Hl1. done.
Qed.

Lemma calls_kills ls : calls (kills ls) = [].
Proof. induction ls as [|l ls IH]; [done|]. unfold calls in *. simpl. exact IH. Qed.

Lemma load_calls rt path w :
  consistent rt w ->
  exists evs,
    trace (load path w) = trace w ++ evs
    /\ calls evs = [ActReset; ActReadTextFile path]
    /\ loadCalls (load path w) = loadCalls w ++ [mkLoadCall path LAwaitRead].
Proof.
  intros Hc. unfold load. cbv zeta.
  set (w1 := emit _ _ w).
  assert (Hc1 : consistent rt w1) by (by apply consistent_emit).
  pose proof (inv_controller _ _ Hc1) as Hlt.
  pose proof (inv_current _ _ Hc1) as Hcur.
  apply lookup_lt_is_Some_2 in Hlt as [s Hs].
  unfold signal_aborted in Hcur. rewrite Hs in Hcur.
  destruct (reset_fields w1 s Hs Hcur)
    as (_ & _ & _ & _ & _ & _ & _ & _ & _ & Hld & _ & _ & Ht).
  exists ([(ALoad (length (loadCalls w)), ActCallLoad path)]
            ++ ((AService, ActReset) :: kills (listeners s))
            ++ [(ALoad (length (loadCalls w)), ActReadTextFile path)]).
  split_and!.
  - cbn [trace set_loadCalls emit set_trace]. rewrite Ht. subst w1.
    cbn [trace emit set_trace]. by rewrite <- !app_assoc.
  - rewrite !calls_app.
    change ((AService, ActReset) :: kills (listeners s))
      with ([(AService, ActReset)] ++ kills (listeners s)).
    by rewrite calls_app, calls_kills.
  - cbn [loadCalls set_loadCalls emit set_trace]. rewrite Hld. done.
Qed.

Lemma load_resume_calls rt path W l file x w' tr0 ev0 :
  loadCalls W !! l = Some (mkLoadCall path LAwaitRead) ->
  trace W = tr0 ++ ev0 ->
  load_resume rt l file x W = Some w' ->
  exists evs, trace w' = tr0 ++ evs /\ load_outcome rt path file (calls ev0) l evs w'.
Proof.
  intros Hlc Ht0 Hstep.
  unfold load_resume in Hstep. rewrite Hlc in Hstep. simpl in Hstep.
  assert (Hlook : forall pc W', loadCalls W' = loadCalls W ->
            loadCalls (set_load_pc l pc W') !! l = Some (mkLoadCall path pc)).
  { intros pc W' HW'. cbn [loadCalls set_load_pc set_loadCalls]. rewrite HW'.
    by rewrite list_lookup_alter_eq, Hlc. }
  unfold load_outcome.
  destruct file as [text|e].
  - destruct (parseToml rt text) as [doc|].
    + destruct (Schema.parse doc) as [cf|e]; injection Hstep as <-.
      * destruct (start_all_calls rt x (cf_startup cf) W) as (ev1 & Ht1 & Hc1 & Hl1).
        destruct (schedule_all_calls rt (cf_schedule cf)
                    (start_all rt x (cf_startup cf) W)) as (ev2 & Ht2 & Hc2 & Hl2).
        exists (ev0 ++ ev1 ++ ev2 ++ [(ALoad l, ActReturn)]).
        split_and!.
        -- cbn [trace set_load_pc set_loadCalls emit set_trace].
           rewrite Ht2, Ht1, Ht0. by rewrite <- !app_assoc.
        -- rewrite !calls_app, Hc1, Hc2. simpl. by rewrite app_nil_r.
        -- apply Hlook. cbn [loadCalls emit set_trace]. by rewrite Hl2, Hl1.
      * exists (ev0 ++ [(ALoad l, ActThrow e)]). split_and!.
        -- cbn [trace set_load_pc set_loadCalls emit set_trace]. rewrite Ht0.
           by rewrite <- !app_assoc.
        -- rewrite calls_app. simpl. by rewrite app_nil_r.
        -- by apply Hlook.
    + injection Hstep as <-.
      exists (ev0 ++ [(ALoad l, ActThrow ConfigParseError)]). split_and!.
      * cbn [trace set_load_pc set_loadCalls emit set_trace]. rewrite Ht0.
        by rewrite <- !app_assoc.
      * rewrite calls_app. simpl. by rewrite app_nil_r.
      * by apply Hlook.
  - injection Hstep as <-.
    exists (ev0 ++ [(ALoad l, ActThrow e)]). split_and!.
    + cbn [trace set_load_pc set_loadCalls emit set_trace]. rewrite Ht0.
      by rewrite <- !app_assoc.
    + rewrite calls_app. simpl. by rewrite app_nil_r.
    + by apply Hlook.
Qed.

(** Claim C8, amended.  [load] calls [reset] first and reads the file
    after it.  When the file is read, parsed and accepted by the schema,
    [load] then calls [startup] for each startup entry and [schedule] for
    each schedule entry, in the order [Object.entries] lists them, and
    returns.  When the
    file cannot be read or parsed, or the schema rejects it (an unknown
    field, a wrong type), [load] throws that error, having made no call
    after the [reset] and the read. *)
Theorem load_resets_then_reads rt path w file x w' :
  reachable rt w ->
  load_resume rt (length (loadCalls w)) file x (load path w) = Some w' ->
  exists evs,
    trace w' = trace w ++ evs
    /\ load_outcome rt path file [ActReset; ActReadTextFile path] (length (loadCalls w)) evs w'.
Proof.
  intros Hr Hstep. apply reachable_consistent in Hr.
  destruct (load_calls rt path w Hr) as (ev0 & Ht0 & Hc0 & Hld0).
  rewrite <- Hc0. apply (load_resume_calls rt path (load path w) _ file x w' _ _); try done.
  rewrite Hld0. by rewrite lookup_app_r, Nat.sub_diag.
Qed.

Lemma load_resets_then_reads_witness :
  let w := Sample.fresh in
  let file := Returns "chronfile" in
  let w' := or_else w (load_resume Sample.rt (length (loadCalls w)) file Sample.x
                         (load "chronfile" w)) in
  exists evs,
    trace w' = trace w ++ evs
    /\ load_outcome Sample.rt "chronfile" file [ActReset; ActReadTextFile "chronfile"]
         (length (loadCalls w)) evs w'.
Proof.
  intros w file w'. apply (load_resets_then_reads Sample.rt "chronfile" w file Sample.x w').
  - exists 8000, None, [], [], []. reflexivity.
  - apply or_else_Some. vm_compute. reflexivity.
Defined.

(** Claim C8 as it is stated does not hold: [load] does not read the file
    before it calls [reset]. *)
Lemma load_does_not_read_before_reset :
  ~ (forall rt path w file x w',
       reachable rt w ->
       load_resume rt (length (loadCalls w)) file x (load path w) = Some w' ->
       exists evs,
         trace w' = trace w ++ evs
         /\ load_outcome rt path file [ActReadTextFile path; ActReset]
              (length (loadCalls w)) evs w').
Proof.
  intros H.
  destruct (H Sample.rt "chronfile" Sample.fresh (Returns "chronfile") Sample.x
              (or_else Sample.fresh
                 (load_resume Sample.rt 0 (Returns "chronfile") Sample.x
                    (load "chronfile" Sample.fresh))))
    as (evs & Ht & Hcalls & _).
  - exists 8000, None, [], [], []. reflexivity.
  - apply or_else_Some. vm_compute. reflexivity.
  - change (trace Sample.fresh ++ evs) with evs in Ht. subst evs.
    vm_compute in Hcalls. discriminate.
Qed.

(** *** Clearing the mailbox *)

Lemma filter_other_source s t (mb : list Message) :
  t <> s ->
  List.filter (Mailbox.by_source t) (List.filter (fun m => negb (Mailbox.by_source s m)) mb)
  = List.filter (Mailbox.by_source t) mb.
Proof.
  intros Hne. unfold Mailbox.by_source. induction mb as [|m mb IH]; simpl; [done|].
  destruct (String.eqb_spec (source m) s) as [Hs|Hs]; simpl;
    destruct (String.eqb_spec (source m) t) as [Ht|Ht]; simpl; rewrite ?IH; try done.
  congruence.
Qed.

Lemma filter_partition {A} (q : A -> bool) (l : list A) :
  List.filter q l ++ List.filter (fun d => negb (q d)) l ≡ₚ l.
Proof.
  induction l as [|a l IH]; simpl; [done|].
  destruct (q a); simpl.
  - by rewrite IH.
  - rewrite <- Permutation_middle. by rewrite IH.
Qed.

(** Claim C9.  [clearMessages s] removes the messages of source [s], these
    and no others, and returns them; the messages of every other source
    stay as they are; [clearAllMessages] removes all messages. *)
Theorem clearMessages_removes_source (mb : Mailbox.t) (s : string) :
  let removed := fst (Mailbox.clearMessages s mb) in
  let kept := snd (Mailbox.clearMessages s mb) in
  (forall m, In m removed <-> In m mb /\ source m = s)
  /\ (forall m, In m kept <-> In m mb /\ source m <> s)
  /\ removed = Mailbox.getMessages s mb
  /\ Mailbox.getMessages s kept = []
  /\ (forall t, t <> s -> Mailbox.getMessages t kept = Mailbox.getMessages t mb)
  /\ removed ++ kept ≡ₚ mb
  /\ Mailbox.clearAllMessages mb = (mb, []).
Proof.
  unfold Mailbox.clearMessages, Mailbox.clearAllMessages, Mailbox.getMessages,
    Database.deleteMany, Database.findMany. simpl.
  split_and!.
  - intros m. rewrite filter_In. unfold Mailbox.by_source. by rewrite String.eqb_eq.
  - intros m. rewrite filter_In. unfold Mailbox.by_source.
    by rewrite negb_true_iff, String.eqb_neq.
  - done.
  - unfold Mailbox.by_source. induction mb as [|m mb IH]; simpl; [done|].
    destruct (String.eqb_spec (source m) s) as [Hs|Hs]; simpl; [done|].
    apply String.eqb_neq in Hs. by rewrite Hs.
  - intros t Hne. by apply filter_other_source.
  - apply filter_partition.
  - f_equal.
    + induction mb as [|m mb IH]; simpl; [done|]. by rewrite IH.
    + induction mb as [|m mb IH]; simpl; done.
Qed.

(** *** The environment of a child *)

Lemma In_performed_run rt w job j pc cmd env p :
  In (ActRun cmd env p) (performed rt w job j pc) ->
  cmd = ["sh"; "-c"; job_command job] /\ env = mailbox_env w job.
Proof.
  destruct pc; simpl;
    unfold upto_done, upto_footer, upto_update, upto_status, upto_header,
      upto_open, upto_ensureDir, upto_insert, upto_log;
    rewrite ?in_app_iff; simpl; try destruct (negb (code =? 0)); simpl;
    intuition; try discriminate; try (by simplify_eq).
Qed.

Lemma spawn_env rt w a cmd env p :
  consistent rt w -> In (a, ActRun cmd env p) (trace w) ->
  exists i e job,
    a = AExecute i /\ executions w !! i = Some e /\ jobObjs w !! exec_job e = Some job
    /\ cmd = ["sh"; "-c"; job_command job] /\ env = mailbox_env w job.
Proof.
  intros Hc Hin. destruct (inv_actor _ _ Hc _ _ Hin) as [Hlt Hexec].
  specialize (Hexec eq_refl). destruct a as [| |i| | | | |]; try discriminate.
  specialize (Hlt i eq_refl). apply lookup_lt_is_Some_2 in Hlt as [e Hi].
  destruct (inv_performed _ _ Hc _ _ Hi) as (job & Hjob & Hp).
  apply by_actor_In in Hin. rewrite Hp in Hin. apply In_performed_run in Hin as [-> ->].
  by exists i, e, job.
Qed.

(** Claim C10.  When the service is started with [PORT=0], a port the entry
    point accepts, every child is spawned without an environment of its
    own, so that [CHRON_MAILBOX_URL] is not set: the environment is given
    when the port is truthy, that is when it is not [0], and only then. *)
Theorem port_zero_no_mailbox_url rt PORT HOME args db mb w0 ls w a cmd env p :
  main (Some PORT) HOME args db mb = Serving w0 ->
  run rt ls w0 = Some w ->
  In (a, ActRun cmd env p) (trace w) ->
  (PORT = "0" -> env = None)
  /\ (env = None <-> port w0 = 0)
  /\ (port w0 <> 0 ->
      exists name,
        env = Some [("CHRON_MAILBOX_URL",
                     "http://0.0.0.0:" +:+ Js.show (port w0) +:+ "/mailbox/" +:+ name)]).
Proof.
  unfold main. change (default "" (Some PORT)) with PORT.
  destruct (Js.parseInt PORT) as [port'|] eqn:Hparse; [|done].
  destruct (head args) as [path|]; [|done].
  destruct (String.length path =? 0)%nat; [done|]. intros [= <-] Hrun Hin.
  set (w1 := new_ChronService port' _ db mb) in *.
  assert (Hc1 : consistent rt w1) by apply consistent_new.
  assert (Hc0 : consistent rt (load path w1)) by (by apply consistent_load).
  assert (Hc : consistent rt w) by (by eapply consistent_run).
  assert (Hport0 : port (load path w1) = port').
  { by rewrite (ext_port _ _ _ (extends_load rt (fun _ => True) path w1 Hc1)). }
  assert (Hport : port w = port').
  { by rewrite (ext_port _ _ _ (run_extends rt _ _ _ Hc0 Hrun)). }
  destruct (spawn_env rt w a cmd env p Hc Hin) as (i & e & job & _ & _ & _ & _ & ->).
  unfold mailbox_env. rewrite Hport, Hport0. split_and!.
  - intros ->. assert (Hzero : Js.parseInt "0" = Some 0) by reflexivity.
    rewrite Hzero in Hparse. injection Hparse as <-. done.
  - by destruct (Z.eqb_spec port' 0).
  - intros Hne. destruct (Z.eqb_spec port' 0); [done|]. by exists (job_name job).
Qed.

Lemma port_zero_no_mailbox_url_witness :
  let w := or_else Sample.started (run Sample.rt Sample.to_first_spawn Sample.started) in
  let env := @None (list (string * string)) in
  In (AExecute 0, ActRun ["sh"; "-c"; "serve"] env 4711%nat) (trace w)
  /\ ("0" = "0" -> env = None)
  /\ (env = None <-> port Sample.started = 0)
  /\ (port Sample.started <> 0 ->
      exists name,
        env = Some [("CHRON_MAILBOX_URL",
                     "http://0.0.0.0:" +:+ Js.show (port Sample.started) +:+ "/mailbox/" +:+ name)]).
Proof.
  intros w env.
  assert (Hin : In (AExecute 0, ActRun ["sh"; "-c"; "serve"] env 4711%nat) (trace w)).
  { vm_compute. repeat (first [left; reflexivity | right]). }
  split; [exact Hin|].
  apply (port_zero_no_mailbox_url Sample.rt "0" (Some "/home/u") ["chronfile"] [] []
           Sample.started Sample.to_first_spawn w (AExecute 0) ["sh"; "-c"; "serve"] env
           4711%nat).
  - vm_compute. reflexivity.
  - apply or_else_Some. vm_compute. reflexivity.
  - exact Hin.
Defined.

(** * Further properties of the code *)

(** ** The runs on record and the mailbox *)

Lemma insert_run_perm r sorted : insert_run r sorted ≡ₚ r :: sorted.
Proof.
  induction sorted as [|r' rest IH]; simpl; [done|].
  destruct (run_timestamp r' <=? run_timestamp r); [done|].
  rewrite IH. apply perm_swap.
Qed.

Lemma sort_runs_perm runs : sort_runs runs ≡ₚ runs.
Proof.
  induction runs as [|r runs IH]; simpl; [done|]. by rewrite insert_run_perm, IH.
Qed.

Lemma insert_run_sorted r sorted :
  StronglySorted not_older sorted -> StronglySorted not_older (insert_run r sorted).
Proof.
  induction 1 as [|r' rest Hrest IH Hall]; simpl.
  - repeat constructor.
  - destruct (Z.leb_spec (run_timestamp r') (run_timestamp r)) as [Hle|Hgt].
    + constructor; [by constructor|]. constructor; [done|].
      eapply Forall_impl; [exact Hall|]. unfold not_older. simpl. intros; lia.
    + constructor; [done|].
      rewrite insert_run_perm. constructor; [|done]. unfold not_older. lia.
Qed.

Lemma sort_runs_sorted runs : StronglySorted not_older (sort_runs runs).
Proof.
  induction runs as [|r runs IH]; simpl; [constructor|]. by apply insert_run_sorted.
Qed.

(** Extra X1.  [getLastRuns] returns the runs on record under the name, all
    of them and no others, the most recent first. *)
Theorem getLastRuns_newest_first name w :
  StronglySorted not_older (getLastRuns name w)
  /\ getLastRuns name w ≡ₚ List.filter (fun r => String.eqb (run_name r) name) (statusDb w)
  /\ (forall r, In r (getLastRuns name w) <-> In r (statusDb w) /\ run_name r = name).
Proof.
  unfold getLastRuns, Database.findMany. split_and!.
  - apply sort_runs_sorted.
  - apply sort_runs_perm.
  - intros r. rewrite <- !list_elem_of_In, sort_runs_perm, !list_elem_of_In.
    rewrite filter_In. unfold by_name. by rewrite String.eqb_eq.
Qed.

Lemma getMessages_snoc s m (mb : Mailbox.t) :
  Mailbox.getMessages s (mb ++ [m])
  = Mailbox.getMessages s mb ++ (if String.eqb (source m) s then [m] else []).
Proof.
  unfold Mailbox.getMessages, Database.findMany, Mailbox.by_source.
  rewrite List.filter_app. simpl. by destruct (String.eqb (source m) s).
Qed.

Lemma getAllMessages_all (mb : Mailbox.t) : Mailbox.getAllMessages mb = mb.
Proof.
  unfold Mailbox.getAllMessages, Database.findMany.
  induction mb as [|m mb IH]; simpl; [done|]. by rewrite IH.
Qed.

(** Extra X2.  [addMessage] returns a message with the given source and text
    and appends it to the mailbox: [getAllMessages] and [getMessages] of its
    source then end with it, the messages of the other sources are as
    before, and [clearMessages] of the source returns it after the earlier
    ones and leaves none of that source. *)
Theorem addMessage_then_read s date text (mb : Mailbox.t) :
  let m := fst (Mailbox.addMessage s date text mb) in
  let mb' := snd (Mailbox.addMessage s date text mb) in
  m = mkMessage s date text
  /\ Mailbox.getAllMessages mb' = Mailbox.getAllMessages mb ++ [m]
  /\ Mailbox.getMessages s mb' = Mailbox.getMessages s mb ++ [m]
  /\ (forall t, t <> s -> Mailbox.getMessages t mb' = Mailbox.getMessages t mb)
  /\ fst (Mailbox.clearMessages s mb') = Mailbox.getMessages s mb ++ [m]
  /\ Mailbox.getMessages s (snd (Mailbox.clearMessages s mb')) = [].
Proof.
  unfold Mailbox.addMessage, Mailbox.getAllMessages, Mailbox.getMessages, Mailbox.clearMessages,
    Database.findMany, Database.insertOne, Database.deleteMany, Mailbox.by_source.
  cbn [fst snd]. cbv zeta. split_and!; try done.
  - by rewrite List.filter_app.
  - rewrite List.filter_app. simpl. by rewrite String.eqb_refl.
  - intros t Hne. rewrite List.filter_app. simpl.
    destruct (String.eqb_spec s t); [congruence|]. by rewrite app_nil_r.
  - rewrite List.filter_app. simpl. by rewrite String.eqb_refl.
  - apply filter_none. intros m [_ Hm]%filter_In.
    by destruct (String.eqb (source m) s).
Qed.


(** ** The schema of the chronfile *)

Lemma strict_spec shape o :
  Schema.strict shape o = true <-> forall k v, In (k, v) o -> In k shape.
Proof.
  unfold Schema.strict. rewrite forallb_forall. split.
  - intros H k v Hin. specialize (H _ Hin). apply existsb_exists in H as (k' & Hk' & Heq).
    simpl in Heq. apply String.eqb_eq in Heq. by subst.
  - intros H [k v] Hin. apply existsb_exists. exists k. split; [by eapply H|].
    simpl. apply String.eqb_refl.
Qed.

(** Extra X3.  The schema accepts an entry of [startup] exactly when it is
    a table whose [command] is a string, whose [keepAlive] is a boolean or
    is missing, and that has no other key; a missing [keepAlive] is read as
    true. *)
Theorem startup_entry_accepts v e :
  Schema.startup_entry v = Returns e
  <-> exists o,
        v = TTable o
        /\ JsMap.get "command" o = Some (TString (se_command e))
        /\ (JsMap.get "keepAlive" o = None /\ keepAlive (se_options e) = true
            \/ JsMap.get "keepAlive" o = Some (TBoolean (keepAlive (se_options e))))
        /\ forall k v', In (k, v') o -> In k ["command"; "keepAlive"].
Proof.
  destruct e as [command [alive]]. simpl. split.
  - destruct v as [| | |o|]; simpl; try done.
    unfold Schema.string_field, Schema.boolean_field.
    destruct (JsMap.get "command" o) as [[c| | | |]|] eqn:Hc; simpl; try done.
    destruct (JsMap.get "keepAlive" o) as [[|  |b| |]|] eqn:Hk; simpl; try done;
      destruct (Schema.strict _ o) eqn:Hstrict; try done; intros [= <- <-];
      exists o; rewrite strict_spec in Hstrict; split_and!; try done; auto.
  - intros (o & -> & Hc & Hk & Hkeys).
    assert (Hstrict : Schema.strict ["command"; "keepAlive"] o = true)
      by (apply strict_spec; exact Hkeys).
    clear Hkeys. rename Hstrict into Hkeys. simpl.
    unfold Schema.string_field, Schema.boolean_field. rewrite Hc. simpl.
    destruct Hk as [[-> ->]| ->]; simpl; by rewrite Hkeys.
Qed.

(** Extra X4.  The schema accepts an entry of [schedule] exactly when it is
    a table whose [schedule] and [command] are strings, whose
    [allowConcurrentRuns] is a boolean or is missing (read as false), whose
    [makeUpMissedRuns] is the string "all", a number that is not negative,
    or is missing (read as 0), and that has no other key. *)
Theorem schedule_entry_accepts v e :
  Schema.schedule_entry v = Returns e
  <-> exists o,
        v = TTable o
        /\ JsMap.get "schedule" o = Some (TString (sch_schedule e))
        /\ JsMap.get "command" o = Some (TString (sch_command e))
        /\ (JsMap.get "allowConcurrentRuns" o = None
              /\ allowConcurrentRuns (sch_options e) = false
            \/ JsMap.get "allowConcurrentRuns" o
               = Some (TBoolean (allowConcurrentRuns (sch_options e))))
        /\ match makeUpMissedRuns (sch_options e) with
           | All => JsMap.get "makeUpMissedRuns" o = Some (TString "all")
           | Runs n =>
               0 <= n
               /\ (JsMap.get "makeUpMissedRuns" o = Some (TNumber n)
                   \/ JsMap.get "makeUpMissedRuns" o = None /\ n = 0)
           end
        /\ forall k v', In (k, v') o ->
             In k ["schedule"; "command"; "allowConcurrentRuns"; "makeUpMissedRuns"].
Proof.
  destruct e as [expr command [allow makeUp]]. simpl. split.
  - destruct v as [| | |o|]; simpl; try done.
    unfold Schema.string_field, Schema.boolean_field, Schema.missed_runs_field.
    destruct (JsMap.get "schedule" o) as [[s| | | |]|] eqn:Hs; simpl; try done.
    destruct (JsMap.get "command" o) as [[c| | | |]|] eqn:Hc; simpl; try done.
    destruct (JsMap.get "allowConcurrentRuns" o) as [[|  |b| |]|] eqn:Ha; simpl; try done;
      (destruct (JsMap.get "makeUpMissedRuns" o) as [[t|n| | |]|] eqn:Hm; simpl; try done;
       [destruct (String.eqb_spec t "all") as [->|]; simpl; try done
       |destruct (Z.leb_spec 0 n); simpl; try done
       |]);
      destruct (Schema.strict _ o) eqn:Hstrict; try done; intros [= <- <- <- <-];
      exists o; rewrite strict_spec in Hstrict; split_and!; try done; auto.
  - intros (o & -> & Hs & Hc & Ha & Hm & Hkeys).
    assert (Hstrict : Schema.strict
              ["schedule"; "command"; "allowConcurrentRuns"; "makeUpMissedRuns"] o = true)
      by (apply strict_spec; exact Hkeys).
    clear Hkeys. rename Hstrict into Hkeys. simpl.
    unfold Schema.string_field, Schema.boolean_field, Schema.missed_runs_field.
    rewrite Hs, Hc. simpl.
    assert (Hallow : match JsMap.get "allowConcurrentRuns" o with
                     | None => Returns false
                     | Some (TBoolean b) => Returns b
                     | Some _ => Schema.invalid "invalid_type"
                     end = Returns allow).
    { destruct Ha as [[-> ->]| ->]; done. }
    rewrite Hallow. simpl.
    destruct makeUp as [|n].
    + rewrite Hm. simpl. by rewrite Hkeys.
    + destruct Hm as [Hn [-> |[-> ->]]]; simpl.
      * destruct (Z.leb_spec 0 n); [|lia]. simpl. by rewrite Hkeys.
      * by rewrite Hkeys.
Qed.

Lemma record_Forall2 {A} (entry : Toml -> Outcome A) t l :
  Schema.record entry t = Returns l <-> Forall2 (parsed_as entry) t l.
Proof.
  revert l. induction t as [|[k v] t IH]; intros l; simpl.
  - split; [intros [= <-]; constructor|]. by intros ->%Forall2_nil_inv_l.
  - destruct (entry v) as [a|err] eqn:Hv; simpl.
    + destruct (Schema.record entry t) as [r|err] eqn:Hr; simpl.
      * split.
        -- intros [= <-]. constructor; [done|]. by apply IH.
        -- intros Hall. apply Forall2_cons_inv_l in Hall as ([k' a'] & l' & [Hk Ha] & Hl' & ->).
           simpl in *. subst k'. rewrite Hv in Ha. injection Ha as <-.
           apply IH in Hl'. by injection Hl' as <-.
      * split; [done|]. intros Hall.
        apply Forall2_cons_inv_l in Hall as (? & l' & _ & Hl' & ->).
        by apply IH in Hl'.
    + split; [done|]. intros Hall.
      apply Forall2_cons_inv_l in Hall as (? & l' & [_ Ha] & _ & ->).
      simpl in Ha. congruence.
Qed.

Lemma record_field_Forall2 {A} (entry : Toml -> Outcome A) key o l :
  Schema.record_field entry key o = Returns l
  <-> exists t, table_of key o = Some t /\ Forall2 (parsed_as entry) t l.
Proof.
  unfold Schema.record_field, table_of.
  destruct (JsMap.get key o) as [[| | |t|]|]; simpl.
  1-3, 5: split; [done|]; by intros (? & ? & _).
  - rewrite record_Forall2. split; [by exists t|]. by intros (? & [= <-] & ?).
  - split.
    + intros [= <-]. exists []. split; [done|constructor].
    + intros (? & [= <-] & ->%Forall2_nil_inv_l). done.
Qed.

(** Extra X5.  The schema accepts a document exactly when it is a table
    whose [startup] and [schedule] are tables or are missing (read as empty)
    and each of their entries is accepted; the entries come out under their
    names, in the order of the document. *)
Theorem parse_accepts doc cf :
  Schema.parse doc = Returns cf
  <-> exists o startups schedules,
        doc = TTable o
        /\ table_of "startup" o = Some startups
        /\ table_of "schedule" o = Some schedules
        /\ Forall2 (parsed_as Schema.startup_entry) startups (cf_startup cf)
        /\ Forall2 (parsed_as Schema.schedule_entry) schedules (cf_schedule cf).
Proof.
  destruct cf as [su sc]. cbn [cf_startup cf_schedule]. split.
  - destruct doc as [| | |o|]; simpl; try done.
    destruct (Schema.record_field Schema.startup_entry "startup" o) as [l1|] eqn:H1;
      simpl; [|done].
    destruct (Schema.record_field Schema.schedule_entry "schedule" o) as [l2|] eqn:H2;
      simpl; [|done].
    intros [= <- <-].
    apply record_field_Forall2 in H1 as (t1 & Ht1 & H1).
    apply record_field_Forall2 in H2 as (t2 & Ht2 & H2).
    by exists o, t1, t2.
  - intros (o & t1 & t2 & -> & Ht1 & Ht2 & H1 & H2). simpl.
    assert (Hs : Schema.record_field Schema.startup_entry "startup" o = Returns su)
      by (apply record_field_Forall2; by exists t1).
    assert (Hc : Schema.record_field Schema.schedule_entry "schedule" o = Returns sc)
      by (apply record_field_Forall2; by exists t2).
    by rewrite Hs, Hc.
Qed.


(** ** The routes of the server *)

Lemma segments_cons s : exists seg rest, segments s = seg :: rest.
Proof.
  induction s as [|c r (seg & rest & IH)]; simpl; [by eexists _, _|].
  destruct (Ascii.eqb c "/"); [by eexists _, _|]. rewrite IH. by eexists _, _.
Qed.

Lemma segments_no_slash s : no_slash s = true -> segments s = [s].
Proof.
  induction s as [|c r IH]; simpl; [done|].
  intros [Hc Hr]%andb_true_iff. apply negb_true_iff in Hc. rewrite Hc, IH; done.
Qed.

Lemma segments_app s r :
  no_slash s = true -> segments (s +:+ "/" +:+ r) = s :: segments r.
Proof.
  induction s as [|c s IH]; simpl; [done|].
  intros [Hc Hs]%andb_true_iff. apply negb_true_iff in Hc. rewrite Hc, IH; done.
Qed.

Lemma segments_inv s :
  Forall (fun seg => no_slash seg = true) (segments s) /\ unsegments (segments s) = s.
Proof.
  induction s as [|c r [IHf IHu]]; simpl.
  - split; [by repeat constructor|done].
  - destruct (Ascii.eqb_spec c "/") as [->|Hc].
    + split; [by constructor|]. destruct (segments_cons r) as (seg & rest & Hr).
      rewrite Hr in *.
      change (unsegments ("" :: seg :: rest)) with ("" +:+ "/" +:+ unsegments (seg :: rest)).
      by rewrite IHu.
    + destruct (segments_cons r) as (seg & rest & Hr). rewrite Hr in *.
      apply Forall_cons in IHf as [Hseg Hrest]. split.
      * constructor; [|done]. simpl. rewrite Hseg.
        by destruct (Ascii.eqb_spec c "/").
      * destruct rest; simpl in *; by rewrite <- IHu.
Qed.

Lemma nonempty_spec s : nonempty s = true <-> s <> "".
Proof. unfold nonempty. destruct s; simpl; split; done. Qed.

Lemma jobPattern_inv path job command :
  jobPattern path = Some (job, command) ->
  path = job_path job command /\ segment job /\ segment command.
Proof.
  unfold jobPattern, segment, job_path.
  destruct (segments_inv path) as [Hf Hu].
  destruct (segments path) as [|root [|fixed [|j [|c [|]]]]] eqn:Hseg; try done.
  destruct (String.eqb_spec root ""); simpl; [|done].
  destruct (String.eqb_spec fixed "job"); simpl; [|done].
  destruct (nonempty j) eqn:Hj; simpl; [|done].
  destruct (nonempty c) eqn:Hc; simpl; [|done].
  intros [= <- <-]. subst. simpl.
  apply nonempty_spec in Hj, Hc.
  apply Forall_cons in Hf as [_ Hf]. apply Forall_cons in Hf as [_ Hf].
  apply Forall_cons in Hf as [? Hf]. apply Forall_cons in Hf as [? Hf]. done.
Qed.

Lemma jobPattern_path job command :
  segment job -> segment command -> jobPattern (job_path job command) = Some (job, command).
Proof.
  intros [Hj Hjs] [Hc Hcs]. unfold jobPattern, job_path.
  change ("/job/" +:+ job +:+ "/" +:+ command)
    with ("" +:+ "/" +:+ ("job" +:+ "/" +:+ (job +:+ "/" +:+ command))).
  rewrite segments_app by done. rewrite segments_app by done.
  rewrite segments_app by done. rewrite segments_no_slash by done. simpl.
  apply nonempty_spec in Hj, Hc. by rewrite Hj, Hc.
Qed.

Lemma mailboxPattern_inv path command :
  mailboxPattern path = Some command -> path = "/mailbox/" +:+ command /\ segment command.
Proof.
  unfold mailboxPattern, segment.
  destruct (segments_inv path) as [Hf Hu].
  destruct (segments path) as [|root [|fixed [|c [|]]]] eqn:Hseg; try done.
  destruct (String.eqb_spec root ""); simpl; [|done].
  destruct (String.eqb_spec fixed "mailbox"); simpl; [|done].
  destruct (nonempty c) eqn:Hc; simpl; [|done].
  intros [= <-]. subst. simpl.
  apply nonempty_spec in Hc.
  apply Forall_cons in Hf as [_ Hf]. apply Forall_cons in Hf as [_ Hf].
  apply Forall_cons in Hf as [? Hf]. done.
Qed.

Lemma mailboxPattern_path command :
  segment command -> mailboxPattern ("/mailbox/" +:+ command) = Some command.
Proof.
  intros [Hc Hcs]. unfold mailboxPattern.
  change ("/mailbox/" +:+ command) with ("" +:+ "/" +:+ ("mailbox" +:+ "/" +:+ command)).
  rewrite segments_app by done. rewrite segments_app by done.
  rewrite segments_no_slash by done. simpl.
  apply nonempty_spec in Hc. by rewrite Hc.
Qed.

(** Extra X6.  The pattern of the job routes matches exactly the paths
    [/job/<job>/<command>] and the pattern of the mailbox routes exactly the
    paths [/mailbox/<command>], where [<job>] and [<command>] are not empty
    and hold no slash; the groups are these two parts of the path. *)
Theorem route_patterns_match :
  (forall path job command,
     jobPattern path = Some (job, command)
     <-> path = job_path job command /\ segment job /\ segment command)
  /\ (forall path command,
        mailboxPattern path = Some command
        <-> path = "/mailbox/" +:+ command /\ segment command).
Proof.
  split.
  - intros path job command. split; [apply jobPattern_inv|].
    intros (-> & Hj & Hc). by apply jobPattern_path.
  - intros path command. split; [apply mailboxPattern_inv|].
    intros (-> & Hc). by apply mailboxPattern_path.
Qed.


Lemma string_forall_app P s1 s2 :
  string_forall P (s1 +:+ s2) = string_forall P s1 && string_forall P s2.
Proof. induction s1 as [|c s1 IH]; simpl; [done|]. by rewrite IH, andb_assoc. Qed.

Lemma lang_within P r s :
  classes_within P r -> Regex.lang r s -> string_forall P s = true.
Proof.
  intros Hr Hl. induction Hl; simpl in *; try done.
  - by rewrite Hr.
  - destruct Hr. rewrite string_forall_app. by rewrite IHHl1, IHHl2.
  - apply IHHl. by destruct Hr.
  - apply IHHl. by destruct Hr.
  - rewrite string_forall_app. by rewrite IHHl1, IHHl2.
Qed.

Lemma alnum_no_slash c : Regex.alnum c = true -> negb (Ascii.eqb c "/") = true.
Proof. destruct c as [[] [] [] [] [] [] [] []]; vm_compute; done. Qed.

Lemma dash_no_slash c : Regex.is_dash c = true -> negb (Ascii.eqb c "/") = true.
Proof. destruct c as [[] [] [] [] [] [] [] []]; vm_compute; done. Qed.

Lemma no_slash_forall s : no_slash s = string_forall (fun c => negb (Ascii.eqb c "/")) s.
Proof. induction s as [|c s IH]; simpl; [done|]. by rewrite IH. Qed.

(** A name that [#validateName] lets pass is one segment of a path. *)
Lemma name_ok_segment name : name_ok name = true -> segment name.
Proof.
  unfold name_ok. rewrite negb_true_iff, orb_false_iff, negb_false_iff.
  intros [Hlen Htest]. split.
  - intros ->. done.
  - rewrite no_slash_forall. apply test_lang in Htest.
    eapply lang_within; [|exact Htest]. simpl.
    split_and!; auto using alnum_no_slash, dash_no_slash.
Qed.

Lemma StronglySorted_app_inv {A} (R : A -> A -> Prop) l1 l2 :
  StronglySorted R (l1 ++ l2) ->
  StronglySorted R l1 /\ Forall (fun a => Forall (R a) l2) l1.
Proof.
  induction l1 as [|a l1 IH]; simpl; intros H.
  - split; constructor.
  - apply StronglySorted_inv in H as [Hs Hall]. destruct (IH Hs) as [Hs1 Hall1].
    apply Forall_app in Hall as [Ha1 Ha2]. split; by constructor.
Qed.


Section Http.
Variable rt : Runtime.

Lemma job_route m name command body h w :
  segment name -> segment command ->
  httpHandler rt (mkRequest m (job_path name command) body) h w
  = jobHandler rt (mkRequest m (job_path name command) body) name command h w.
Proof.
  intros Hn Hc. unfold httpHandler. cbn [method pathname].
  assert (Hroot : String.eqb (job_path name command) "/" = false) by done.
  rewrite Hroot, andb_false_r.
  by rewrite jobPattern_path.
Qed.

(** Extra X7.  A request for a route of a job that is not registered is
    answered 404 "Not Found", whatever its method and the command are, and
    changes nothing. *)
Theorem unknown_job_not_found m name command body h w :
  segment name -> segment command -> JsMap.get name (jobs w) = None ->
  httpHandler rt (mkRequest m (job_path name command) body) h w
  = (mkResponse 404 (Text "Not Found"), w).
Proof.
  intros Hn Hc Hget. rewrite job_route by done. unfold jobHandler. by rewrite Hget.
Qed.

Lemma registry_listed w :
  consistent rt w ->
  forall reg, (forall kv, In kv reg -> In kv (jobs w)) ->
  map fst (omap (fun j => listed <$> jobObjs w !! j) (JsMap.values reg))
  = map fst reg
  /\ Forall2 (fun entry kv => exists job, jobObjs w !! snd kv = Some job /\ entry = listed job)
       (omap (fun j => listed <$> jobObjs w !! j) (JsMap.values reg)) reg.
Proof.
  intros Hc. unfold JsMap.values.
  induction reg as [|[name j] reg IH]; intros Hsub; simpl.
  - split; [done|constructor].
  - destruct IH as (Hnames & Hall). { intros kv ?. apply Hsub. by right. }
    destruct (inv_registry _ _ Hc name j) as (job & Hjob & Hname & _).
    { apply Hsub. by left. }
    rewrite Hjob. simpl. split; [f_equal; [exact Hname|exact Hnames]|].
    constructor; [by exists job|exact Hall].
Qed.

(** Extra X8.  [GET /] is answered 200 with one entry for each registered
    job, in the order of the registry: its name, and whether its process is
    set. *)
Theorem root_lists_every_job body h w :
  reachable rt w ->
  exists l,
    httpHandler rt (mkRequest "GET" "/" body) h w = (mkResponse 200 (JsonBody (JJobs l)), w)
    /\ map fst l = map fst (jobs w)
    /\ Forall2 (fun entry kv => exists job, jobObjs w !! snd kv = Some job /\ entry = listed job)
         l (jobs w).
Proof.
  intros Hr. apply reachable_consistent in Hr.
  destruct (registry_listed w Hr (jobs w)) as (Hnames & Hall); [done|].
  eexists. split_and!; [|exact Hnames|exact Hall]. done.
Qed.

(** Extra X9.  A request changes neither the registry, the job objects, the
    scheduler, the run-status store, the invocations nor the abort signals;
    what it does is done by the server, and only a [POST] or a [DELETE]
    changes the mailbox. *)
Theorem httpHandler_keeps_service req h w :
  let w' := snd (httpHandler rt req h w) in
  jobs w' = jobs w /\ jobObjs w' = jobObjs w /\ scheduler w' = scheduler w
  /\ statusDb w' = statusDb w /\ executions w' = executions w
  /\ signals w' = signals w /\ abortController w' = abortController w
  /\ (exists evs, trace w' = trace w ++ evs /\ Forall (fun ev => fst ev = AServer) evs)
  /\ (mailbox w' <> mailbox w -> method req = "POST" \/ method req = "DELETE").
Proof.
  unfold httpHandler, jobHandler, mailboxHandler.
  repeat case_match; simpl; split_and!; try done;
    try (by exists []; rewrite app_nil_r);
    try (by eexists [_]; split; [done|by repeat constructor]);
    intros _;
    repeat match goal with H : String.eqb _ _ = true |- _ => apply String.eqb_eq in H end;
    auto.
Qed.

Lemma registered_job name w :
  consistent rt w -> JsMap.has name (jobs w) = true ->
  segment name
  /\ exists j job, JsMap.get name (jobs w) = Some j /\ jobObjs w !! j = Some job
       /\ job_name job = name.
Proof.
  intros Hc Hhas. unfold JsMap.has in Hhas.
  destruct (JsMap.get name (jobs w)) as [j|] eqn:Hget; [|done].
  assert (Hin : In (name, j) (jobs w)).
  { unfold JsMap.get in Hget. destruct (List.find _ _) as [[k v]|] eqn:Hfind; [|done].
    apply find_some in Hfind as [Hin Hk]. simpl in *. apply String.eqb_eq in Hk.
    by simplify_eq. }
  destruct (inv_registry _ _ Hc _ _ Hin) as (job & Hjob & Hjn & _ & Hok).
  split; [by apply name_ok_segment|]. by exists j, job.
Qed.

(** Extra X10.  A [POST] to the mailbox route of a registered job is
    answered with the message made of the job's name, the date and the text
    of the request, and appends it to the mailbox; a [GET] of the route then
    answers the job's earlier messages and this one, [/mailbox/count] counts
    one more message, and a [DELETE] of the route answers the same messages
    as the [GET] and removes them. *)
Theorem post_then_get name body h h' w :
  reachable rt w -> JsMap.has name (jobs w) = true ->
  let post := httpHandler rt (mkRequest "POST" (job_path name "mailbox") body) h w in
  let m := mkMessage name (date h) body in
  fst post = mkResponse 200 (JsonBody (JMessage m))
  /\ mailbox (snd post) = mailbox w ++ [m]
  /\ fst (httpHandler rt (mkRequest "GET" (job_path name "mailbox") "") h' (snd post))
     = mkResponse 200 (JsonBody (JMessages (Mailbox.getMessages name (mailbox w) ++ [m])))
  /\ fst (httpHandler rt (mkRequest "GET" "/mailbox/count" "") h' (snd post))
     = mkResponse 200 (JsonBody (JCount (S (length (mailbox w)))))
  /\ httpHandler rt (mkRequest "DELETE" (job_path name "mailbox") "") h' (snd post)
     = (mkResponse 200 (JsonBody (JMessages (Mailbox.getMessages name (mailbox w) ++ [m]))),
        set_mailbox (snd (Mailbox.clearMessages name (mailbox w))) (snd post)).
Proof.
  intros Hr Hhas. apply reachable_consistent in Hr.
  destruct (registered_job name w Hr Hhas) as (Hname & j & job & Hget & Hjob & Hjn).
  assert (Hcmd : segment "mailbox") by done.
  cbv zeta. rewrite !job_route by done.
  assert (Hpost : jobHandler rt (mkRequest "POST" (job_path name "mailbox") body) name "mailbox" h w
                  = (mkResponse 200 (JsonBody (JMessage (mkMessage name (date h) body))),
                     set_mailbox (mailbox w ++ [mkMessage name (date h) body]) w)).
  { unfold jobHandler. rewrite Hget. simpl. rewrite Hjob. simpl. by rewrite Hjn. }
  rewrite Hpost. cbn [fst snd].
  pose proof (getMessages_snoc name (mkMessage name (date h) body) (mailbox w)) as Hmine.
  simpl in Hmine. rewrite String.eqb_refl in Hmine.
  split_and!; try done.
  - unfold jobHandler. cbn [jobs jobObjs set_mailbox mailbox]. rewrite Hget. simpl.
    rewrite Hjob. simpl. by rewrite Hjn, Hmine.
  - unfold httpHandler, mailboxHandler. simpl.
    rewrite getAllMessages_all, length_app. simpl. do 4 f_equal. lia.
  - unfold jobHandler. cbn [jobs jobObjs set_mailbox mailbox]. rewrite Hget. simpl.
    rewrite Hjob. simpl. rewrite Hjn.
    unfold Mailbox.clearMessages, Database.deleteMany. cbn [fst snd].
    fold (Database.findMany (Mailbox.by_source name) (mailbox w ++ [mkMessage name (date h) body])).
    fold (Mailbox.getMessages name (mailbox w ++ [mkMessage name (date h) body])).
    rewrite Hmine. do 2 f_equal.
    rewrite List.filter_app. simpl. unfold Mailbox.by_source. simpl.
    rewrite String.eqb_refl. simpl. by rewrite app_nil_r.
Qed.




(** Extra X11.  [GET /job/<name>/status] of a registered job is answered
    200 with at most three runs: runs on record under the name, the most
    recent first, and no run of the job that is left out is more recent
    than one that is shown. *)
Theorem status_shows_latest_runs name body h w :
  reachable rt w -> JsMap.has name (jobs w) = true ->
  exists kind runs next pid,
    httpHandler rt (mkRequest "GET" (job_path name "status") body) h w
    = (mkResponse 200 (JsonBody (JStatus name kind (map (shown rt) runs) next pid)), w)
    /\ (length runs <= 3)%nat
    /\ StronglySorted not_older runs
    /\ (forall r, In r runs -> In r (statusDb w) /\ run_name r = name)
    /\ (forall r, In r (statusDb w) -> run_name r = name ->
          In r runs \/ length runs = 3%nat /\ Forall (fun r' => not_older r' r) runs).
Proof.
  intros Hr Hhas. apply reachable_consistent in Hr.
  destruct (registered_job name w Hr Hhas) as (Hseg & j & job & Hget & Hjob & Hjn).
  rewrite job_route by done. unfold jobHandler. rewrite Hget. simpl. rewrite Hjob, Hjn.
  cbn [method pathname]. simpl String.eqb.
  eexists _, (firstn 3 (getLastRuns name w)), _, _. split; [reflexivity|].
  pose proof (sort_runs_sorted (Database.findMany (by_name name) (statusDb w))) as Hsorted.
  pose proof (sort_runs_perm (Database.findMany (by_name name) (statusDb w))) as Hperm.
  fold (getLastRuns name w) in Hsorted, Hperm.
  assert (Hmem : forall r, In r (getLastRuns name w) <-> In r (statusDb w) /\ run_name r = name).
  { intros r. rewrite <- !list_elem_of_In, Hperm, !list_elem_of_In.
    unfold Database.findMany. rewrite filter_In. unfold by_name. by rewrite String.eqb_eq. }
  rewrite <- (firstn_skipn 3 (getLastRuns name w)) in Hsorted.
  apply StronglySorted_app_inv in Hsorted as [Hfirst Hrest].
  split_and!.
  - rewrite length_firstn. lia.
  - exact Hfirst.
  - intros r Hin. apply Hmem. rewrite <- (firstn_skipn 3 (getLastRuns name w)).
    apply in_or_app. by left.
  - intros r Hdb Hname.
    assert (Hin : In r (getLastRuns name w)) by (by apply Hmem).
    rewrite <- (firstn_skipn 3 (getLastRuns name w)) in Hin.
    apply in_app_or in Hin as [Hin|Hin]; [by left|]. right. split.
    + rewrite length_firstn. apply Nat.min_l.
      destruct (Nat.le_gt_cases 3 (length (getLastRuns name w))) as [|Hlt]; [done|].
      rewrite skipn_all2 in Hin by lia. done.
    + eapply Forall_impl; [exact Hrest|]. simpl. intros r' Hall.
      rewrite Forall_forall in Hall. apply Hall. by apply list_elem_of_In.
Qed.

End Http.


Lemma unknown_job_not_found_witness :
  httpHandler Sample.rt (mkRequest "DELETE" (job_path "b" "logs") "") Sample.h Sample.running
  = (mkResponse 404 (Text "Not Found"), Sample.running).
Proof.
  apply (unknown_job_not_found Sample.rt "DELETE" "b" "logs" "" Sample.h Sample.running).
  - done.
  - done.
  - vm_compute. reflexivity.
Defined.

Lemma root_lists_every_job_witness :
  exists l,
    httpHandler Sample.rt (mkRequest "GET" "/" "") Sample.h Sample.running
    = (mkResponse 200 (JsonBody (JJobs l)), Sample.running)
    /\ map fst l = map fst (jobs Sample.running)
    /\ Forall2 (fun entry kv =>
                  exists job, jobObjs Sample.running !! snd kv = Some job /\ entry = listed job)
         l (jobs Sample.running).
Proof.
  exact (root_lists_every_job Sample.rt "" Sample.h Sample.running running_reachable).
Defined.

Lemma post_then_get_witness :
  let w := Sample.running in
  let post := httpHandler Sample.rt (mkRequest "POST" (job_path "a" "mailbox") "done")
                Sample.h w in
  let m := mkMessage "a" (date Sample.h) "done" in
  fst post = mkResponse 200 (JsonBody (JMessage m))
  /\ mailbox (snd post) = mailbox w ++ [m]
  /\ fst (httpHandler Sample.rt (mkRequest "GET" (job_path "a" "mailbox") "") Sample.h (snd post))
     = mkResponse 200 (JsonBody (JMessages (Mailbox.getMessages "a" (mailbox w) ++ [m])))
  /\ fst (httpHandler Sample.rt (mkRequest "GET" "/mailbox/count" "") Sample.h (snd post))
     = mkResponse 200 (JsonBody (JCount (S (length (mailbox w)))))
  /\ httpHandler Sample.rt (mkRequest "DELETE" (job_path "a" "mailbox") "") Sample.h (snd post)
     = (mkResponse 200 (JsonBody (JMessages (Mailbox.getMessages "a" (mailbox w) ++ [m]))),
        set_mailbox (snd (Mailbox.clearMessages "a" (mailbox w))) (snd post)).
Proof.
  intros w.
  apply (post_then_get Sample.rt "a" "done" Sample.h Sample.h w running_reachable).
  vm_compute. reflexivity.
Defined.

Lemma status_shows_latest_runs_witness :
  let w := Sample.failed in
  exists kind runs next pid,
    httpHandler Sample.rt (mkRequest "GET" (job_path "a" "status") "") Sample.h w
    = (mkResponse 200 (JsonBody (JStatus "a" kind (map (shown Sample.rt) runs) next pid)), w)
    /\ (length runs <= 3)%nat
    /\ StronglySorted not_older runs
    /\ (forall r, In r runs -> In r (statusDb w) /\ run_name r = "a")
    /\ (forall r, In r (statusDb w) -> run_name r = "a" ->
          In r runs \/ length runs = 3%nat /\ Forall (fun r' => not_older r' r) runs).
Proof.
  intros w.
  apply (status_shows_latest_runs Sample.rt "a" "" Sample.h w failed_reachable).
  vm_compute. reflexivity.
Defined.


(** ** What the service writes to its stores *)

Section Stores.
Variable rt : Runtime.

Lemma stores_emit a act w : stores (emit a act w) = stores w.
Proof. done. Qed.
Lemma stores_set_executions v w : stores (set_executions v w) = stores w.
Proof. done. Qed.
Lemma stores_set_pc i pc w : stores (set_pc i pc w) = stores w.
Proof. done. Qed.
Lemma stores_set_jobs v w : stores (set_jobs v w) = stores w.
Proof. done. Qed.
Lemma stores_set_jobObjs v w : stores (set_jobObjs v w) = stores w.
Proof. done. Qed.
Lemma stores_set_signals v w : stores (set_signals v w) = stores w.
Proof. done. Qed.
Lemma stores_set_abortController v w : stores (set_abortController v w) = stores w.
Proof. done. Qed.
Lemma stores_set_scheduler v w : stores (set_scheduler v w) = stores w.
Proof. done. Qed.
Lemma stores_set_scheduleCalls v w : stores (set_scheduleCalls v w) = stores w.
Proof. done. Qed.
Lemma stores_set_startupCalls v w : stores (set_startupCalls v w) = stores w.
Proof. done. Qed.
Lemma stores_set_loadCalls v w : stores (set_loadCalls v w) = stores w.
Proof. done. Qed.
Lemma stores_set_schedule_pc s pc w : stores (set_schedule_pc s pc w) = stores w.
Proof. done. Qed.
Lemma stores_set_startup_pc t pc w : stores (set_startup_pc t pc w) = stores w.
Proof. done. Qed.
Lemma stores_set_load_pc l pc w : stores (set_load_pc l pc w) = stores w.
Proof. done. Qed.
Lemma stores_logStderr a s w : stores (logStderr a s w) = stores w.
Proof. done. Qed.

Create Rewrite HintDb stores.
Hint Rewrite stores_emit stores_set_executions stores_set_pc stores_set_jobs
  stores_set_jobObjs stores_set_signals stores_set_abortController stores_set_scheduler
  stores_set_scheduleCalls stores_set_startupCalls stores_set_loadCalls
  stores_set_schedule_pc stores_set_startup_pc stores_set_load_pc stores_logStderr : stores.

Lemma stores_executeJob caller j x w : stores (executeJob rt caller j x w) = stores w.
Proof. unfold executeJob. repeat case_match; by autorewrite with stores. Qed.

Lemma stores_fold_emit (ls : list (nat * Process)) w :
  stores (fold_left (fun w l => emit (AListener (fst l)) (ActKill (snd l)) w) ls w) = stores w.
Proof. revert w. induction ls as [|l ls IH]; intros w; simpl; [done|]. by rewrite IH. Qed.

Lemma stores_abort sig w : stores (abort sig w) = stores w.
Proof.
  unfold abort. repeat case_match; try done. by rewrite stores_fold_emit.
Qed.

Lemma stores_unregister_job w j : stores (unregister_job w j) = stores w.
Proof. unfold unregister_job, unregisterTask. by repeat case_match. Qed.

Lemma stores_fold_unregister js w : stores (fold_left unregister_job js w) = stores w.
Proof.
  revert w. induction js as [|j js IH]; intros w; simpl; [done|].
  by rewrite IH, stores_unregister_job.
Qed.

Lemma stores_reset w : stores (reset w) = stores w.
Proof.
  unfold reset. cbv zeta. autorewrite with stores.
  by rewrite stores_fold_unregister, stores_abort.
Qed.

Lemma stores_startup_loop t j x w : stores (startup_loop rt t j x w) = stores w.
Proof.
  unfold startup_loop. repeat case_match; autorewrite with stores; try done.
  apply stores_executeJob.
Qed.

Lemma stores_startup name command options x w :
  stores (startup rt name command options x w) = stores w.
Proof.
  unfold startup. cbv zeta. case_match; [|by autorewrite with stores].
  rewrite stores_startup_loop. by autorewrite with stores.
Qed.

Lemma stores_schedule name expr command options w :
  stores (schedule rt name expr command options w) = stores w.
Proof.
  unfold schedule, registerTask. cbv zeta. simpl snd.
  repeat case_match; by autorewrite with stores.
Qed.

Lemma stores_catch_up s c run' x w : stores (catch_up rt s c run' x w) = stores w.
Proof.
  unfold catch_up. case_match; autorewrite with stores; [|done]. apply stores_executeJob.
Qed.

Lemma stores_start_all x entries w : stores (start_all rt x entries w) = stores w.
Proof.
  unfold start_all. revert w. induction entries as [|e es IH]; intros w; simpl; [done|].
  by rewrite IH, stores_startup.
Qed.

Lemma stores_schedule_all entries w : stores (schedule_all rt entries w) = stores w.
Proof.
  unfold schedule_all. revert w. induction entries as [|e es IH]; intros w; simpl; [done|].
  by rewrite IH, stores_schedule.
Qed.

Lemma stores_load path w : stores (load path w) = stores w.
Proof. unfold load. cbv zeta. autorewrite with stores. by rewrite stores_reset. Qed.

Lemma updateOne_keys q (upd : RunStatusEntry -> RunStatusEntry) db :
  (forall r, run_key (upd r) = run_key r) ->
  map run_key (Database.updateOne q upd db) = map run_key db.
Proof.
  intros Hupd. induction db as [|r db IH]; simpl; [done|].
  case_match; simpl; [by rewrite Hupd|by rewrite IH].
Qed.

Lemma nothing_posted (mb : Mailbox.t) :
  exists posted,
    mb = mb ++ posted
    /\ Forall (fun m => source m = "@errors") posted /\ (length posted <= 1)%nat.
Proof. exists []. rewrite app_nil_r. repeat split; [constructor|simpl; lia]. Qed.

(** What a step appends to the stores. *)
Lemma step_stores l w w' :
  step rt l w = Some w' -> (forall req h, l <> Serve req h) ->
  (exists more, map run_key (statusDb w') = map run_key (statusDb w) ++ more)
  /\ exists posted,
       mailbox w' = mailbox w ++ posted
       /\ Forall (fun m => source m = "@errors") posted /\ (length posted <= 1)%nat.
Proof.
  intros Hstep Hserve.
  assert (Hsame : stores w' = stores w ->
    (exists more, map run_key (statusDb w') = map run_key (statusDb w) ++ more)
    /\ exists posted,
         mailbox w' = mailbox w ++ posted
         /\ Forall (fun m => source m = "@errors") posted /\ (length posted <= 1)%nat).
  { intros [= -> ->]. split; [exists []; by rewrite app_nil_r|apply nothing_posted]. }
  destruct l; simpl in Hstep.
  - injection Hstep as <-. apply Hsame, stores_startup.
  - injection Hstep as <-. apply Hsame, stores_schedule.
  - injection Hstep as <-. apply Hsame, stores_reset.
  - injection Hstep as <-. apply Hsame, stores_load.
  - unfold callback in Hstep. apply Hsame.
    destruct (List.find _ _); [|done]. simpl in Hstep.
    destruct (jobObjs w !! _); [|done]. simpl in Hstep.
    case_match; injection Hstep as <-; [done|apply stores_executeJob].
  - unfold executeJob_resume in Hstep.
    destruct (executions w !! i) as [e|]; [|done]. simpl in Hstep.
    destruct (jobObjs w !! exec_job e) as [job|]; [|done]. simpl in Hstep.
    destruct (exec_pc e); try done; injection Hstep as <-; try (by apply Hsame).
    + split; [|apply nothing_posted].
      eexists [_]. simpl. unfold Database.insertOne. by rewrite map_app.
    + split; [|apply nothing_posted].
      exists []. rewrite app_nil_r. simpl. by apply updateOne_keys.
    + destruct (negb (code =? 0)); simpl; (split; [by exists []; rewrite app_nil_r|]).
      * eexists [_]. repeat split; [by repeat constructor|simpl; lia].
      * apply nothing_posted.
  - apply Hsame. unfold schedule_resume in Hstep.
    destruct (scheduleCalls w !! s); [|done]. simpl in Hstep.
    destruct (sc_pc _); try done.
    + case_match; injection Hstep as <-; autorewrite with stores; [done|].
      apply stores_catch_up.
    + injection Hstep as <-. apply stores_catch_up.
    + destruct (executions w !! i); [|done]. simpl in Hstep.
      case_match; [|done]. injection Hstep as <-. apply stores_catch_up.
  - apply Hsame. unfold startup_resume in Hstep.
    destruct (startupCalls w !! t); [|done]. simpl in Hstep.
    destruct (su_pc _); try done.
    + destruct (executions w !! i); [|done]. simpl in Hstep.
      repeat case_match; try done; injection Hstep as <-; by autorewrite with stores.
    + injection Hstep as <-. apply stores_startup_loop.
  - apply Hsame. unfold load_resume in Hstep.
    destruct (loadCalls w !! l); [|done]. simpl in Hstep.
    destruct (ld_pc _); try done.
    repeat case_match; injection Hstep as <-; autorewrite with stores; try done.
    by rewrite stores_schedule_all, stores_start_all.
  - by destruct (Hserve req h).
Qed.

(** Extra X12.  Whatever the service does, the run-status store only grows
    at its end: the id, the name and the start time of a run on record stay
    as they are and in their place. *)
Theorem statusDb_append_only ls w w' :
  run rt ls w = Some w' ->
  exists more, map run_key (statusDb w') = map run_key (statusDb w) ++ more.
Proof.
  revert w. induction ls as [|l ls IH]; intros w; simpl.
  - intros [= <-]. exists []. by rewrite app_nil_r.
  - destruct (step rt l w) as [w1|] eqn:Hstep; [|done]. simpl. intros Hrun.
    destruct (IH _ Hrun) as (more2 & H2).
    assert (H1 : exists more, map run_key (statusDb w1) = map run_key (statusDb w) ++ more).
    { destruct l; try (by eapply step_stores).
      simpl in Hstep. injection Hstep as <-. exists []. rewrite app_nil_r.
      unfold httpHandler, jobHandler, mailboxHandler. by repeat case_match. }
    destruct H1 as (more1 & H1). exists (more1 ++ more2). by rewrite H2, H1, app_assoc.
Qed.

(** Extra X13.  A step of the service that is not a request to the server
    leaves the messages of the mailbox as they are and posts at most one
    more, from the source "@errors". *)
Theorem service_posts_errors_only l w w' :
  step rt l w = Some w' -> (forall req h, l <> Serve req h) ->
  exists posted,
    mailbox w' = mailbox w ++ posted
    /\ Forall (fun m => source m = "@errors") posted /\ (length posted <= 1)%nat.
Proof. intros Hstep Hserve. by destruct (step_stores l w w' Hstep Hserve). Qed.

End Stores.


Lemma statusDb_append_only_witness :
  exists more,
    map run_key (statusDb Sample.failed) = map run_key (statusDb Sample.fresh) ++ more.
Proof.
  apply (statusDb_append_only Sample.rt (Sample.entered ++ Sample.one_run 0 Sample.x_fail)).
  apply or_else_Some. vm_compute. reflexivity.
Defined.

Lemma service_posts_errors_only_witness :
  exists posted,
    mailbox Sample.posting = mailbox Sample.exited ++ posted
    /\ Forall (fun m => source m = "@errors") posted /\ (length posted <= 1)%nat.
Proof.
  apply (service_posts_errors_only Sample.rt (ResumeExecute 0 Sample.x_fail)).
  - apply or_else_Some. vm_compute. reflexivity.
  - done.
Defined.


(** ** The registry and the scheduler *)

Lemma JsMap_get_set_ne {V} k k' (v : V) m :
  k <> k' -> JsMap.get k (JsMap.set k' v m) = JsMap.get k m.
Proof.
  intros Hne. unfold JsMap.get. induction m as [|[k0 v0] m IH]; simpl.
  - by destruct (String.eqb_spec k' k); [congruence|].
  - destruct (String.eqb_spec k0 k') as [->|Hk]; simpl.
    + by destruct (String.eqb_spec k' k); [congruence|].
    + destruct (String.eqb_spec k0 k); [done|]. exact IH.
Qed.

Lemma validateName_registered name w :
  JsMap.has name (jobs w) = true -> validateName name w <> Returns tt.
Proof. intros Hhas. unfold validateName. rewrite Hhas. by case_match. Qed.

Section Registry.
Variable rt : Runtime.

Lemma registry_emit a act w : registry (emit a act w) = registry w.
Proof. done. Qed.
Lemma registry_set_executions v w : registry (set_executions v w) = registry w.
Proof. done. Qed.
Lemma registry_set_pc i pc w : registry (set_pc i pc w) = registry w.
Proof. done. Qed.
Lemma registry_set_statusDb v w : registry (set_statusDb v w) = registry w.
Proof. done. Qed.
Lemma registry_set_mailbox v w : registry (set_mailbox v w) = registry w.
Proof. done. Qed.
Lemma registry_set_signals v w : registry (set_signals v w) = registry w.
Proof. done. Qed.
Lemma registry_set_abortController v w : registry (set_abortController v w) = registry w.
Proof. done. Qed.
Lemma registry_set_scheduleCalls v w : registry (set_scheduleCalls v w) = registry w.
Proof. done. Qed.
Lemma registry_set_startupCalls v w : registry (set_startupCalls v w) = registry w.
Proof. done. Qed.
Lemma registry_set_loadCalls v w : registry (set_loadCalls v w) = registry w.
Proof. done. Qed.
Lemma registry_set_schedule_pc s pc w : registry (set_schedule_pc s pc w) = registry w.
Proof. done. Qed.
Lemma registry_set_startup_pc t pc w : registry (set_startup_pc t pc w) = registry w.
Proof. done. Qed.
Lemma registry_set_load_pc l pc w : registry (set_load_pc l pc w) = registry w.
Proof. done. Qed.
Lemma registry_logStderr a s w : registry (logStderr a s w) = registry w.
Proof. done. Qed.
Lemma registry_writeAllString a s w : registry (writeAllString a s w) = registry w.
Proof. done. Qed.
Lemma registry_addEventListener a sig i p w :
  registry (addEventListener a sig i p w) = registry w.
Proof. done. Qed.
Lemma registry_removeEventListener a sig i w :
  registry (removeEventListener a sig i w) = registry w.
Proof. done. Qed.

Lemma types_alter_process p j (objs : list Job) :
  job_type <$> alter (with_process p) j objs = job_type <$> objs.
Proof.
  apply list_eq. intros k. rewrite !list_lookup_fmap.
  destruct (decide (k = j)) as [->|Hne].
  - rewrite list_lookup_alter_eq. by destruct (objs !! j).
  - by rewrite list_lookup_alter_ne.
Qed.

Lemma registry_set_process a j p w : registry (set_process a j p w) = registry w.
Proof. unfold registry, set_process. simpl. by rewrite types_alter_process. Qed.

Create Rewrite HintDb registry.
Hint Rewrite registry_emit registry_set_executions registry_set_pc registry_set_statusDb
  registry_set_mailbox registry_set_signals registry_set_abortController
  registry_set_scheduleCalls registry_set_startupCalls registry_set_loadCalls
  registry_set_schedule_pc registry_set_startup_pc registry_set_load_pc registry_logStderr
  registry_writeAllString registry_addEventListener registry_removeEventListener
  registry_set_process : registry.

Lemma registry_executeJob caller j x w : registry (executeJob rt caller j x w) = registry w.
Proof. unfold executeJob. repeat case_match; by autorewrite with registry. Qed.

Lemma registry_executeJob_resume i x w w' :
  executeJob_resume rt i x w = Some w' -> registry w' = registry w.
Proof.
  unfold executeJob_resume.
  destruct (executions w !! i) as [e|]; [|done]. simpl.
  destruct (jobObjs w !! exec_job e) as [job|]; [|done]. simpl.
  destruct (exec_pc e); try done; intros [= <-]; autorewrite with registry; try done.
  destruct (negb (code =? 0)); by autorewrite with registry.
Qed.

Lemma registry_fold_emit (ls : list (nat * Process)) w :
  registry (fold_left (fun w l => emit (AListener (fst l)) (ActKill (snd l)) w) ls w)
  = registry w.
Proof. revert w. induction ls as [|l ls IH]; intros w; simpl; [done|]. by rewrite IH. Qed.

Lemma registry_abort sig w : registry (abort sig w) = registry w.
Proof. unfold abort. repeat case_match; try done. by rewrite registry_fold_emit. Qed.

Lemma registry_startup_loop t j x w : registry (startup_loop rt t j x w) = registry w.
Proof.
  unfold startup_loop. repeat case_match; autorewrite with registry; try done.
  apply registry_executeJob.
Qed.

Lemma registry_catch_up s c run' x w : registry (catch_up rt s c run' x w) = registry w.
Proof.
  unfold catch_up. case_match; autorewrite with registry; [|done]. apply registry_executeJob.
Qed.

Lemma registry_httpHandler req h w : registry (snd (httpHandler rt req h w)) = registry w.
Proof. unfold httpHandler, jobHandler, mailboxHandler. by repeat case_match. Qed.

Lemma registry_jobs w w' : registry w' = registry w -> jobs w' = jobs w.
Proof. intros H. exact (f_equal (fun r => fst (fst r)) H). Qed.

Lemma registry_scheduler w w' : registry w' = registry w -> scheduler w' = scheduler w.
Proof. intros H. exact (f_equal (fun r => snd (fst r)) H). Qed.

Lemma task_registered_same w w' task :
  registry w' = registry w -> task_registered w task -> task_registered w' task.
Proof. unfold task_registered. by intros [= -> _ ->]. Qed.

Lemma tasks_registered_same w w' :
  registry w' = registry w ->
  Forall (task_registered w) (tasks (scheduler w)) ->
  Forall (task_registered w') (tasks (scheduler w')).
Proof.
  intros Hreg Hall. assert (Hs : scheduler w' = scheduler w) by (by injection Hreg).
  rewrite Hs. eapply Forall_impl; [exact Hall|]. intros task. by apply task_registered_same.
Qed.

Lemma JsMap_set_fresh {V} k (v : V) m kv :
  JsMap.has k m = false -> In kv (JsMap.set k v m) <-> kv = (k, v) \/ In kv m.
Proof.
  unfold JsMap.has, JsMap.get. induction m as [|[k0 v0] m IH]; simpl.
  - intros _. split; [intros [<-|[]]; by left|intros [->|[]]; by left].
  - destruct (String.eqb k0 k) eqn:Hk; simpl; [done|]. intros Hfresh.
    specialize (IH Hfresh). split.
    + intros [<-|Hin]; [right; by left|]. apply IH in Hin as [->|Hin]; [by left|].
      right. by right.
    + intros [->|[<-|Hin]]; [right; apply IH; by left|by left|]. right. apply IH. by right.
Qed.

Lemma validateName_fresh name w :
  validateName name w = Returns tt -> JsMap.has name (jobs w) = false.
Proof.
  unfold validateName. destruct (_ || _); [done|]. by destruct (JsMap.has name (jobs w)).
Qed.

(** A job is registered under a new name. *)
Lemma task_registered_register w w' name job task :
  validateName name w = Returns tt ->
  jobs w' = JsMap.set name (length (jobObjs w)) (jobs w) ->
  jobObjs w' = jobObjs w ++ [job] ->
  task_registered w task -> task_registered w' task.
Proof.
  intros Hname Hj Ho [Hin Htype]. unfold task_registered. rewrite Hj, Ho. split.
  - apply JsMap_set_fresh; [by apply validateName_fresh|by right].
  - rewrite fmap_app. by apply lookup_app_l_Some.
Qed.

Lemma tasks_registered_startup name command options x w :
  Forall (task_registered w) (tasks (scheduler w)) ->
  Forall (task_registered (startup rt name command options x w))
    (tasks (scheduler (startup rt name command options x w))).
Proof.
  intros Hall. unfold startup. cbv zeta.
  destruct (validateName name (emit _ _ w)) as [[]|e] eqn:Hname.
  - eapply tasks_registered_same; [apply registry_startup_loop|].
    cbn [scheduler set_startupCalls set_jobs set_jobObjs emit set_trace].
    eapply Forall_impl; [exact Hall|]. intros task Ht.
    eapply (task_registered_register w); [exact Hname|done|done|done].
  - eapply tasks_registered_same; [|exact Hall]. by autorewrite with registry.
Qed.

Lemma tasks_registered_schedule name expr command options w :
  Forall (task_registered w) (tasks (scheduler w)) ->
  Forall (task_registered (schedule rt name expr command options w))
    (tasks (scheduler (schedule rt name expr command options w))).
Proof.
  intros Hall. unfold schedule. cbv zeta.
  destruct (validateName name (emit _ _ w)) as [[]|e] eqn:Hname.
  - destruct (parseCronExpression rt expr) as [cron|].
    + unfold registerTask. simpl fst. simpl snd.
      cbn [scheduler tasks set_scheduleCalls set_jobs set_jobObjs set_scheduler emit set_trace].
      apply Forall_app. split.
      * eapply Forall_impl; [exact Hall|]. intros task Ht.
        eapply (task_registered_register w); [exact Hname|done|done|done].
      * constructor; [|constructor]. split; simpl.
        -- apply JsMap_set_fresh; [|by left].
           exact (validateName_fresh _ _ Hname).
        -- rewrite fmap_app, lookup_app_r by (rewrite length_fmap; lia).
           by rewrite length_fmap, Nat.sub_diag.
    + eapply tasks_registered_same; [|exact Hall]. by autorewrite with registry.
  - eapply tasks_registered_same; [|exact Hall]. by autorewrite with registry.
Qed.

Lemma filter_twice {A} (f g : A -> bool) (l : list A) :
  List.filter f (List.filter g l) = List.filter (fun a => g a && f a) l.
Proof.
  induction l as [|a l IH]; simpl; [done|].
  destruct (g a); simpl; [destruct (f a)|]; by rewrite IH.
Qed.

Lemma fold_unregister_tasks js w :
  registry (fold_left unregister_job js w)
  = (jobs w,
     mkScheduler
       (List.filter (fun t => negb (unregistered (job_type <$> jobObjs w) js t))
          (tasks (scheduler w)))
       (nextTaskId (scheduler w)),
     job_type <$> jobObjs w).
Proof.
  revert w. induction js as [|j js IH]; intros w; simpl.
  - unfold registry. do 2 f_equal. destruct (scheduler w) as [ts n]. simpl. f_equal.
    induction ts as [|t ts IHts]; simpl; [done|]. by rewrite <- IHts.
  - rewrite IH. clear IH. unfold unregister_job, unregisterTask.
    assert (Hty : (job_type <$> jobObjs w) !! j = job_type <$> jobObjs w !! j)
      by apply list_lookup_fmap.
    destruct (jobObjs w !! j) as [job|]; simpl in *; [|by rewrite Hty].
    rewrite Hty. destruct (job_type job) as [|cron id]; simpl; [done|].
    do 3 f_equal. rewrite filter_twice. apply List.filter_ext. intros t.
    by rewrite negb_orb.
Qed.

Lemma reset_registry w :
  Forall (task_registered w) (tasks (scheduler w)) ->
  jobs (reset w) = [] /\ tasks (scheduler (reset w)) = [].
Proof.
  intros Hall. unfold reset. cbv zeta. split; [done|].
  cbn [scheduler set_abortController set_signals set_jobs].
  set (w1 := abort _ (emit AService ActReset w)).
  assert (Hreg : registry w1 = registry w).
  { subst w1. by rewrite registry_abort. }
  pose proof (fold_unregister_tasks (JsMap.values (jobs w1)) w1) as Hfold.
  assert (Hs : scheduler (fold_left unregister_job (JsMap.values (jobs w1)) w1)
               = mkScheduler
                   (List.filter
                      (fun t => negb (unregistered (job_type <$> jobObjs w1)
                                        (JsMap.values (jobs w1)) t))
                      (tasks (scheduler w1)))
                   (nextTaskId (scheduler w1))) by (by injection Hfold).
  rewrite Hs. simpl. injection Hreg as Hj Hsch Hty. rewrite Hj, Hsch, Hty.
  apply filter_none. intros task Hin.
  rewrite Forall_forall in Hall. apply list_elem_of_In in Hin.
  destruct (Hall _ Hin) as [Hreg Htype].
  apply negb_false_iff. apply existsb_exists. exists (task_job task). split.
  - unfold JsMap.values. apply in_map_iff. by exists (task_name task, task_job task).
  - rewrite Htype. apply Nat.eqb_refl.
Qed.

Lemma tasks_registered_reset w :
  Forall (task_registered w) (tasks (scheduler w)) ->
  Forall (task_registered (reset w)) (tasks (scheduler (reset w))).
Proof. intros Hall. destruct (reset_registry w Hall) as [_ ->]. constructor. Qed.

Lemma tasks_registered_load path w :
  Forall (task_registered w) (tasks (scheduler w)) ->
  Forall (task_registered (load path w)) (tasks (scheduler (load path w))).
Proof.
  intros Hall. unfold load. cbv zeta.
  eapply tasks_registered_same; [by autorewrite with registry|].
  apply tasks_registered_reset. eapply tasks_registered_same; [|exact Hall]. done.
Qed.

Lemma tasks_registered_start_all x entries w :
  Forall (task_registered w) (tasks (scheduler w)) ->
  Forall (task_registered (start_all rt x entries w))
    (tasks (scheduler (start_all rt x entries w))).
Proof.
  unfold start_all. revert w. induction entries as [|e es IH]; intros w Hall; simpl; [done|].
  by apply IH, tasks_registered_startup.
Qed.

Lemma tasks_registered_schedule_all entries w :
  Forall (task_registered w) (tasks (scheduler w)) ->
  Forall (task_registered (schedule_all rt entries w))
    (tasks (scheduler (schedule_all rt entries w))).
Proof.
  unfold schedule_all. revert w. induction entries as [|e es IH]; intros w Hall; simpl; [done|].
  by apply IH, tasks_registered_schedule.
Qed.

Lemma tasks_registered_step l w w' :
  step rt l w = Some w' ->
  Forall (task_registered w) (tasks (scheduler w)) ->
  Forall (task_registered w') (tasks (scheduler w')).
Proof.
  intros Hstep Hall. destruct l; simpl in Hstep.
  - injection Hstep as <-. by apply tasks_registered_startup.
  - injection Hstep as <-. by apply tasks_registered_schedule.
  - injection Hstep as <-. by apply tasks_registered_reset.
  - injection Hstep as <-. by apply tasks_registered_load.
  - eapply tasks_registered_same; [|exact Hall]. unfold callback in Hstep.
    destruct (List.find _ _); [|done]. simpl in Hstep.
    destruct (jobObjs w !! _); [|done]. simpl in Hstep.
    case_match; injection Hstep as <-; [done|apply registry_executeJob].
  - eapply tasks_registered_same; [|exact Hall]. by eapply registry_executeJob_resume.
  - eapply tasks_registered_same; [|exact Hall]. unfold schedule_resume in Hstep.
    destruct (scheduleCalls w !! s); [|done]. simpl in Hstep.
    destruct (sc_pc _); try done.
    + case_match; injection Hstep as <-; autorewrite with registry; [done|].
      apply registry_catch_up.
    + injection Hstep as <-. apply registry_catch_up.
    + destruct (executions w !! i); [|done]. simpl in Hstep.
      case_match; [|done]. injection Hstep as <-. apply registry_catch_up.
  - eapply tasks_registered_same; [|exact Hall]. unfold startup_resume in Hstep.
    destruct (startupCalls w !! t); [|done]. simpl in Hstep.
    destruct (su_pc _); try done.
    + destruct (executions w !! i); [|done]. simpl in Hstep.
      repeat case_match; try done; injection Hstep as <-; by autorewrite with registry.
    + injection Hstep as <-. apply registry_startup_loop.
  - unfold load_resume in Hstep.
    destruct (loadCalls w !! l); [|done]. simpl in Hstep.
    destruct (ld_pc _); try done.
    repeat case_match; injection Hstep as <-;
      try (eapply tasks_registered_same; [|exact Hall]; by autorewrite with registry).
    eapply tasks_registered_same; [by autorewrite with registry|].
    by apply tasks_registered_schedule_all, tasks_registered_start_all.
  - injection Hstep as <-.
    eapply tasks_registered_same; [apply registry_httpHandler|done].
Qed.

Lemma tasks_registered_run ls w w' :
  run rt ls w = Some w' ->
  Forall (task_registered w) (tasks (scheduler w)) ->
  Forall (task_registered w') (tasks (scheduler w')).
Proof.
  revert w. induction ls as [|l ls IH]; intros w; simpl.
  - by intros [= <-].
  - destruct (step rt l w) as [w1|] eqn:Hstep; [|done]. simpl. intros Hrun H0.
    apply (IH w1); [done|]. by eapply tasks_registered_step.
Qed.

(** Extra X14.  In every world the service reaches, each task of the
    scheduler belongs to a job of the registry: the job is registered under
    the name of the task and is a scheduled job with the cron expression and
    the id of the task. *)
Theorem tasks_belong_to_registered_jobs w :
  reachable rt w -> Forall (task_registered w) (tasks (scheduler w)).
Proof.
  intros (port' & dir & db & mb & ls & Hrun).
  eapply tasks_registered_run; [exact Hrun|]. constructor.
Qed.

(** Extra X15.  [reset] leaves no job in the registry and no task in the
    scheduler: no task fires any more, and no name is refused as a
    duplicate. *)
Theorem reset_removes_jobs_and_tasks w :
  reachable rt w ->
  jobs (reset w) = []
  /\ tasks (scheduler (reset w)) = []
  /\ (forall id x, callback rt id x (reset w) = None)
  /\ (forall name, validateName name (reset w) <> Throws DuplicateName).
Proof.
  intros (port' & dir & db & mb & ls & Hrun).
  assert (Hall : Forall (task_registered w) (tasks (scheduler w)))
    by (eapply tasks_registered_run; [exact Hrun|constructor]).
  destruct (reset_registry w Hall) as [Hj Ht].
  split_and!; try done.
  - intros id x. unfold callback. by rewrite Ht.
  - intros name. unfold validateName. rewrite Hj. by case_match.
Qed.

Lemma load_resume_rejected W l path file x w' :
  unloadable rt file ->
  loadCalls W !! l = Some (mkLoadCall path LAwaitRead) ->
  load_resume rt l file x W = Some w' ->
  registry w' = registry W
  /\ exists e, loadCalls w' !! l = Some (mkLoadCall path (LRejected e)).
Proof.
  intros Hbad Hl Hstep. unfold load_resume in Hstep. rewrite Hl in Hstep. simpl in Hstep.
  assert (Hrej : exists e, w' = set_load_pc l (LRejected e) (emit (ALoad l) (ActThrow e) W)).
  { unfold unloadable in Hbad.
    destruct file as [text|e]; [|injection Hstep as <-; by eexists].
    destruct (parseToml rt text) as [doc|]; [|injection Hstep as <-; by eexists].
    destruct (Schema.parse doc); [done|]. injection Hstep as <-. by eexists. }
  destruct Hrej as [e ->]. split; [by autorewrite with registry|].
  exists e. cbn [loadCalls set_load_pc set_loadCalls emit set_trace].
  by rewrite list_lookup_alter_eq, Hl.
Qed.

Lemma load_registry path w :
  Forall (task_registered w) (tasks (scheduler w)) ->
  jobs (load path w) = [] /\ tasks (scheduler (load path w)) = [].
Proof.
  intros Hall.
  assert (Hreg : registry (load path w)
                 = registry (reset (emit (ALoad (length (loadCalls w))) (ActCallLoad path) w))).
  { unfold load. cbv zeta. by autorewrite with registry. }
  destruct (reset_registry (emit (ALoad (length (loadCalls w))) (ActCallLoad path) w))
    as [Hj Ht]; [done|].
  by rewrite (registry_jobs _ _ Hreg), (registry_scheduler _ _ Hreg).
Qed.

(** Extra X16.  When [load] fails, because the file cannot be read, is not
    TOML or is rejected by the schema, the call is rejected and the service
    is left without any job and without any task: the jobs of before are
    not restored. *)
Theorem failed_load_removes_every_job path file x w w' :
  reachable rt w -> unloadable rt file ->
  load_resume rt (length (loadCalls w)) file x (load path w) = Some w' ->
  jobs w' = [] /\ tasks (scheduler w') = []
  /\ exists e, loadCalls w' !! length (loadCalls w) = Some (mkLoadCall path (LRejected e)).
Proof.
  intros Hr Hbad Hstep.
  assert (Hall : Forall (task_registered w) (tasks (scheduler w))).
  { destruct Hr as (port' & dir & db & mb & ls & Hrun).
    eapply tasks_registered_run; [exact Hrun|constructor]. }
  destruct (load_registry path w Hall) as [Hj Ht].
  destruct (load_calls rt path w (reachable_consistent rt w Hr)) as (_ & _ & _ & Hl).
  destruct (load_resume_rejected (load path w) (length (loadCalls w)) path file x w' Hbad)
    as [Hreg Hrej]; [|exact Hstep|].
  { rewrite Hl. by rewrite lookup_app_r, Nat.sub_diag by lia. }
  rewrite (registry_jobs _ _ Hreg), (registry_scheduler _ _ Hreg). by split_and!.
Qed.

Lemma registry_startup_refused name command options x w :
  validateName name w <> Returns tt ->
  registry (startup rt name command options x w) = registry w.
Proof.
  intros Hv. unfold startup. cbv zeta.
  replace (validateName name (emit _ _ w)) with (validateName name w) by done.
  destruct (validateName name w) as [[]|e]; [done|]. by autorewrite with registry.
Qed.

Lemma registry_schedule_refused name expr command options w :
  validateName name w <> Returns tt ->
  registry (schedule rt name expr command options w) = registry w.
Proof.
  intros Hv. unfold schedule. cbv zeta.
  replace (validateName name (emit _ _ w)) with (validateName name w) by done.
  destruct (validateName name w) as [[]|e]; [done|]. by autorewrite with registry.
Qed.

Lemma get_startup name name' command options x w :
  JsMap.has name (jobs w) = true ->
  JsMap.get name (jobs (startup rt name' command options x w)) = JsMap.get name (jobs w).
Proof.
  intros Hhas. destruct (decide (name' = name)) as [->|Hne].
  - f_equal. apply registry_jobs, registry_startup_refused. by apply validateName_registered.
  - unfold startup. cbv zeta. case_match; [|done].
    rewrite (registry_jobs _ _ (registry_startup_loop _ _ _ _)).
    cbn [jobs set_startupCalls set_jobs]. by apply JsMap_get_set_ne.
Qed.

Lemma get_schedule name name' expr command options w :
  JsMap.has name (jobs w) = true ->
  JsMap.get name (jobs (schedule rt name' expr command options w)) = JsMap.get name (jobs w).
Proof.
  intros Hhas. destruct (decide (name' = name)) as [->|Hne].
  - f_equal. apply registry_jobs, registry_schedule_refused. by apply validateName_registered.
  - unfold schedule, registerTask. cbv zeta. simpl snd. repeat case_match; try done.
    cbn [jobs set_scheduleCalls set_jobs]. by apply JsMap_get_set_ne.
Qed.

Lemma has_same name w w' :
  JsMap.get name (jobs w') = JsMap.get name (jobs w) ->
  JsMap.has name (jobs w) = true -> JsMap.has name (jobs w') = true.
Proof. unfold JsMap.has. by intros ->. Qed.

Lemma get_start_all name x entries w :
  JsMap.has name (jobs w) = true ->
  JsMap.get name (jobs (start_all rt x entries w)) = JsMap.get name (jobs w).
Proof.
  unfold start_all. revert w. induction entries as [|e es IH]; intros w Hhas; simpl; [done|].
  rewrite IH by (eapply has_same; [by apply get_startup|done]). by apply get_startup.
Qed.

Lemma get_schedule_all name entries w :
  JsMap.has name (jobs w) = true ->
  JsMap.get name (jobs (schedule_all rt entries w)) = JsMap.get name (jobs w).
Proof.
  unfold schedule_all. revert w. induction entries as [|e es IH]; intros w Hhas; simpl; [done|].
  rewrite IH by (eapply has_same; [by apply get_schedule|done]). by apply get_schedule.
Qed.

(** A step other than [reset] and [load] keeps a job under its name. *)
Lemma get_step name l w w' :
  keeps_jobs l = true -> step rt l w = Some w' -> JsMap.has name (jobs w) = true ->
  JsMap.get name (jobs w') = JsMap.get name (jobs w).
Proof.
  intros Hl Hstep Hhas.
  assert (Hsame : registry w' = registry w -> JsMap.get name (jobs w') = JsMap.get name (jobs w)).
  { intros Hreg. by rewrite (registry_jobs _ _ Hreg). }
  destruct l; simpl in Hstep; try done.
  - injection Hstep as <-. by apply get_startup.
  - injection Hstep as <-. by apply get_schedule.
  - apply Hsame. unfold callback in Hstep.
    destruct (List.find _ _); [|done]. simpl in Hstep.
    destruct (jobObjs w !! _); [|done]. simpl in Hstep.
    case_match; injection Hstep as <-; [done|apply registry_executeJob].
  - apply Hsame. by eapply registry_executeJob_resume.
  - apply Hsame. unfold schedule_resume in Hstep.
    destruct (scheduleCalls w !! s); [|done]. simpl in Hstep.
    destruct (sc_pc _); try done.
    + case_match; injection Hstep as <-; autorewrite with registry; [done|].
      apply registry_catch_up.
    + injection Hstep as <-. apply registry_catch_up.
    + destruct (executions w !! i); [|done]. simpl in Hstep.
      case_match; [|done]. injection Hstep as <-. apply registry_catch_up.
  - apply Hsame. unfold startup_resume in Hstep.
    destruct (startupCalls w !! t); [|done]. simpl in Hstep.
    destruct (su_pc _); try done.
    + destruct (executions w !! i); [|done]. simpl in Hstep.
      repeat case_match; try done; injection Hstep as <-; by autorewrite with registry.
    + injection Hstep as <-. apply registry_startup_loop.
  - unfold load_resume in Hstep.
    destruct (loadCalls w !! l); [|done]. simpl in Hstep.
    destruct (ld_pc _); try done.
    repeat case_match; injection Hstep as <-; try (apply Hsame; by autorewrite with registry).
    cbn [jobs set_load_pc set_loadCalls emit set_trace].
    rewrite get_schedule_all by (eapply has_same; [by apply get_start_all|done]).
    by apply get_start_all.
  - injection Hstep as <-. apply Hsame, registry_httpHandler.
Qed.

Lemma get_run name ls w w' :
  forallb keeps_jobs ls = true -> run rt ls w = Some w' -> JsMap.has name (jobs w) = true ->
  JsMap.get name (jobs w') = JsMap.get name (jobs w).
Proof.
  revert w. induction ls as [|l ls IH]; intros w; simpl.
  - by intros _ [= <-].
  - intros [Hl Hls]%andb_true_iff.
    destruct (step rt l w) as [w1|] eqn:Hstep; [|done]. simpl. intros Hrun Hhas.
    pose proof (get_step name l w w1 Hl Hstep Hhas) as H1.
    rewrite (IH w1 Hls Hrun) by (by eapply has_same). exact H1.
Qed.

(** Extra X17.  A registered job stays registered under its name, with the
    same job object, for as long as neither [reset] nor [load] is called;
    until then [#validateName] refuses the name as a duplicate, and a call
    of [startup] or of [schedule] with the name registers nothing. *)
Theorem registered_name_is_refused name ls w w' :
  reachable rt w -> JsMap.has name (jobs w) = true ->
  forallb keeps_jobs ls = true -> run rt ls w = Some w' ->
  JsMap.get name (jobs w') = JsMap.get name (jobs w)
  /\ validateName name w' = Throws DuplicateName
  /\ (forall command options x,
        registry (startup rt name command options x w') = registry w')
  /\ (forall expr command options,
        registry (schedule rt name expr command options w') = registry w').
Proof.
  intros Hr Hhas Hls Hrun. apply reachable_consistent in Hr.
  pose proof (get_run name ls w w' Hls Hrun Hhas) as Hget.
  pose proof (has_same name w w' Hget Hhas) as Hhas'.
  destruct (JsMap_has_In _ _ Hhas) as [j Hin].
  destruct (inv_registry _ _ Hr _ _ Hin) as (job & _ & _ & _ & Hok).
  split_and!.
  - exact Hget.
  - unfold validateName. unfold name_ok in Hok. apply negb_true_iff in Hok.
    by rewrite Hok, Hhas'.
  - intros. by apply registry_startup_refused, validateName_registered.
  - intros. by apply registry_schedule_refused, validateName_registered.
Qed.

Lemma JsMap_has_names {V} k (m : list (string * V)) :
  JsMap.has k m = false <-> ~ In k (map fst m).
Proof.
  unfold JsMap.has, JsMap.get. induction m as [|[k0 v0] m IH]; simpl; [by split; auto|].
  destruct (String.eqb_spec k0 k) as [->|Hne]; simpl.
  - split; [done|]. intros H. destruct H. by left.
  - rewrite IH. split; [by intros H [?|?]|]. intros H ?. apply H. by right.
Qed.

Lemma JsMap_set_new {V} k (v : V) m : JsMap.has k m = false -> JsMap.set k v m = m ++ [(k, v)].
Proof.
  unfold JsMap.has, JsMap.get. induction m as [|[k0 v0] m IH]; simpl; [done|].
  destruct (String.eqb k0 k); simpl; [done|]. intros H. by rewrite IH.
Qed.

Lemma validateName_accepts name w :
  name_ok name = true -> ~ In name (map fst (jobs w)) -> validateName name w = Returns tt.
Proof.
  intros Hok Hnew. apply JsMap_has_names in Hnew. unfold validateName.
  unfold name_ok in Hok. apply negb_true_iff in Hok. by rewrite Hok, Hnew.
Qed.

(** What an accepted call of [startup] registers. *)
Lemma startup_registers name command options x w :
  validateName name w = Returns tt ->
  jobs (startup rt name command options x w) = jobs w ++ [(name, length (jobObjs w))]
  /\ scheduler (startup rt name command options x w) = scheduler w.
Proof.
  intros Hv. unfold startup. cbv zeta.
  replace (validateName name (emit _ _ w)) with (validateName name w) by done.
  rewrite Hv.
  rewrite (registry_jobs _ _ (registry_startup_loop _ _ _ _)),
    (registry_scheduler _ _ (registry_startup_loop _ _ _ _)).
  split; [|done]. cbn [jobs set_startupCalls set_jobs].
  apply JsMap_set_new. by apply validateName_fresh.
Qed.

(** What an accepted call of [schedule] registers. *)
Lemma schedule_registers name expr command options cron w :
  validateName name w = Returns tt -> parseCronExpression rt expr = Some cron ->
  jobs (schedule rt name expr command options w) = jobs w ++ [(name, length (jobObjs w))]
  /\ map task_name (tasks (scheduler (schedule rt name expr command options w)))
     = map task_name (tasks (scheduler w)) ++ [name].
Proof.
  intros Hv Hcron. unfold schedule, registerTask. cbv zeta. simpl snd.
  replace (validateName name (emit _ _ w)) with (validateName name w) by done.
  rewrite Hv, Hcron. cbn [jobs scheduler tasks set_scheduleCalls set_jobs set_jobObjs
                            set_scheduler emit set_trace].
  split; [|by rewrite map_app].
  apply JsMap_set_new. by apply validateName_fresh.
Qed.

Lemma start_all_registers x entries w :
  Forall (fun n => name_ok n = true) (map fst entries) ->
  NoDup (map fst (jobs w) ++ map fst entries) ->
  map fst (jobs (start_all rt x entries w)) = map fst (jobs w) ++ map fst entries
  /\ scheduler (start_all rt x entries w) = scheduler w.
Proof.
  unfold start_all. revert w. induction entries as [|[name e] es IH]; intros w Hok Hnd; simpl.
  - by rewrite app_nil_r.
  - apply Forall_cons in Hok as [Hname Hok].
    assert (Hv : validateName name w = Returns tt).
    { apply validateName_accepts; [done|]. apply NoDup_app in Hnd as (_ & Hnew & _).
      intros Hin. apply (Hnew name); [by apply list_elem_of_In|]. simpl. left. }
    destruct (startup_registers name (se_command e) (se_options e) x w Hv) as [Hj Hs].
    destruct (IH (startup rt name (se_command e) (se_options e) x w)) as [Hj' Hs'].
    + done.
    + rewrite Hj, map_app. simpl. by rewrite <- app_assoc.
    + rewrite Hj', Hs', Hj, map_app. simpl. by rewrite <- app_assoc.
Qed.

Lemma schedule_all_registers entries w :
  Forall (fun n => name_ok n = true) (map fst entries) ->
  Forall (fun e => is_Some (parseCronExpression rt (sch_schedule (snd e)))) entries ->
  NoDup (map fst (jobs w) ++ map fst entries) ->
  map fst (jobs (schedule_all rt entries w)) = map fst (jobs w) ++ map fst entries
  /\ map task_name (tasks (scheduler (schedule_all rt entries w)))
     = map task_name (tasks (scheduler w)) ++ map fst entries.
Proof.
  unfold schedule_all. revert w.
  induction entries as [|[name e] es IH]; intros w Hok Hcron Hnd; simpl.
  - by rewrite !app_nil_r.
  - apply Forall_cons in Hok as [Hname Hok]. apply Forall_cons in Hcron as [[cron Hc] Hcron].
    simpl in Hc.
    assert (Hv : validateName name w = Returns tt).
    { apply validateName_accepts; [done|]. apply NoDup_app in Hnd as (_ & Hnew & _).
      intros Hin. apply (Hnew name); [by apply list_elem_of_In|]. simpl. left. }
    destruct (schedule_registers name (sch_schedule e) (sch_command e) (sch_options e) cron w
                Hv Hc) as [Hj Hs].
    destruct (IH (schedule rt name (sch_schedule e) (sch_command e) (sch_options e) w))
      as [Hj' Hs'].
    + done.
    + done.
    + rewrite Hj, map_app. simpl. by rewrite <- app_assoc.
    + rewrite Hj', Hs', Hj, Hs, map_app. simpl. by rewrite <- !app_assoc.
Qed.

Lemma load_resume_accepted W l path text doc cf x :
  loadCalls W !! l = Some (mkLoadCall path LAwaitRead) ->
  parseToml rt text = Some doc -> Schema.parse doc = Returns cf ->
  exists w',
    load_resume rt l (Returns text) x W = Some w'
    /\ registry w'
       = registry (schedule_all rt (cf_schedule cf) (start_all rt x (cf_startup cf) W))
    /\ loadCalls w' !! l = Some (mkLoadCall path LReturned).
Proof.
  intros Hl Hdoc Hcf. unfold load_resume. rewrite Hl. simpl. rewrite Hdoc, Hcf.
  eexists. split; [reflexivity|]. split; [by autorewrite with registry|].
  destruct (start_all_calls rt x (cf_startup cf) W) as (ev1 & _ & _ & Hl1).
  destruct (schedule_all_calls rt (cf_schedule cf) (start_all rt x (cf_startup cf) W))
    as (ev2 & _ & _ & Hl2).
  cbn [loadCalls set_load_pc set_loadCalls emit set_trace].
  by rewrite list_lookup_alter_eq, Hl2, Hl1, Hl.
Qed.


End Registry.

Lemma registered_name_is_refused_witness :
  let w := Sample.suspended in
  let w' := Sample.spawned in
  JsMap.get "a" (jobs w') = JsMap.get "a" (jobs w)
  /\ validateName "a" w' = Throws DuplicateName
  /\ (forall command options x,
        registry (startup Sample.rt "a" command options x w') = registry w')
  /\ (forall expr command options,
        registry (schedule Sample.rt "a" expr command options w') = registry w').
Proof.
  intros w w'.
  apply (registered_name_is_refused Sample.rt "a" Sample.to_spawn w w').
  - exists 8000, None, [], [], Sample.entered. apply or_else_Some. vm_compute. reflexivity.
  - vm_compute. reflexivity.
  - reflexivity.
  - apply or_else_Some. vm_compute. reflexivity.
Defined.


Lemma tasks_belong_to_registered_jobs_witness :
  Forall (task_registered Sample.running) (tasks (scheduler Sample.running)).
Proof.
  exact (tasks_belong_to_registered_jobs Sample.rt Sample.running running_reachable).
Defined.

Lemma reset_removes_jobs_and_tasks_witness :
  let w := Sample.running in
  jobs (reset w) = []
  /\ tasks (scheduler (reset w)) = []
  /\ (forall id x, callback Sample.rt id x (reset w) = None)
  /\ (forall name, validateName name (reset w) <> Throws DuplicateName).
Proof.
  exact (reset_removes_jobs_and_tasks Sample.rt Sample.running running_reachable).
Defined.

Lemma failed_load_removes_every_job_witness :
  let w' := Sample.load_failed in
  jobs w' = [] /\ tasks (scheduler w') = []
  /\ exists e, loadCalls w' !! length (loadCalls Sample.running)
               = Some (mkLoadCall "chronfile" (LRejected e)).
Proof.
  intros w'.
  apply (failed_load_removes_every_job Sample.rt "chronfile" Sample.unreadable Sample.x
           Sample.running w' running_reachable).
  - exact I.
  - apply or_else_Some. vm_compute. reflexivity.
Defined.



(** ** The log files *)

Lemma files_alter_process p j (objs : list Job) :
  (fun job => (job_name job, job_logFile job)) <$> alter (with_process p) j objs
  = (fun job => (job_name job, job_logFile job)) <$> objs.
Proof.
  apply list_eq. intros k. rewrite !list_lookup_fmap.
  destruct (decide (k = j)) as [->|Hne].
  - rewrite list_lookup_alter_eq. by destruct (objs !! j).
  - by rewrite list_lookup_alter_ne.
Qed.

Lemma In_performed_open rt w job j pc path :
  In (ActOpen path) (performed rt w job j pc) -> path = job_logFile job.
Proof.
  destruct pc; simpl;
    unfold upto_done, upto_footer, upto_update, upto_status, upto_header,
      upto_open, upto_ensureDir, upto_insert, upto_log;
    rewrite ?in_app_iff; simpl; try destruct (negb (code =? 0)); simpl;
    intuition; try discriminate; try (by simplify_eq).
Qed.

Section Logs.
Variable rt : Runtime.

Lemma log_files_set_process a j p w : log_files (set_process a j p w) = log_files w.
Proof. unfold log_files, set_process. simpl. by rewrite files_alter_process. Qed.

Lemma log_files_executeJob caller j x w : log_files (executeJob rt caller j x w) = log_files w.
Proof. unfold executeJob. by repeat case_match. Qed.

Lemma log_files_executeJob_resume i x w w' :
  executeJob_resume rt i x w = Some w' -> log_files w' = log_files w.
Proof.
  unfold executeJob_resume.
  destruct (executions w !! i) as [e|]; [|done]. simpl.
  destruct (jobObjs w !! exec_job e) as [job|]; [|done]. simpl.
  destruct (exec_pc e); try done; intros [= <-]; try done.
  - unfold log_files. simpl. by rewrite files_alter_process.
  - unfold log_files. simpl. by rewrite files_alter_process.
  - by destruct (negb (code =? 0)).
Qed.

Lemma log_files_fold_emit (ls : list (nat * Process)) w :
  log_files (fold_left (fun w l => emit (AListener (fst l)) (ActKill (snd l)) w) ls w)
  = log_files w.
Proof. revert w. induction ls as [|l ls IH]; intros w; simpl; [done|]. by rewrite IH. Qed.

Lemma log_files_abort sig w : log_files (abort sig w) = log_files w.
Proof. unfold abort. repeat case_match; try done. by rewrite log_files_fold_emit. Qed.

Lemma log_files_fold_unregister js w :
  log_files (fold_left unregister_job js w) = log_files w.
Proof.
  revert w. induction js as [|j js IH]; intros w; simpl; [done|].
  rewrite IH. unfold unregister_job, unregisterTask. by repeat case_match.
Qed.

Lemma log_files_reset w : log_files (reset w) = log_files w.
Proof.
  unfold reset. cbv zeta.
  change (log_files (set_abortController ?c (set_signals ?s (set_jobs ?j ?w0))))
    with (log_files w0).
  by rewrite log_files_fold_unregister, log_files_abort.
Qed.

Lemma log_files_emit a act w : log_files (emit a act w) = log_files w.
Proof. done. Qed.

Lemma log_files_set_loadCalls c w : log_files (set_loadCalls c w) = log_files w.
Proof. done. Qed.

Lemma log_files_load path w : log_files (load path w) = log_files w.
Proof.
  unfold load. cbv zeta.
  by rewrite log_files_set_loadCalls, log_files_emit, log_files_reset, log_files_emit.
Qed.

Lemma log_files_startup_loop t j x w : log_files (startup_loop rt t j x w) = log_files w.
Proof.
  unfold startup_loop. repeat case_match; try done.
  change (log_files (set_startup_pc ?t ?pc ?w0)) with (log_files w0).
  apply log_files_executeJob.
Qed.

Lemma log_files_catch_up s c run' x w : log_files (catch_up rt s c run' x w) = log_files w.
Proof.
  unfold catch_up. case_match; [|done].
  change (log_files (set_schedule_pc ?t ?pc ?w0)) with (log_files w0).
  apply log_files_executeJob.
Qed.

Lemma log_files_httpHandler req h w : log_files (snd (httpHandler rt req h w)) = log_files w.
Proof. unfold httpHandler, jobHandler, mailboxHandler. by repeat case_match. Qed.

Lemma logs_to_same w w' :
  log_files w' = log_files w ->
  Forall (logs_to w) (jobObjs w) -> Forall (logs_to w') (jobObjs w').
Proof.
  intros [= Hdir Hfiles]. rewrite !Forall_lookup. intros Hall j job' Hj.
  assert (Hl : ((fun job => (job_name job, job_logFile job)) <$> jobObjs w') !! j
               = Some (job_name job', job_logFile job'))
    by (by rewrite list_lookup_fmap, Hj).
  rewrite Hfiles, list_lookup_fmap in Hl.
  destruct (jobObjs w !! j) as [job|] eqn:Hjob; [|done]. injection Hl as Hn Hf.
  specialize (Hall _ _ Hjob). unfold logs_to in *. by rewrite <- Hn, <- Hf, Hdir.
Qed.

Lemma logs_to_startup name command options x w :
  Forall (logs_to w) (jobObjs w) ->
  Forall (logs_to (startup rt name command options x w))
    (jobObjs (startup rt name command options x w)).
Proof.
  intros Hall. unfold startup. cbv zeta. case_match.
  - eapply logs_to_same; [apply log_files_startup_loop|].
    cbn [jobObjs set_startupCalls set_jobs set_jobObjs].
    apply Forall_app. split; [|by repeat constructor].
    eapply Forall_impl; [exact Hall|]. done.
  - eapply logs_to_same; [|exact Hall]. done.
Qed.

Lemma logs_to_schedule name expr command options w :
  Forall (logs_to w) (jobObjs w) ->
  Forall (logs_to (schedule rt name expr command options w))
    (jobObjs (schedule rt name expr command options w)).
Proof.
  intros Hall. unfold schedule, registerTask. cbv zeta. simpl snd.
  repeat case_match; try (eapply logs_to_same; [|exact Hall]; done).
  cbn [jobObjs set_scheduleCalls set_jobs set_jobObjs].
  apply Forall_app. split; [|by repeat constructor].
  eapply Forall_impl; [exact Hall|]. done.
Qed.

Lemma logs_to_start_all x entries w :
  Forall (logs_to w) (jobObjs w) ->
  Forall (logs_to (start_all rt x entries w)) (jobObjs (start_all rt x entries w)).
Proof.
  unfold start_all. revert w. induction entries as [|e es IH]; intros w Hall; simpl; [done|].
  by apply IH, logs_to_startup.
Qed.

Lemma logs_to_schedule_all entries w :
  Forall (logs_to w) (jobObjs w) ->
  Forall (logs_to (schedule_all rt entries w)) (jobObjs (schedule_all rt entries w)).
Proof.
  unfold schedule_all. revert w. induction entries as [|e es IH]; intros w Hall; simpl; [done|].
  by apply IH, logs_to_schedule.
Qed.

Lemma logs_to_step l w w' :
  step rt l w = Some w' -> Forall (logs_to w) (jobObjs w) -> Forall (logs_to w') (jobObjs w').
Proof.
  intros Hstep Hall. destruct l; simpl in Hstep.
  - injection Hstep as <-. by apply logs_to_startup.
  - injection Hstep as <-. by apply logs_to_schedule.
  - injection Hstep as <-. eapply logs_to_same; [apply log_files_reset|done].
  - injection Hstep as <-. eapply logs_to_same; [apply log_files_load|done].
  - eapply logs_to_same; [|exact Hall]. unfold callback in Hstep.
    destruct (List.find _ _); [|done]. simpl in Hstep.
    destruct (jobObjs w !! _); [|done]. simpl in Hstep.
    case_match; injection Hstep as <-; [done|apply log_files_executeJob].
  - eapply logs_to_same; [|exact Hall]. by eapply log_files_executeJob_resume.
  - eapply logs_to_same; [|exact Hall]. unfold schedule_resume in Hstep.
    destruct (scheduleCalls w !! s); [|done]. simpl in Hstep.
    destruct (sc_pc _); try done.
    + case_match; injection Hstep as <-; [done|apply log_files_catch_up].
    + injection Hstep as <-. apply log_files_catch_up.
    + destruct (executions w !! i); [|done]. simpl in Hstep.
      case_match; [|done]. injection Hstep as <-. apply log_files_catch_up.
  - eapply logs_to_same; [|exact Hall]. unfold startup_resume in Hstep.
    destruct (startupCalls w !! t); [|done]. simpl in Hstep.
    destruct (su_pc _); try done.
    + destruct (executions w !! i); [|done]. simpl in Hstep.
      repeat case_match; try done; by injection Hstep as <-.
    + injection Hstep as <-. apply log_files_startup_loop.
  - unfold load_resume in Hstep.
    destruct (loadCalls w !! l); [|done]. simpl in Hstep.
    destruct (ld_pc _); try done.
    repeat case_match; injection Hstep as <-;
      try (eapply logs_to_same; [|exact Hall]; done).
    eapply logs_to_same; [|by apply logs_to_schedule_all, logs_to_start_all, Hall]. done.
  - injection Hstep as <-. eapply logs_to_same; [apply log_files_httpHandler|done].
Qed.

Lemma logs_to_reachable w : reachable rt w -> Forall (logs_to w) (jobObjs w).
Proof.
  intros (port' & dir & db & mb & ls & Hrun).
  assert (H0 : Forall (logs_to (new_ChronService port' dir db mb))
                 (jobObjs (new_ChronService port' dir db mb))) by constructor.
  revert Hrun H0. generalize (new_ChronService port' dir db mb).
  induction ls as [|l ls IH]; intros w0; simpl.
  - by intros [= <-].
  - destruct (step rt l w0) as [w1|] eqn:Hstep; [|done]. simpl. intros Hrun H0.
    apply (IH w1); [done|]. by eapply logs_to_step.
Qed.

(** Extra X19.  The log of a job is the file [<name>.log] of the log
    directory.  For a registered job, [GET /job/<name>/logs] serves that
    file and [DELETE] removes it, a failure of the file system being
    answered by [handleFsError]; and every run of a job of that name, a run
    entered before a [reset] included, opens that same file. *)
Theorem logs_route_serves_log_of_runs name body h w :
  reachable rt w -> JsMap.has name (jobs w) = true ->
  let file := join (logDir w) (name +:+ ".log") in
  httpHandler rt (mkRequest "GET" (job_path name "logs") body) h w
  = (match fs_error h with
     | None => mkResponse 200 (FileBody file)
     | Some err => handleFsError err
     end, emit AServer (ActServeFile file) w)
  /\ httpHandler rt (mkRequest "DELETE" (job_path name "logs") body) h w
     = (match fs_error h with
        | None => mkResponse 200 (Text "Deleted log file")
        | Some err => handleFsError err
        end, emit AServer (ActRemove file) w)
  /\ (forall i e job path,
        executions w !! i = Some e -> jobObjs w !! exec_job e = Some job ->
        job_name job = name -> In (AExecute i, ActOpen path) (trace w) -> path = file).
Proof.
  intros Hr Hhas file. pose proof (logs_to_reachable w Hr) as Hlogs.
  apply reachable_consistent in Hr.
  destruct (registered_job rt name w Hr Hhas) as (Hseg & j & job & Hget & Hjob & Hjn).
  assert (Hfile : job_logFile job = file).
  { rewrite Forall_lookup in Hlogs. rewrite (Hlogs _ _ Hjob). subst file. by rewrite Hjn. }
  assert (Hcmd : segment "logs") by done.
  rewrite !job_route by done. unfold jobHandler. rewrite Hget. simpl. rewrite Hjob, Hfile.
  split_and!.
  - by destruct (fs_error h).
  - by destruct (fs_error h).
  - intros i e job' path He Hjob' Hn Hin.
    destruct (inv_performed _ _ Hr _ _ He) as (job'' & Hj'' & Hp).
    rewrite Hjob' in Hj''. injection Hj'' as <-.
    apply by_actor_In in Hin. rewrite Hp in Hin. apply In_performed_open in Hin.
    rewrite Forall_lookup in Hlogs. rewrite Hin, (Hlogs _ _ Hjob'). subst file.
    by rewrite Hn.
Qed.

End Logs.

Lemma logs_route_serves_log_of_runs_witness :
  let w := Sample.failed in
  let file := join (logDir w) ("a" +:+ ".log") in
  httpHandler Sample.rt (mkRequest "GET" (job_path "a" "logs") "") Sample.h w
  = (match fs_error Sample.h with
     | None => mkResponse 200 (FileBody file)
     | Some err => handleFsError err
     end, emit AServer (ActServeFile file) w)
  /\ httpHandler Sample.rt (mkRequest "DELETE" (job_path "a" "logs") "") Sample.h w
     = (match fs_error Sample.h with
        | None => mkResponse 200 (Text "Deleted log file")
        | Some err => handleFsError err
        end, emit AServer (ActRemove file) w)
  /\ (forall i e job path,
        executions w !! i = Some e -> jobObjs w !! exec_job e = Some job ->
        job_name job = "a" -> In (AExecute i, ActOpen path) (trace w) -> path = file).
Proof.
  intros w.
  apply (logs_route_serves_log_of_runs Sample.rt "a" "" Sample.h w failed_reachable).
  vm_compute. reflexivity.
Defined.

(** ** The process of a job *)

Lemma same_children_refl w : same_children w w.
Proof. by split. Qed.

Lemma same_children_trans w1 w2 w3 :
  same_children w1 w2 -> same_children w2 w3 -> same_children w1 w3.
Proof. intros [Hp1 He1] [Hp2 He2]. split; auto. Qed.

Lemma same_children_eq w w' :
  jobObjs w' = jobObjs w -> executions w' = executions w -> same_children w w'.
Proof. intros Hj He. unfold same_children, process_of. rewrite Hj, He. by split. Qed.

Lemma process_of_new job w w' j p :
  jobObjs w' = jobObjs w ++ [job] -> job_process job = None ->
  process_of w' j = Some p -> process_of w j = Some p.
Proof.
  unfold process_of. intros -> Hnone.
  destruct (decide (j < length (jobObjs w))%nat) as [Hlt|Hge].
  - by rewrite lookup_app_l.
  - rewrite lookup_app_r by lia.
    destruct (j - length (jobObjs w))%nat; simpl; [by rewrite Hnone|done].
Qed.

Lemma processes_running_later w w' :
  same_children w w' -> processes_running w -> processes_running w'.
Proof.
  intros [Hp He] Hrun j p Hj.
  destruct (Hrun j p (Hp _ _ Hj)) as (i & e & st & id & Hi & Hjob & Hpc).
  exists i, e, st, id. auto.
Qed.

Section Children.
Variable rt : Runtime.

Lemma same_children_executeJob caller j x w : same_children w (executeJob rt caller j x w).
Proof.
  unfold executeJob. repeat case_match; try apply same_children_refl;
    (split; [done|]); intros i e Hi; simpl; by apply lookup_app_l_Some.
Qed.

Lemma same_children_abort sig w : same_children w (abort sig w).
Proof.
  unfold abort. repeat case_match; try apply same_children_refl.
  rewrite fold_kills. by apply same_children_eq.
Qed.

Lemma same_children_reset w : same_children w (reset w).
Proof.
  unfold reset. cbv zeta.
  match goal with |- context [fold_left unregister_job ?js ?w1] =>
    destruct (fold_unregister js w1) as [sch ->] end.
  eapply same_children_trans; [apply (same_children_abort (abortController w)
                                       (emit AService ActReset w))|].
  by apply same_children_eq.
Qed.

Lemma same_children_startup_loop t j x w : same_children w (startup_loop rt t j x w).
Proof.
  unfold startup_loop. repeat case_match; try apply same_children_refl.
  - by apply same_children_eq.
  - eapply same_children_trans; [apply same_children_executeJob|]. by apply same_children_eq.
Qed.

Lemma same_children_startup name command options x w :
  same_children w (startup rt name command options x w).
Proof.
  unfold startup. cbv zeta. case_match; [|by apply same_children_eq].
  eapply same_children_trans; [|apply same_children_startup_loop].
  split; [|done]. intros j p Hp.
  eapply process_of_new; [| |exact Hp]; [reflexivity|done].
Qed.

Lemma same_children_schedule name expr command options w :
  same_children w (schedule rt name expr command options w).
Proof.
  unfold schedule, registerTask. cbv zeta. simpl snd.
  repeat case_match; try (by apply same_children_eq).
  split; [|done]. intros j p Hp.
  eapply process_of_new; [| |exact Hp]; [reflexivity|done].
Qed.

Lemma same_children_catch_up s c run' x w : same_children w (catch_up rt s c run' x w).
Proof.
  unfold catch_up. case_match; [|by apply same_children_eq].
  eapply same_children_trans; [apply same_children_executeJob|]. by apply same_children_eq.
Qed.

Lemma same_children_start_all x entries w : same_children w (start_all rt x entries w).
Proof.
  unfold start_all. revert w. induction entries as [|e es IH]; intros w; simpl.
  - apply same_children_refl.
  - eapply same_children_trans; [apply same_children_startup|apply IH].
Qed.

Lemma same_children_schedule_all entries w : same_children w (schedule_all rt entries w).
Proof.
  unfold schedule_all. revert w. induction entries as [|e es IH]; intros w; simpl.
  - apply same_children_refl.
  - eapply same_children_trans; [apply same_children_schedule|apply IH].
Qed.

Lemma same_children_httpHandler req h w : same_children w (snd (httpHandler rt req h w)).
Proof.
  unfold httpHandler, jobHandler, mailboxHandler.
  repeat case_match; by apply same_children_eq.
Qed.

(** A run that moves on, not from and not to the wait for its child. *)
Lemma processes_running_advance i pc' w w' e :
  executions w !! i = Some e ->
  (forall st id p, exec_pc e <> AwaitStatus st id p) ->
  jobObjs w' = jobObjs w -> executions w' = alter (at_pc pc') i (executions w) ->
  processes_running w -> processes_running w'.
Proof.
  intros Hi Hpc Hj He Hrun j p Hp. unfold process_of in Hp. rewrite Hj in Hp.
  destruct (Hrun j p Hp) as (i0 & e0 & st & id & Hi0 & Hjob & Hpc0).
  exists i0, e0, st, id. split; [|done]. rewrite He.
  destruct (decide (i0 = i)) as [->|Hne]; [|by rewrite list_lookup_alter_ne].
  rewrite Hi in Hi0. injection Hi0 as ->. by destruct (Hpc _ _ _ Hpc0).
Qed.

Lemma processes_running_resume i x w w' :
  executeJob_resume rt i x w = Some w' -> processes_running w -> processes_running w'.
Proof.
  unfold executeJob_resume.
  destruct (executions w !! i) as [e|] eqn:Hi; [|done]. simpl.
  destruct (jobObjs w !! exec_job e) as [job|] eqn:Hjob; [|done]. simpl.
  unfold JobRef in Hjob.
  destruct (exec_pc e) eqn:Hpc; try done; intros [= <-] Hrun;
    try (eapply (processes_running_advance i _ w _ e); [done|by rewrite Hpc|done|done|done]).
  - intros j p0 Hp. unfold process_of in Hp. unfold child_of_run.
    cbn [jobObjs executions set_pc set_executions addEventListener set_signals set_process
           set_jobObjs emit set_trace] in *.
    destruct (decide (j = exec_job e)) as [->|Hne].
    + rewrite list_lookup_alter_eq in Hp. rewrite Hjob in Hp. injection Hp as <-.
      exists i, (at_pc (AwaitStatus startTime id (child x)) e), startTime, id.
      split_and!; [|done|done]. by rewrite list_lookup_alter_eq, Hi.
    + rewrite list_lookup_alter_ne in Hp by done.
      destruct (Hrun j p0 Hp) as (i0 & e0 & st & id0 & Hi0 & Hj0 & Hpc0).
      unfold JobRef in *.
      exists i0, e0, st, id0. split; [|done].
      destruct (decide (i0 = i)) as [->|Hni]; [|by rewrite list_lookup_alter_ne].
      rewrite Hi in Hi0. injection Hi0 as ->. congruence.
  - intros j p0 Hp. unfold process_of in Hp. unfold child_of_run.
    cbn [jobObjs executions set_pc set_executions removeEventListener set_signals set_process
           set_jobObjs set_statusDb emit set_trace] in *.
    destruct (decide (j = exec_job e)) as [->|Hne].
    + rewrite list_lookup_alter_eq in Hp. by rewrite Hjob in Hp.
    + rewrite list_lookup_alter_ne in Hp by done.
      destruct (Hrun j p0 Hp) as (i0 & e0 & st & id0 & Hi0 & Hj0 & Hpc0).
      unfold JobRef in *.
      exists i0, e0, st, id0. split; [|done].
      destruct (decide (i0 = i)) as [->|Hni]; [|by rewrite list_lookup_alter_ne].
      rewrite Hi in Hi0. injection Hi0 as ->. congruence.
  - destruct (negb (code =? 0));
      (eapply (processes_running_advance i _ w _ e); [done|by rewrite Hpc|done|done|done]).
Qed.

Lemma processes_running_step l w w' :
  step rt l w = Some w' -> processes_running w -> processes_running w'.
Proof.
  intros Hstep. destruct l; simpl in Hstep;
    try (injection Hstep as <-; apply processes_running_later).
  - apply same_children_startup.
  - apply same_children_schedule.
  - apply same_children_reset.
  - unfold load. cbv zeta.
    apply (same_children_trans _ (emit (ALoad (length (loadCalls w))) (ActCallLoad path) w));
      [by apply same_children_eq|].
    eapply same_children_trans; [apply same_children_reset|].
    generalize (reset (emit (ALoad (length (loadCalls w))) (ActCallLoad path) w)).
    intros W. by apply same_children_eq.
  - apply processes_running_later. unfold callback in Hstep.
    destruct (List.find _ _); [|done]. simpl in Hstep.
    destruct (jobObjs w !! _); [|done]. simpl in Hstep.
    case_match; injection Hstep as <-; [by apply same_children_eq|].
    apply same_children_executeJob.
  - exact (processes_running_resume _ _ _ _ Hstep).
  - apply processes_running_later. unfold schedule_resume in Hstep.
    destruct (scheduleCalls w !! s); [|done]. simpl in Hstep.
    destruct (sc_pc _); try done.
    + case_match; injection Hstep as <-; [by apply same_children_eq|].
      apply same_children_catch_up.
    + injection Hstep as <-. apply same_children_catch_up.
    + destruct (executions w !! i); [|done]. simpl in Hstep.
      case_match; [|done]. injection Hstep as <-. apply same_children_catch_up.
  - apply processes_running_later. unfold startup_resume in Hstep.
    destruct (startupCalls w !! t); [|done]. simpl in Hstep.
    destruct (su_pc _); try done.
    + destruct (executions w !! i); [|done]. simpl in Hstep.
      repeat case_match; try done; injection Hstep as <-; by apply same_children_eq.
    + injection Hstep as <-. apply same_children_startup_loop.
  - apply processes_running_later. unfold load_resume in Hstep.
    destruct (loadCalls w !! l); [|done]. simpl in Hstep.
    destruct (ld_pc _); try done.
    repeat case_match; injection Hstep as <-; try (by apply same_children_eq).
    eapply same_children_trans; [apply same_children_start_all|].
    eapply same_children_trans; [apply same_children_schedule_all|].
    by apply same_children_eq.
  - apply same_children_httpHandler.
Qed.

Lemma processes_running_reachable w : reachable rt w -> processes_running w.
Proof.
  intros (port' & dir & db & mb & ls & Hrun).
  assert (H0 : processes_running (new_ChronService port' dir db mb)) by (by intros j p).
  revert Hrun H0. generalize (new_ChronService port' dir db mb).
  induction ls as [|l ls IH]; intros w0; simpl.
  - by intros [= <-].
  - destruct (step rt l w0) as [w1|] eqn:Hstep; [|done]. simpl. intros Hrun H0.
    apply (IH w1); [done|]. by eapply processes_running_step.
Qed.

(** Extra X20.  The process of a job is set only while a run of the job
    waits for the exit of that child.  So [GET /] says that a job is running
    only when a run of it is at its child, the callback of a scheduled job
    skips a run only then, and a process the server kills is the child of a
    run that waits for it. *)
Theorem process_set_while_child_runs w :
  reachable rt w ->
  (forall j job p, jobObjs w !! j = Some job -> job_process job = Some p ->
     child_of_run w j p)
  /\ (forall id x task job,
        List.find (fun t => (task_id t =? id)%nat) (tasks (scheduler w)) = Some task ->
        jobObjs w !! task_job task = Some job ->
        callback rt id x w = Some (logStderr (ATask id) (skipping_message (task_name task)) w) ->
        exists p, child_of_run w (task_job task) p)
  /\ (forall req h p,
        In (AServer, ActKill p) (trace (snd (httpHandler rt req h w))) ->
        In (AServer, ActKill p) (trace w) \/ exists j, child_of_run w j p).
Proof.
  intros Hr. pose proof (processes_running_reachable w Hr) as Hrun.
  assert (Hset : forall j job p, jobObjs w !! j = Some job -> job_process job = Some p ->
                   child_of_run w j p).
  { intros j job p Hj Hp. apply Hrun. unfold process_of. by rewrite Hj. }
  split_and!.
  - exact Hset.
  - intros id x task job Hfind Hjob. unfold callback. rewrite Hfind. simpl. rewrite Hjob. simpl.
    destruct (job_process job) as [p|] eqn:Hp; simpl.
    + intros _. exists p. by eapply Hset.
    + intros [= Heq]. apply (f_equal (fun w => length (executions w))) in Heq.
      revert Heq. unfold executeJob. rewrite Hjob. cbv zeta.
      case_match; simpl; rewrite length_app; simpl; lia.
  - intros req h p. unfold httpHandler.
    destruct (_ && _)%bool; [by left|].
    destruct (jobPattern (pathname req)) as [[n c]|]; simpl.
    + unfold jobHandler.
      destruct (JsMap.get n (jobs w)) as [j|]; simpl; [|by left].
      destruct (jobObjs w !! j) as [job|] eqn:Hjob; simpl; [|by left].
      repeat case_match; simpl; try (by left);
        intros [Hin|[Hin|[]]]%in_app_or; try (by left); try discriminate Hin.
      injection Hin as <-. right. exists j. by eapply Hset.
    + unfold mailboxHandler. repeat case_match; simpl; by left.
Qed.

End Children.

Lemma process_set_while_child_runs_witness :
  let w := Sample.running in
  (forall j job p, jobObjs w !! j = Some job -> job_process job = Some p ->
     child_of_run w j p)
  /\ (forall id x task job,
        List.find (fun t => (task_id t =? id)%nat) (tasks (scheduler w)) = Some task ->
        jobObjs w !! task_job task = Some job ->
        callback Sample.rt id x w
        = Some (logStderr (ATask id) (skipping_message (task_name task)) w) ->
        exists p, child_of_run w (task_job task) p)
  /\ (forall req h p,
        In (AServer, ActKill p) (trace (snd (httpHandler Sample.rt req h w))) ->
        In (AServer, ActKill p) (trace w) \/ exists j, child_of_run w j p).
Proof. exact (process_set_while_child_runs Sample.rt Sample.running running_reachable). Defined.

(** ** The loop of [startup] *)

Section Startup.
Variable rt : Runtime.

Lemma keeps_startups_refl w : keeps_startups w w.
Proof. by intros t c. Qed.

Lemma keeps_startups_trans w1 w2 w3 :
  keeps_startups w1 w2 -> keeps_startups w2 w3 -> keeps_startups w1 w3.
Proof. intros H12 H23 t c H. by apply H23, H12. Qed.

Lemma keeps_startups_eq w w' : startupCalls w' = startupCalls w -> keeps_startups w w'.
Proof. intros H t c. by rewrite H. Qed.

Lemma startupCalls_executeJob caller j x w :
  startupCalls (executeJob rt caller j x w) = startupCalls w.
Proof. unfold executeJob. by repeat case_match. Qed.

Lemma startupCalls_executeJob_resume i x w w' :
  executeJob_resume rt i x w = Some w' -> startupCalls w' = startupCalls w.
Proof.
  unfold executeJob_resume.
  destruct (executions w !! i) as [e|]; [|done]. simpl.
  destruct (jobObjs w !! exec_job e) as [job|]; [|done]. simpl.
  destruct (exec_pc e); try done; intros [= <-]; try done.
  by destruct (negb (code =? 0)).
Qed.

Lemma startupCalls_fold_emit (ls : list (nat * Process)) w :
  startupCalls (fold_left (fun w l => emit (AListener (fst l)) (ActKill (snd l)) w) ls w)
  = startupCalls w.
Proof. revert w. induction ls as [|l ls IH]; intros w; simpl; [done|]. by rewrite IH. Qed.

Lemma startupCalls_reset w : startupCalls (reset w) = startupCalls w.
Proof.
  unfold reset. cbv zeta. cbn [startupCalls set_abortController set_signals set_jobs].
  match goal with |- context [fold_left unregister_job ?js ?w1] =>
    destruct (fold_unregister js w1) as [sch ->] end.
  cbn [startupCalls set_scheduler]. unfold abort.
  repeat case_match; try done. by rewrite startupCalls_fold_emit.
Qed.

Lemma startupCalls_load path w : startupCalls (load path w) = startupCalls w.
Proof.
  unfold load. cbv zeta.
  transitivity (startupCalls (reset (emit (ALoad (length (loadCalls w))) (ActCallLoad path) w)));
    [|by rewrite startupCalls_reset].
  generalize (reset (emit (ALoad (length (loadCalls w))) (ActCallLoad path) w)). done.
Qed.

Lemma startupCalls_schedule name expr command options w :
  startupCalls (schedule rt name expr command options w) = startupCalls w.
Proof. unfold schedule, registerTask. cbv zeta. simpl snd. by repeat case_match. Qed.

Lemma startupCalls_catch_up s c run' x w :
  startupCalls (catch_up rt s c run' x w) = startupCalls w.
Proof.
  unfold catch_up. case_match; [|done].
  cbn [startupCalls set_schedule_pc set_scheduleCalls]. apply startupCalls_executeJob.
Qed.

Lemma startupCalls_schedule_all entries w :
  startupCalls (schedule_all rt entries w) = startupCalls w.
Proof.
  unfold schedule_all. revert w. induction entries as [|e es IH]; intros w; simpl; [done|].
  by rewrite IH, startupCalls_schedule.
Qed.

Lemma startupCalls_httpHandler req h w :
  startupCalls (snd (httpHandler rt req h w)) = startupCalls w.
Proof. unfold httpHandler, jobHandler, mailboxHandler. by repeat case_match. Qed.

(** One turn of the loop changes the activation it belongs to and no other. *)
Lemma startup_loop_others t j x w t' :
  t' <> t -> startupCalls (startup_loop rt t j x w) !! t' = startupCalls w !! t'.
Proof.
  intros Hne. unfold startup_loop. repeat case_match; try done;
    cbn [startupCalls set_startup_pc set_startupCalls emit set_trace];
    rewrite list_lookup_alter_ne by done; [done|].
  by rewrite startupCalls_executeJob.
Qed.

Lemma keeps_startups_startup name command options x w :
  keeps_startups w (startup rt name command options x w).
Proof.
  intros t c Ht. pose proof (lookup_lt_Some _ _ _ Ht) as Hlt.
  unfold startup. cbv zeta. case_match.
  - rewrite startup_loop_others by lia.
    cbn [startupCalls set_startupCalls set_jobs set_jobObjs emit set_trace].
    by apply lookup_app_l_Some.
  - cbn [startupCalls set_startupCalls emit set_trace]. by apply lookup_app_l_Some.
Qed.

Lemma keeps_startups_start_all x entries w : keeps_startups w (start_all rt x entries w).
Proof.
  unfold start_all. revert w. induction entries as [|e es IH]; intros w; simpl.
  - apply keeps_startups_refl.
  - eapply keeps_startups_trans; [apply keeps_startups_startup|apply IH].
Qed.

(** A step of another activation leaves a call of [startup] as it is. *)
Lemma step_keeps_startup l w w' t c :
  step rt l w = Some w' -> ~ resumed l (AStartup t) ->
  startupCalls w !! t = Some c -> startupCalls w' !! t = Some c.
Proof.
  intros Hstep Hres Ht. destruct l; simpl in Hstep.
  - injection Hstep as <-. by apply keeps_startups_startup.
  - injection Hstep as <-. by rewrite startupCalls_schedule.
  - injection Hstep as <-. by rewrite startupCalls_reset.
  - injection Hstep as <-. by rewrite startupCalls_load.
  - unfold callback in Hstep.
    destruct (List.find _ _); [|done]. simpl in Hstep.
    destruct (jobObjs w !! _); [|done]. simpl in Hstep.
    case_match; injection Hstep as <-; [done|by rewrite startupCalls_executeJob].
  - by rewrite (startupCalls_executeJob_resume _ _ _ _ Hstep).
  - unfold schedule_resume in Hstep.
    destruct (scheduleCalls w !! s); [|done]. simpl in Hstep.
    destruct (sc_pc _); try done.
    + case_match; injection Hstep as <-; [done|by rewrite startupCalls_catch_up].
    + injection Hstep as <-. by rewrite startupCalls_catch_up.
    + destruct (executions w !! i); [|done]. simpl in Hstep.
      case_match; [|done]. injection Hstep as <-. by rewrite startupCalls_catch_up.
  - assert (Hne : t <> t0) by (simpl in Hres; congruence).
    unfold startup_resume in Hstep.
    destruct (startupCalls w !! t0); [|done]. simpl in Hstep.
    destruct (su_pc _); try done.
    + destruct (executions w !! i); [|done]. simpl in Hstep.
      repeat case_match; try done; injection Hstep as <-;
        cbn [startupCalls set_startup_pc set_startupCalls emit set_trace];
        by rewrite list_lookup_alter_ne.
    + injection Hstep as <-. by rewrite startup_loop_others.
  - unfold load_resume in Hstep.
    destruct (loadCalls w !! l); [|done]. simpl in Hstep.
    destruct (ld_pc _); try done.
    repeat case_match; injection Hstep as <-; try done.
    cbn [startupCalls set_load_pc set_loadCalls emit set_trace].
    rewrite startupCalls_schedule_all. by apply keeps_startups_start_all.
  - injection Hstep as <-. by rewrite startupCalls_httpHandler.
Qed.

Lemma rounds_snoc j ids i :
  rounds j (ids ++ [i]) = rounds j ids ++ [ActExecuteJob i j; ActSleep 5].
Proof. unfold rounds. by rewrite flat_map_app. Qed.

Lemma lookup_set_startup_pc t pc w c :
  startupCalls w !! t = Some c ->
  startupCalls (set_startup_pc t pc w) !! t
  = Some (mkStartupCall (su_name c) (su_options c) (su_job c) pc).
Proof.
  intros H. cbn [startupCalls set_startup_pc set_startupCalls].
  by rewrite list_lookup_alter_eq, H.
Qed.

Section Call.
Variables (t : nat) (call : Action) (options : StartupOptions) (j : JobRef) (sig : nat).

(** One turn of the loop, after the turns [ids]. *)
Lemma startup_loop_next did x w c job ids :
  startupCalls w !! t = Some c -> su_options c = options ->
  jobObjs w !! j = Some job -> job_abortSignal job = sig ->
  all_finished w ids -> (keepAlive options = false -> ids = []) ->
  (ids <> [] \/ signal_aborted w sig = false) ->
  did = call :: rounds j ids ->
  exists evs' c',
    trace (startup_loop rt t j x w) = trace w ++ evs'
    /\ startupCalls (startup_loop rt t j x w) !! t = Some c'
    /\ su_options c' = su_options c /\ su_job c' = su_job c
    /\ jobObjs (startup_loop rt t j x w) !! j = Some job
    /\ starting_up call options j sig (did ++ by_actor (AStartup t) evs')
         (startup_loop rt t j x w) (su_pc c').
Proof.
  intros Ht Ho Hjob Hsig Hall Honce Hfirst ->. unfold startup_loop. rewrite Hjob, Hsig.
  destruct (signal_aborted w sig) eqn:Hab.
  - eexists [_], _. split_and!; [done|by apply lookup_set_startup_pc|done|done|done|].
    simpl. right. destruct Hfirst as [Hne|]; [|done].
    destruct (keepAlive options) eqn:Hk; [|by destruct Hne; apply Honce].
    split_and!; [done|done|]. exists ids. split_and!; [done|done|].
    by rewrite by_actor_one, actor_eqb_refl.
  - destruct (executeJob_call rt (AStartup t) j x w job Hjob)
      as (e & evs & He & Htr & Hsilent & Hsc & Hjo).
    eexists _, _. split_and!.
    + cbn [trace set_startup_pc set_startupCalls]. exact Htr.
    + apply lookup_set_startup_pc. by rewrite startupCalls_executeJob.
    + done.
    + done.
    + cbn [jobObjs set_startup_pc set_startupCalls]. by rewrite Hjo.
    + simpl. split.
      * cbn [executions set_startup_pc set_startupCalls]. rewrite He, length_app. simpl. lia.
      * exists ids. split_and!; [|done|].
        -- eapply all_finished_later; [|exact Hall]. intros i e' Hi _.
           cbn [executions set_startup_pc set_startupCalls]. rewrite He.
           by apply lookup_app_l_Some.
        -- by rewrite by_actor_cons_same, Hsilent.
Qed.

Lemma starting_up_later did w w' pc :
  (forall i e, executions w !! i = Some e -> finished e = true -> executions w' !! i = Some e) ->
  (length (executions w) <= length (executions w'))%nat ->
  (signal_aborted w sig = true -> signal_aborted w' sig = true) ->
  starting_up call options j sig did w pc -> starting_up call options j sig did w' pc.
Proof.
  intros Hex Hlen Hab. destruct pc; simpl; try done.
  - intros (Hi & ids & Hall & Honce & Hdid). split; [lia|].
    exists ids. split_and!; try done. by eapply all_finished_later.
  - intros (Hk & ids & Hall & Hne & Hdid). split; [done|].
    exists ids. split_and!; try done. by eapply all_finished_later.
  - intros [(Hk & i & Hall & Hdid)|(Hk & Hs & ids & Hall & Hne & Hdid)].
    + left. split; [done|]. exists i. split; [|done]. by eapply all_finished_later.
    + right. split_and!; [done|by apply Hab|]. exists ids. split_and!; try done.
      by eapply all_finished_later.
Qed.

(** A step of another activation. *)
Lemma startup_state_frame (A : Actor -> Prop) w0 w w' :
  extends A w w' -> ~ A (AStartup t) ->
  (forall c, startupCalls w !! t = Some c -> startupCalls w' !! t = Some c) ->
  startup_state t call options j sig w0 w -> startup_state t call options j sig w0 w'.
Proof.
  intros Hext HA Hkeep ((job & Hjob & Hsig) & evs & c & Ht & Hs & Ho & Hj & Hpc).
  destruct (ext_jobObjs _ _ _ Hext _ _ Hjob) as (job' & Hjob' & Hst).
  destruct (ext_trace _ _ _ Hext) as (evs' & Ht' & Hsilent).
  split.
  { exists job'. split; [done|]. destruct Hst as (_ & _ & _ & ->). done. }
  exists (evs ++ evs'), c. split_and!; try done.
  - by rewrite Ht', Ht, <- app_assoc.
  - by apply Hkeep.
  - rewrite by_actor_app, Hsilent, app_nil_r; [|by eapply lookup_lt_Some|done].
    eapply starting_up_later; [| | |exact Hpc].
    + intros i e Hi Hfin. destruct (ext_executions _ _ _ Hext _ _ Hi) as (e' & He' & _ & Hsame).
      rewrite He'. f_equal. apply Hsame. by left.
    + destruct (length (executions w)) as [|n] eqn:Hlen; [lia|].
      assert (Hex : existing w (AExecute n)) by (simpl; lia).
      apply (ext_existing _ _ _ Hext) in Hex. simpl in Hex. lia.
    + apply (ext_aborted _ _ _ Hext).
Qed.

(** A step of the call. *)
Lemma startup_state_resume w0 x w w' :
  startup_resume rt t x w = Some w' ->
  startup_state t call options j sig w0 w -> startup_state t call options j sig w0 w'.
Proof.
  intros Hstep ((job & Hjob & Hsig) & evs & c & Ht & Hs & Ho & Hj & Hpc).
  unfold startup_resume in Hstep. rewrite Hs in Hstep. simpl in Hstep.
  destruct (su_pc c) as [err|i| |] eqn:Hpceq; simpl in Hpc; try done.
  - destruct Hpc as (Hi & ids & Hall & Honce & Hdid).
    destruct (executions w !! i) as [e|] eqn:He; [|done]. simpl in Hstep.
    destruct (finished e) eqn:Hfin; [|done].
    assert (Hall' : all_finished w (ids ++ [i])).
    { intros i' [Hin| [<-|[]]]%in_app_or; [by apply Hall|by exists e]. }
    rewrite Ho in Hstep.
    destruct (keepAlive options) eqn:Hk; simpl in Hstep; injection Hstep as <-.
    + split; [by exists job|]. eexists (evs ++ [_]), _. split_and!.
      * cbn [trace set_startup_pc set_startupCalls emit set_trace]. by rewrite Ht, <- app_assoc.
      * by apply lookup_set_startup_pc.
      * done.
      * done.
      * simpl. split; [done|]. exists (ids ++ [i]). split_and!; [done|by destruct ids|].
        rewrite by_actor_app, by_actor_one, actor_eqb_refl, Hdid, rounds_snoc.
        simpl. by rewrite <- !app_assoc.
    + split; [by exists job|]. eexists (evs ++ [_]), _. split_and!.
      * cbn [trace set_startup_pc set_startupCalls emit set_trace]. by rewrite Ht, <- app_assoc.
      * by apply lookup_set_startup_pc.
      * done.
      * done.
      * simpl. left. split; [done|]. exists i. split.
        -- intros i' [<-|[]]. by exists e.
        -- rewrite by_actor_app, by_actor_one, actor_eqb_refl, Hdid, (Honce eq_refl). done.
  - destruct Hpc as (Hk & ids & Hall & Hne & Hdid). injection Hstep as <-. rewrite Hj.
    destruct (startup_loop_next _ x w c job ids Hs Ho Hjob Hsig Hall
                ltac:(congruence) ltac:(by left) Hdid)
      as (evs' & c' & Ht' & Hs' & Ho' & Hj' & Hjob' & Hpc').
    split; [by exists job|]. exists (evs ++ evs'), c'. split_and!; try congruence.
    + by rewrite Ht', Ht, <- app_assoc.
    + by rewrite by_actor_app.
Qed.

Lemma startup_state_step w0 l w w' :
  consistent rt w -> step rt l w = Some w' ->
  startup_state t call options j sig w0 w -> startup_state t call options j sig w0 w'.
Proof.
  intros Hc Hstep Hinv.
  assert (Hframe : ~ resumed l (AStartup t) -> startup_state t call options j sig w0 w').
  { intros Hres. eapply startup_state_frame; [by eapply step_extends|exact Hres| |done].
    intros c. by eapply step_keeps_startup. }
  destruct l as [| | | | | | |t' x| |];
    try (apply Hframe; simpl; first [tauto|discriminate]).
  destruct (decide (t' = t)) as [->|Hne].
  - by eapply startup_state_resume.
  - apply Hframe. simpl. congruence.
Qed.

Lemma startup_state_run w0 ls w w' :
  consistent rt w -> run rt ls w = Some w' ->
  startup_state t call options j sig w0 w -> startup_state t call options j sig w0 w'.
Proof.
  revert w. induction ls as [|l ls IH]; intros w Hc; simpl.
  - by intros [= <-].
  - destruct (step rt l w) as [w1|] eqn:Hstep; [|done]. simpl. intros Hrun Hinv.
    apply (IH w1); [by eapply consistent_step|done|by eapply startup_state_step].
Qed.

End Call.

(** The call itself. *)
Lemma startup_entered name command options x w0 :
  consistent rt w0 -> validateName name w0 = Returns tt ->
  startup_state (length (startupCalls w0)) (ActCallStartup name command options)
    options (length (jobObjs w0)) (abortController w0) w0
    (startup rt name command options x w0).
Proof.
  intros Hc Hv. unfold startup. cbv zeta.
  replace (validateName name (emit _ _ w0)) with (validateName name w0) by done.
  rewrite Hv.
  set (call := ActCallStartup name command options).
  set (t := length (startupCalls w0)). set (j := length (jobObjs w0)).
  match goal with |- context [startup_loop rt t ?j' x ?w] =>
    set (w1 := w); change j' with j end.
  set (job := mkJob name command (join (logDir w0) (name +:+ ".log")) None
                (abortController w0) Startup).
  assert (Hs : startupCalls w1 !! t = Some (mkStartupCall name options j UAwaitSleep)).
  { subst w1. cbn [startupCalls set_startupCalls set_jobs set_jobObjs emit set_trace].
    subst t. by rewrite lookup_app_r, Nat.sub_diag by lia. }
  assert (Hjob : jobObjs w1 !! j = Some job).
  { subst w1. cbn [jobObjs set_startupCalls set_jobs set_jobObjs emit set_trace].
    subst j. by rewrite lookup_app_r, Nat.sub_diag by lia. }
  destruct (startup_loop_next t call options j (abortController w0) [call] x w1 _ job []
              Hs eq_refl Hjob eq_refl ltac:(by intros ? []) ltac:(done)
              ltac:(right; apply (inv_current _ _ Hc)) eq_refl)
    as (evs' & c' & Ht' & Hs' & Ho' & Hj' & Hjob' & Hpc').
  split; [by exists job|]. exists ((AStartup t, call) :: evs'), c'. split_and!; try done.
  - rewrite Ht'. subst w1. cbn [trace set_startupCalls set_jobs set_jobObjs emit set_trace].
    by rewrite <- app_assoc.
  - by rewrite by_actor_cons_same.
Qed.


End Startup.


